(** * Keychain: mnemonic codec, seed derivation and the slot indexer

    A shallow embedding of [chia/util/keychain.py].  Python [bytes] are lists
    of [Byte.byte], Python [str] is [string], a [BitArray] is a list of
    booleans (most significant bit first), the keyring is a finite map from
    (service, user) to the stored hex string, and every keychain operation is
    a computation in a small state-and-exception monad that also records the
    calls made to the keyring. *)

From Stdlib Require Import NArith ZArith Lia.
From Stdlib Require Import Init.Byte Strings.Byte Strings.Ascii Strings.String.
From stdpp Require Import base tactics option list strings pretty gmap fin_maps.

Abbreviation bytes := (list Byte.byte).

(** ** SHA-256 *)

(** Modelled from the spec: [std_hash] lives in [chia.util.hash], which is not
    part of the sources at hand; the spec names it as SHA-256 (section 4.1),
    so this module follows FIPS 180-4.  The codec below is stated over an
    arbitrary [std_hash]; this instance is used for the concrete runs. *)
Module Sha256.

Definition w32 : N := 4294967296%N.

Definition add32 (a b : N) : N := ((a + b) mod w32)%N.

Definition rotr (n x : N) : N :=
  (N.lor (N.shiftr x n) (N.shiftl x (32 - n)) mod w32)%N.

Definition not32 (x : N) : N := (w32 - 1 - x mod w32)%N.

Definition Ch (x y z : N) : N := N.lxor (N.land x y) (N.land (not32 x) z).
Definition Maj (x y z : N) : N :=
  N.lxor (N.lxor (N.land x y) (N.land x z)) (N.land y z).
Definition Sigma0 (x : N) : N := N.lxor (N.lxor (rotr 2 x) (rotr 13 x)) (rotr 22 x).
Definition Sigma1 (x : N) : N := N.lxor (N.lxor (rotr 6 x) (rotr 11 x)) (rotr 25 x).
Definition sigma0 (x : N) : N := N.lxor (N.lxor (rotr 7 x) (rotr 18 x)) (N.shiftr x 3).
Definition sigma1 (x : N) : N := N.lxor (N.lxor (rotr 17 x) (rotr 19 x)) (N.shiftr x 10).

(** The first primes, by trial division. *)
Definition is_prime (n : N) : bool :=
  (1 <? n)%N
  && forallb (λ d, negb (n mod d =? 0)%N) (map N.of_nat (seq 2 (N.to_nat n - 2))).

Definition primes (count : nat) : list N :=
  take count (List.filter is_prime (map N.of_nat (seq 2 400))).

(** Integer cube root, one bit at a time from the top. *)
Definition icbrt (n : N) : N :=
  fold_left (λ r b, let r' := (r + 2 ^ b)%N in if (r' * r' * r' <=? n)%N then r' else r)
            (map N.of_nat (rev (seq 0 36))) 0%N.

(** The round constants: the first 32 bits of the fractional parts of the
    cube roots of the first 64 primes. *)
Definition K : list N :=
  Eval vm_compute in map (λ p, icbrt (p * 2 ^ 96) mod w32)%N (primes 64).

(** The eight working variables a..h. *)
Record regs := Regs { ra : N; rb : N; rc : N; rd : N; re : N; rf : N; rg : N; rh : N }.

(** The initial hash value: the first 32 bits of the fractional parts of the
    square roots of the first 8 primes. *)
Definition H0 : regs :=
  Eval vm_compute in
    match map (λ p, N.sqrt (p * 2 ^ 64) mod w32)%N (primes 8) with
    | [a; b; c; d; e; f; g; h] => Regs a b c d e f g h
    | _ => Regs 0 0 0 0 0 0 0 0
    end.

(** Big-endian word of four bytes, and back. *)
Definition word_of_bytes (b0 b1 b2 b3 : N) : N :=
  (((b0 * 256 + b1) * 256 + b2) * 256 + b3)%N.

Definition byte_of_N (n : N) : Byte.byte :=
  match Byte.of_N (n mod 256) with Some b => b | None => x00 end.

Definition bytes_of_word (w : N) : bytes :=
  [ byte_of_N (N.shiftr w 24); byte_of_N (N.shiftr w 16);
    byte_of_N (N.shiftr w 8); byte_of_N w ].

Fixpoint words_of_bytes (l : list N) : list N :=
  match l with
  | b0 :: b1 :: b2 :: b3 :: rest => word_of_bytes b0 b1 b2 b3 :: words_of_bytes rest
  | _ => []
  end.

(** Padding: a 1 bit, zeros up to 56 mod 64, then the bit length on 8 bytes. *)
Definition pad (msg : list N) : list N :=
  let len := N.of_nat (length msg) in
  let zeros := N.to_nat ((119 - len mod 64) mod 64)%N in
  let bitlen := (8 * len)%N in
  msg ++ [128%N] ++ replicate zeros 0%N
      ++ map (λ i, (N.shiftr bitlen (8 * i) mod 256)%N) [7; 6; 5; 4; 3; 2; 1; 0]%N.

(** Message schedule, kept newest first: [sched] holds W[t-1], W[t-2], ... *)
Fixpoint extend (n : nat) (sched : list N) : list N :=
  match n with
  | O => sched
  | S n' =>
      let w := add32 (add32 (sigma1 (nth 1 sched 0%N)) (nth 6 sched 0%N))
                     (add32 (sigma0 (nth 14 sched 0%N)) (nth 15 sched 0%N)) in
      extend n' (w :: sched)
  end.

Definition schedule (block : list N) : list N := rev (extend 48 (rev block)).

Definition round (r : regs) (kw : N * N) : regs :=
  let '(k, w) := kw in
  let t1 := add32 (add32 (add32 (rh r) (Sigma1 (re r))) (add32 (Ch (re r) (rf r) (rg r)) k)) w in
  let t2 := add32 (Sigma0 (ra r)) (Maj (ra r) (rb r) (rc r)) in
  Regs (add32 t1 t2) (ra r) (rb r) (rc r) (add32 (rd r) t1) (re r) (rf r) (rg r).

Definition compress (h : regs) (block : list N) : regs :=
  let r := fold_left round (combine K (schedule block)) h in
  Regs (add32 (ra h) (ra r)) (add32 (rb h) (rb r)) (add32 (rc h) (rc r)) (add32 (rd h) (rd r))
       (add32 (re h) (re r)) (add32 (rf h) (rf r)) (add32 (rg h) (rg r)) (add32 (rh h) (rh r)).

Fixpoint blocks (fuel : nat) (ws : list N) (h : regs) : regs :=
  match fuel, ws with
  | S fuel', _ :: _ => blocks fuel' (drop 16 ws) (compress h (take 16 ws))
  | _, _ => h
  end.

Definition digest (h : regs) : bytes :=
  concat (map bytes_of_word [ra h; rb h; rc h; rd h; re h; rf h; rg h; rh h]).

Definition sha256 (msg : bytes) : bytes :=
  let ws := words_of_bytes (pad (map Byte.to_N msg)) in
  digest (blocks (length ws) ws H0).

End Sha256.

Definition hexdigit (n : N) : ascii :=
  match n with
  | 0 => "0" | 1 => "1" | 2 => "2" | 3 => "3" | 4 => "4" | 5 => "5" | 6 => "6" | 7 => "7"
  | 8 => "8" | 9 => "9" | 10 => "a" | 11 => "b" | 12 => "c" | 13 => "d" | 14 => "e" | _ => "f"
  end%N%char.

(** [bytes.hex()]: two lowercase digits per byte. *)
Fixpoint hex (b : bytes) : string :=
  match b with
  | [] => ""
  | x :: rest =>
      String (hexdigit (Byte.to_N x / 16)) (String (hexdigit (Byte.to_N x mod 16)) (hex rest))
  end.


(** ** Exceptions and results *)

(** The Python exceptions the modelled code can raise.  [CreationError] and
    [InterpretError] are bitstring's; [PasswordDeleteError] is what a keyring
    backend may raise when asked to delete an entry that does not exist. *)
Inductive exn : Type :=
| ValueError (msg : string)
| AssertionError
| IndexError
| CreationError
| InterpretError
| PasswordDeleteError.

Inductive result (A : Type) : Type :=
| Ok (a : A)
| Err (e : exn).
Arguments Ok {A} a.
Arguments Err {A} e.

Global Instance result_ret : MRet result := λ A a, Ok a.
Global Instance result_bind : MBind result := λ A B f m,
  match m with Ok a => f a | Err e => Err e end.

Definition assert (b : bool) : result unit :=
  if b then Ok () else Err AssertionError.

(** A [for] loop that appends one computed item per element. *)
Fixpoint mapM {A B : Type} (f : A → result B) (l : list A) : result (list B) :=
  match l with
  | [] => Ok []
  | x :: rest => y ← f x; ys ← mapM f rest; Ok (y :: ys)
  end.

(** ** Bit arrays *)

(** [BitArray(b)] for one byte: its eight bits, most significant first. *)
Definition byte_bits (b : Byte.byte) : list bool :=
  let '(b0, (b1, (b2, (b3, (b4, (b5, (b6, b7))))))) := Byte.to_bits b in
  [b7; b6; b5; b4; b3; b2; b1; b0].

Definition BitArray (bs : bytes) : list bool := concat (map byte_bits bs).

(** [bits.uint]: the bits read as an unsigned big-endian number. *)
Definition uint (bits : list bool) : nat :=
  fold_left (λ acc (b : bool), 2 * acc + (if b then 1 else 0)) bits 0.

Fixpoint uint_bits (len value : nat) : list bool :=
  match len with
  | O => []
  | S len' => uint_bits len' (value / 2) ++ [Nat.odd value]
  end.

(** [BitArray(uint=value, length=len)]; bitstring refuses a value that does
    not fit in [len] bits. *)
Definition BitArray_uint (value len : nat) : result (list bool) :=
  if bool_decide (value < 2 ^ len) then Ok (uint_bits len value) else Err CreationError.

Fixpoint bytes_of_bits (l : list bool) : bytes :=
  match l with
  | b7 :: b6 :: b5 :: b4 :: b3 :: b2 :: b1 :: b0 :: rest =>
      Byte.of_bits (b0, (b1, (b2, (b3, (b4, (b5, (b6, b7))))))) :: bytes_of_bits rest
  | _ => []
  end.

(** [bits.bytes]; bitstring refuses a length that is not a multiple of 8. *)
Definition BitArray_bytes (bits : list bool) : result bytes :=
  if bool_decide (length bits `mod` 8 = 0) then Ok (bytes_of_bits bits) else Err InterpretError.

(** Python's [l[start:stop]] for [0 <= start <= stop]. *)
Definition slice {A : Type} (start stop : nat) (l : list A) : list A :=
  take (stop - start) (drop start l).

(** ** Strings *)

(** [s.split(sep)] for a one-character separator: every occurrence of the
    separator cuts, so consecutive separators give empty strings and the
    empty string gives one empty string. *)
Fixpoint split (sep : ascii) (s : string) : list string :=
  match s with
  | EmptyString => [EmptyString]
  | String c rest =>
      if Ascii.eqb c sep then EmptyString :: split sep rest
      else match split sep rest with
           | w :: ws => String c w :: ws
           | [] => [String c EmptyString]
           end
  end.

(** [sep.join(l)]. *)
Definition join (sep : string) (l : list string) : string := String.concat sep l.

Fixpoint contains (c : ascii) (s : string) : bool :=
  match s with
  | EmptyString => false
  | String d rest => Ascii.eqb d c || contains c rest
  end.

(** [x is None]. *)
Definition is_None {A : Type} (x : option A) : bool :=
  match x with None => true | Some _ => false end.

(** [enumerate(l)]. *)
Definition enumerate {A : Type} (l : list A) : list (nat * A) := zip (seq 0 (length l)) l.


(** [{x: i for i, x in enumerate(l)}]. *)
Definition index_dict (l : list string) : gmap string nat :=
  foldl (λ d iw, <[iw.2 := iw.1]> d) ∅ (enumerate l).

(** ** Hexadecimal strings *)

Definition hexval (c : ascii) : option N :=
  let n := N_of_ascii c in
  if (48 <=? n)%N && (n <=? 57)%N then Some (n - 48)%N
  else if (97 <=? n)%N && (n <=? 102)%N then Some (n - 87)%N
  else if (65 <=? n)%N && (n <=? 70)%N then Some (n - 55)%N
  else None.

(** ASCII whitespace, as [bytes.fromhex] skips it between bytes. *)
Definition is_space (c : ascii) : bool :=
  let n := N_of_ascii c in
  (n =? 32)%N || ((9 <=? n)%N && (n <=? 13)%N).

(** [bytes.fromhex(s)]: two digits per byte, either case, whitespace allowed
    between bytes (the position that CPython appends to the message is left
    out). *)
Fixpoint bytes_fromhex (s : string) : result bytes :=
  match s with
  | EmptyString => Ok []
  | String c rest =>
      if is_space c then bytes_fromhex rest
      else match rest with
           | String d rest' =>
               match hexval c, hexval d with
               | Some h, Some l =>
                   bs ← bytes_fromhex rest';
                   Ok (Sha256.byte_of_N (16 * h + l) :: bs)
               | _, _ => Err (ValueError "non-hexadecimal number found in fromhex() arg")
               end
           | EmptyString => Err (ValueError "non-hexadecimal number found in fromhex() arg")
           end
  end.

(** ** The keyring and the monad of keychain operations *)

(** One call to the keyring. *)
Inductive call : Type :=
| GetPassword (service user : string)
| SetPassword (service user value : string)
| DeletePassword (service user : string).

(** The keyring: its entries, and the calls made so far, latest first. *)
Record keyring : Type := Keyring {
  entries : gmap (string * string) string;
  calls : list call
}.

(** A computation runs on a keyring and either runs out of fuel ([None]: an
    unbounded loop has not finished yet) or ends with a value or a raised
    exception, and the keyring it leaves. *)
Definition M (A : Type) : Type := keyring → option (result A * keyring).

Global Instance M_ret : MRet M := λ A a k, Some (Ok a, k).
Global Instance M_bind : MBind M := λ A B f m k,
  match m k with
  | Some (Ok a, k') => f a k'
  | Some (Err e, k') => Some (Err e, k')
  | None => None
  end.

Definition lift {A : Type} (r : result A) : M A := λ k, Some (r, k).
Definition out_of_fuel {A : Type} : M A := λ _, None.

(** [try: body  except Exception: handler]. *)
Definition try_except {A : Type} (body : M A) (handler : exn → M A) : M A := λ k,
  match body k with
  | Some (Err e, k') => handler e k'
  | r => r
  end.

Definition log (c : call) (k : keyring) : keyring := Keyring (entries k) (c :: calls k).

Definition MAX_KEYS : nat := 100.

Record Keychain : Type := { testing : bool; user : string }.

(** ** Stand-ins for concrete runs *)

Global Instance byte_eq_dec : EqDecision Byte.byte := Byte.byte_eq_dec.

(** A stand-in vocabulary: 2048 distinct words, the word at index [i] being
    the letter w followed by [i] in decimal.  The word at index [i] of
    [english.txt] can be read for it. *)
Definition index_words : list string := map (λ i : nat, "w" +:+ pretty i) (seq 0 2048).

(** Stand-ins for the external libraries, small enough to run: they are
    used to exhibit concrete runs of the model, and have the properties the
    theorems below assume of the real ones. *)
Module Standin.

Definition normalize (form s : string) : string := s.

Definition encode_utf8 (s : string) : bytes := list_byte_of_string s.

(** Counter-mode stretching with SHA-256 in place of PBKDF2-HMAC. *)
Definition pbkdf2_hmac (name : string) (password salt : bytes) (iterations : nat)
    (dklen : option nat) : bytes :=
  let n := default 64 dklen in
  take n (concat (map (λ i : nat,
                    Sha256.sha256 (password ++ [x00] ++ salt ++ [Sha256.byte_of_N (N.of_nat i)]))
                  (seq 0 (n / 32 + 1)))).

Definition PrivateKey : Type := bytes.

Definition key_gen (seed : bytes) : PrivateKey := seed.

Definition G1Element : Type := Byte.byte * Byte.byte * Byte.byte * Byte.byte.

Definition get_g1 (sk : PrivateKey) : G1Element :=
  match Sha256.sha256 sk with
  | a :: b :: c :: d :: _ => (a, b, c, d)
  | _ => (x00, x00, x00, x00)
  end.

Definition get_fingerprint (g : G1Element) : N :=
  let '(a, b, c, d) := g in
  Sha256.word_of_bytes (Byte.to_N a) (Byte.to_N b) (Byte.to_N c) (Byte.to_N d).

Definition G1Element_SIZE : nat := 48.

Definition G1Element_to_bytes (g : G1Element) : bytes :=
  let '(a, b, c, d) := g in [a; b; c; d] ++ replicate 44 x00.

Definition G1Element_from_bytes (bs : bytes) : result G1Element :=
  match bs with
  | a :: b :: c :: d :: rest =>
      if bool_decide (length rest = 44) then Ok (a, b, c, d)
      else Err (ValueError "G1Element::FromBytes: Invalid size")
  | _ => Err (ValueError "G1Element::FromBytes: Invalid size")
  end.

Global Instance G1Element_eq_dec : EqDecision G1Element.
Proof. unfold G1Element. apply _. Defined.

(** The default keychain: [Keychain()]. *)
Definition keychain : Keychain := {| testing := false; user := "user-chia-1.8" |}.

(** Four mnemonics over the stand-in vocabulary: those of the entropies
    00..00, 80..80, ff..ff and 7f..7f (16 bytes each). *)
Definition mnemonic_00 : string := "w0 w0 w0 w0 w0 w0 w0 w0 w0 w0 w0 w3".
Definition mnemonic_80 : string := "w1028 w32 w257 w8 w64 w514 w16 w128 w1028 w32 w257 w4".
Definition mnemonic_ff : string :=
  "w2047 w2047 w2047 w2047 w2047 w2047 w2047 w2047 w2047 w2047 w2047 w2037".
Definition mnemonic_7f : string :=
  "w1019 w2015 w1790 w2039 w1983 w1533 w2031 w1919 w1019 w2015 w1790 w2040".

(** The empty keyring. *)
Definition empty_keyring : keyring := Keyring ∅ [].

(** A draw of [token_bytes] that gives the byte 2a every time. *)
Definition token_bytes (n : nat) : bytes := replicate n x2a.

(** A master passphrase, and a user who types it at the third prompt and
    never again. *)
Definition master_passphrase_is_valid (passphrase : string) : bool :=
  bool_decide (passphrase = "correct horse").

Definition getpass (n : nat) : string :=
  match n with
  | 0 => "horse"
  | 1 => ""
  | 2 => "correct horse"
  | _ => "battery"
  end.

End Standin.

Section Keychain.

(** [bip39_word_list().splitlines()]: the lines of [english.txt], a resource
    file that is not among the sources; and [std_hash] of [chia.util.hash]. *)
Variable word_list : list string.
Variable std_hash : bytes → bytes.

(** Python's standard library: [unicodedata.normalize(form, s)],
    [s.encode("utf-8")] and [hashlib.pbkdf2_hmac(name, password, salt,
    iterations, dklen=None)]. *)
Variable unicodedata_normalize : string → string → string.
Variable encode_utf8 : string → bytes.
Variable pbkdf2_hmac : string → bytes → bytes → nat → option nat → bytes.

(** blspy: [AugSchemeMPL.key_gen] (given a seed of at least 32 bytes, which
    the 64-byte seed always is), [PrivateKey.get_g1], [G1Element.get_fingerprint],
    [bytes(G1Element)], [G1Element.from_bytes] and [G1Element.SIZE];
    [==] on public keys is equality. *)
Variable PrivateKey : Type.
Variable G1Element : Type.
Context `{G1Element_eq_dec : EqDecision G1Element}.
Variable key_gen : bytes → PrivateKey.
Variable get_g1 : PrivateKey → G1Element.
Variable get_fingerprint : G1Element → N.
Variable G1Element_to_bytes : G1Element → bytes.
Variable G1Element_from_bytes : bytes → result G1Element.
Variable G1Element_SIZE : nat.

(** Whether this platform's keyring raises on deleting an entry that does
    not exist. *)
Variable delete_raises : bool.

(** *** Mnemonic codec *)

Definition bytes_to_mnemonic (mnemonic_bytes : bytes) : result string :=
  if negb (bool_decide (length mnemonic_bytes ∈ [16; 20; 24; 28; 32])) then
    Err (ValueError ("Data length should be one of the following: [16, 20, 24, 28, 32], but it is "
                     +:+ pretty (length mnemonic_bytes) +:+ "."))
  else
    let CS := length mnemonic_bytes / 4 in
    let checksum := take CS (BitArray (std_hash mnemonic_bytes)) in
    let bitarray := BitArray mnemonic_bytes ++ checksum in
    _ ← assert (bool_decide (length bitarray `mod` 11 = 0));
    mnemonics ← mapM (λ i,
                   let start := i * 11 in
                   let end_ := start + 11 in
                   let bits := slice start end_ bitarray in
                   let m_word_position := uint bits in
                   match word_list !! m_word_position with
                   | Some m_word => Ok m_word
                   | None => Err IndexError
                   end) (seq 0 (length bitarray / 11));
    Ok (join " " mnemonics).

(** [{word: i for i, word in enumerate(...)}]: a later line overwrites an
    earlier one with the same word. *)
Definition word_dict : gmap string nat := index_dict word_list.

(** The bits one word of a mnemonic contributes: the body of the loop of
    [bytes_from_mnemonic], on its own. *)
Definition word_bits (word : string) : result (list bool) :=
  match word_dict !! word with
  | None => Err (ValueError ("'" +:+ word +:+
                   "' is not in the mnemonic dictionary; may be misspelled"))
  | Some value => BitArray_uint value 11
  end.

Definition bytes_from_mnemonic (mnemonic_str : string) : result bytes :=
  let mnemonic := split " " mnemonic_str in
  if negb (bool_decide (length mnemonic ∈ [12; 15; 18; 21; 24])) then
    Err (ValueError "Invalid mnemonic length")
  else
    let word_list := word_dict in
    bit_array ← foldl (λ acc word,
                   bit_array ← acc;
                   match word_list !! word with
                   | None => Err (ValueError ("'" +:+ word +:+
                                    "' is not in the mnemonic dictionary; may be misspelled"))
                   | Some value =>
                       bits ← BitArray_uint value 11;
                       Ok (bit_array ++ bits)
                   end) (Ok []) mnemonic;
    let CS := length mnemonic / 3 in
    let ENT := length mnemonic * 11 - CS in
    _ ← assert (bool_decide (length bit_array = length mnemonic * 11));
    _ ← assert (bool_decide (ENT `mod` 32 = 0));
    entropy_bytes ← BitArray_bytes (take ENT bit_array);
    let checksum_bytes := drop ENT bit_array in
    let checksum := take CS (BitArray (std_hash entropy_bytes)) in
    _ ← assert (bool_decide (length checksum_bytes = CS));
    if bool_decide (checksum ≠ checksum_bytes) then
      Err (ValueError "Invalid order of mnemonic words")
    else
      Ok entropy_bytes.

(** [secrets.token_bytes(n)]: the [n] bytes that the call draws. *)
Variable token_bytes : nat → bytes.

Definition generate_mnemonic : result string :=
  let mnemonic_bytes := token_bytes 32 in
  mnemonic ← bytes_to_mnemonic mnemonic_bytes;
  Ok mnemonic.

(** *** Seed derivation *)

Definition mnemonic_to_seed (mnemonic passphrase : string) : result bytes :=
  let salt_str := "mnemonic" +:+ passphrase in
  let salt := encode_utf8 (unicodedata_normalize "NFKD" salt_str) in
  let mnemonic_normalized := encode_utf8 (unicodedata_normalize "NFKD" mnemonic) in
  let seed := pbkdf2_hmac "sha512" mnemonic_normalized salt 2048 None in
  _ ← assert (bool_decide (length seed = 64));
  Ok seed.

(** *** The keyring wrapper *)

(** Modelled from the spec: [KeyringWrapper] lives in
    [chia.util.keyring_wrapper], which is not among the sources.  Section 6
    gives its contract: [get] returns the stored string or nothing, [set]
    stores, [delete] removes and may fail on a missing entry. *)
Definition get_password (service user : string) : M (option string) := λ k,
  Some (Ok (entries k !! (service, user)), log (GetPassword service user) k).

Definition set_password (service user value : string) : M unit := λ k,
  Some (Ok (), Keyring (<[(service, user) := value]> (entries k))
                       (SetPassword service user value :: calls k)).

Definition delete_password (service user : string) : M unit := λ k,
  let k' := log (DeletePassword service user) k in
  match entries k !! (service, user) with
  | Some _ => Some (Ok (), Keyring (delete (service, user) (entries k)) (calls k'))
  | None => if delete_raises then Some (Err PasswordDeleteError, k') else Some (Ok (), k')
  end.

(** *** The keychain *)

(** The passphrase gate [unlocks_keyring] is interactive; the operations
    are modelled on an unlocked keyring, where the decorator calls the
    wrapped function unchanged. *)

Variable self : Keychain.

Definition _get_service : string :=
  if testing self then "chia-" +:+ user self +:+ "-test"
  else "chia-" +:+ user self.

Definition _get_pk_and_entropy (user : string) : M (option (G1Element * bytes)) :=
  read_str ← get_password _get_service user;
  match read_str with
  | None => mret None
  | Some read_str =>
      if bool_decide (String.length read_str = 0) then mret None
      else
        str_bytes ← lift (bytes_fromhex read_str);
        pk ← lift (G1Element_from_bytes (take G1Element_SIZE str_bytes));
        mret (Some (pk, drop G1Element_SIZE str_bytes))
  end.

Definition _get_private_key_user (index : nat) : string :=
  if testing self then "wallet-" +:+ user self +:+ "-test-" +:+ pretty index
  else "wallet-" +:+ user self +:+ "-" +:+ pretty index.

(** [while True]: the loop is unbounded, so it runs on fuel. *)
Fixpoint _get_free_private_key_index_from (fuel index : nat) : M nat :=
  match fuel with
  | O => out_of_fuel
  | S fuel' =>
      let pk := _get_private_key_user index in
      pkent ← _get_pk_and_entropy pk;
      match pkent with
      | None => mret index
      | Some _ => _get_free_private_key_index_from fuel' (index + 1)
      end
  end.

Definition _get_free_private_key_index (fuel : nat) : M nat :=
  _get_free_private_key_index_from fuel 0.

(** The scans below all have the shape
    [pkent = read(0); while index <= MAX_KEYS: body; index += 1; pkent = read(index)].
    The loop functions take the fuel [MAX_KEYS + 1], enough for every
    iteration from index 0. *)
Fixpoint get_all_public_keys_loop (fuel index : nat) (pkent : option (G1Element * bytes))
    (all_keys : list G1Element) : M (list G1Element) :=
  if bool_decide (index ≤ MAX_KEYS) then
    match fuel with
    | O => out_of_fuel
    | S fuel' =>
        let all_keys :=
          match pkent with
          | Some (pk, ent) => all_keys ++ [pk]
          | None => all_keys
          end in
        let index := index + 1 in
        pkent ← _get_pk_and_entropy (_get_private_key_user index);
        get_all_public_keys_loop fuel' index pkent all_keys
    end
  else mret all_keys.

Definition get_all_public_keys : M (list G1Element) :=
  let index := 0 in
  pkent ← _get_pk_and_entropy (_get_private_key_user index);
  get_all_public_keys_loop (MAX_KEYS + 1) index pkent [].

Fixpoint get_first_public_key_loop (fuel index : nat) (pkent : option (G1Element * bytes))
    : M (option G1Element) :=
  if bool_decide (index ≤ MAX_KEYS) then
    match fuel with
    | O => out_of_fuel
    | S fuel' =>
        match pkent with
        | Some (pk, ent) => mret (Some pk)
        | None =>
            let index := index + 1 in
            pkent ← _get_pk_and_entropy (_get_private_key_user index);
            get_first_public_key_loop fuel' index pkent
        end
    end
  else mret None.

Definition get_first_public_key : M (option G1Element) :=
  let index := 0 in
  pkent ← _get_pk_and_entropy (_get_private_key_user index);
  get_first_public_key_loop (MAX_KEYS + 1) index pkent.

(** The key regenerated from the stored entropy and one candidate
    passphrase: the first three lines of every [for pp in passphrases] body. *)
Definition regenerate (ent : bytes) (pp : string) : result PrivateKey :=
  mnemonic ← bytes_to_mnemonic ent;
  seed ← mnemonic_to_seed mnemonic pp;
  Ok (key_gen seed).

(** The [for pp in passphrases] loop of [get_first_private_key]:
    [Some] is its [return]. *)
Fixpoint first_key_for_slot (pk : G1Element) (ent : bytes) (passphrases : list string)
    : result (option (PrivateKey * bytes)) :=
  match passphrases with
  | [] => Ok None
  | pp :: rest =>
      key ← regenerate ent pp;
      if bool_decide (get_g1 key = pk) then Ok (Some (key, ent))
      else first_key_for_slot pk ent rest
  end.

Fixpoint get_first_private_key_loop (fuel index : nat) (pkent : option (G1Element * bytes))
    (passphrases : list string) : M (option (PrivateKey * bytes)) :=
  if bool_decide (index ≤ MAX_KEYS) then
    match fuel with
    | O => out_of_fuel
    | S fuel' =>
        found ← match pkent with
                | Some (pk, ent) => lift (first_key_for_slot pk ent passphrases)
                | None => mret None
                end;
        match found with
        | Some r => mret (Some r)
        | None =>
            let index := index + 1 in
            pkent ← _get_pk_and_entropy (_get_private_key_user index);
            get_first_private_key_loop fuel' index pkent passphrases
        end
    end
  else mret None.

Definition get_first_private_key (passphrases : list string)
    : M (option (PrivateKey * bytes)) :=
  let index := 0 in
  pkent ← _get_pk_and_entropy (_get_private_key_user index);
  get_first_private_key_loop (MAX_KEYS + 1) index pkent passphrases.

(** The [for pp in passphrases] loop of [get_private_key_by_fingerprint]:
    the test inside it looks at the stored public key only. *)
Fixpoint key_by_fingerprint_for_slot (pk : G1Element) (ent : bytes) (fingerprint : N)
    (passphrases : list string) : result (option (PrivateKey * bytes)) :=
  match passphrases with
  | [] => Ok None
  | pp :: rest =>
      key ← regenerate ent pp;
      if bool_decide (get_fingerprint pk = fingerprint) then Ok (Some (key, ent))
      else key_by_fingerprint_for_slot pk ent fingerprint rest
  end.

Fixpoint get_private_key_by_fingerprint_loop (fuel index : nat)
    (pkent : option (G1Element * bytes)) (fingerprint : N) (passphrases : list string)
    : M (option (PrivateKey * bytes)) :=
  if bool_decide (index ≤ MAX_KEYS) then
    match fuel with
    | O => out_of_fuel
    | S fuel' =>
        found ← match pkent with
                | Some (pk, ent) =>
                    lift (key_by_fingerprint_for_slot pk ent fingerprint passphrases)
                | None => mret None
                end;
        match found with
        | Some r => mret (Some r)
        | None =>
            let index := index + 1 in
            pkent ← _get_pk_and_entropy (_get_private_key_user index);
            get_private_key_by_fingerprint_loop fuel' index pkent fingerprint passphrases
        end
    end
  else mret None.

Definition get_private_key_by_fingerprint (fingerprint : N) (passphrases : list string)
    : M (option (PrivateKey * bytes)) :=
  let index := 0 in
  pkent ← _get_pk_and_entropy (_get_private_key_user index);
  get_private_key_by_fingerprint_loop (MAX_KEYS + 1) index pkent fingerprint passphrases.

(** The [for pp in passphrases] loop of [get_all_private_keys]. *)
Fixpoint all_keys_for_slot (pk : G1Element) (ent : bytes) (passphrases : list string)
    (all_keys : list (PrivateKey * bytes)) : result (list (PrivateKey * bytes)) :=
  match passphrases with
  | [] => Ok all_keys
  | pp :: rest =>
      key ← regenerate ent pp;
      if bool_decide (get_g1 key = pk) then all_keys_for_slot pk ent rest (all_keys ++ [(key, ent)])
      else all_keys_for_slot pk ent rest all_keys
  end.

Fixpoint get_all_private_keys_loop (fuel index : nat) (pkent : option (G1Element * bytes))
    (passphrases : list string) (all_keys : list (PrivateKey * bytes))
    : M (list (PrivateKey * bytes)) :=
  if bool_decide (index ≤ MAX_KEYS) then
    match fuel with
    | O => out_of_fuel
    | S fuel' =>
        all_keys ← match pkent with
                   | Some (pk, ent) => lift (all_keys_for_slot pk ent passphrases all_keys)
                   | None => mret all_keys
                   end;
        let index := index + 1 in
        pkent ← _get_pk_and_entropy (_get_private_key_user index);
        get_all_private_keys_loop fuel' index pkent passphrases all_keys
    end
  else mret all_keys.

Definition get_all_private_keys (passphrases : list string) : M (list (PrivateKey * bytes)) :=
  let index := 0 in
  pkent ← _get_pk_and_entropy (_get_private_key_user index);
  get_all_private_keys_loop (MAX_KEYS + 1) index pkent passphrases [].

Definition add_private_key (fuel : nat) (mnemonic passphrase : string) : M PrivateKey :=
  seed ← lift (mnemonic_to_seed mnemonic passphrase);
  entropy ← lift (bytes_from_mnemonic mnemonic);
  index ← _get_free_private_key_index fuel;
  let key := key_gen seed in
  let fingerprint := get_fingerprint (get_g1 key) in
  pks ← get_all_public_keys;
  if bool_decide (fingerprint ∈ map get_fingerprint pks) then
    mret key
  else
    _ ← set_password _get_service (_get_private_key_user index)
          (hex (G1Element_to_bytes (get_g1 key)) +:+ hex entropy);
    mret key.

Fixpoint delete_key_by_fingerprint_loop (fuel index : nat)
    (pkent : option (G1Element * bytes)) (fingerprint : N) : M unit :=
  if bool_decide (index ≤ MAX_KEYS) then
    match fuel with
    | O => out_of_fuel
    | S fuel' =>
        _ ← match pkent with
            | Some (pk, ent) =>
                if bool_decide (get_fingerprint pk = fingerprint) then
                  delete_password _get_service (_get_private_key_user index)
                else mret ()
            | None => mret ()
            end;
        let index := index + 1 in
        pkent ← _get_pk_and_entropy (_get_private_key_user index);
        delete_key_by_fingerprint_loop fuel' index pkent fingerprint
    end
  else mret ().

Definition delete_key_by_fingerprint (fingerprint : N) : M unit :=
  let index := 0 in
  pkent ← _get_pk_and_entropy (_get_private_key_user index);
  delete_key_by_fingerprint_loop (MAX_KEYS + 1) index pkent fingerprint.

(** The [try] block of [delete_all_keys] and its handler.  The block
    assigns [pkent] and then deletes: an exception in the read leaves
    [pkent] as it was, one in the delete leaves it already assigned; either
    sets [delete_exception].  The result is the pair of the two variables
    after the [try] statement. *)
Definition delete_all_keys_try (index : nat) (delete_exception : bool)
    (pkent : option (G1Element * bytes)) : M (option (G1Element * bytes) * bool) :=
  try_except
    (pkent' ← _get_pk_and_entropy (_get_private_key_user index);
     try_except
       (_ ← delete_password _get_service (_get_private_key_user index);
        mret (pkent', delete_exception))
       (λ _, mret (pkent', true)))
    (λ _, mret (pkent, true)).

(** Either [while True] loop of [delete_all_keys]. *)
Fixpoint delete_all_keys_loop (fuel index : nat) (delete_exception : bool)
    (pkent : option (G1Element * bytes)) : M unit :=
  match fuel with
  | O => out_of_fuel
  | S fuel' =>
      '(pkent, delete_exception) ← delete_all_keys_try index delete_exception pkent;
      if (is_None pkent || delete_exception) && bool_decide (MAX_KEYS < index)
      then mret ()
      else delete_all_keys_loop fuel' (index + 1) delete_exception pkent
  end.

Definition delete_all_keys (fuel : nat) : M unit :=
  _ ← delete_all_keys_loop fuel 0 false None;
  delete_all_keys_loop fuel 0 true None.

(** *** The passphrase gate *)

(** Modelled from the spec: the master passphrase of [KeyringWrapper], which
    is not among the sources.  Section 6 gives its contract:
    [has_master_passphrase], the validator [is_valid], and the cached
    passphrase with its [validated] flag, read by [get_cached] and written by
    [set_cached].  Whether a master passphrase is set and which passphrases
    are valid do not change during a call; the cache is state.  The default
    of the parameter [validated] of [set_cached_master_passphrase], used by
    the call that clears the cache, is left open. *)
Variable has_master_passphrase : bool.
Variable master_passphrase_is_valid : string → bool.
Variable default_validated : bool.

(** [getpass(prompt)]: what the user types at the [n]-th prompt of the
    session; and the prompt [DEFAULT_PASSPHRASE_PROMPT], built from colorama's
    escape codes. *)
Variable getpass : nat → string.
Variable DEFAULT_PASSPHRASE_PROMPT : string.

(** What a call does at the terminal: [getpass(prompt)],
    [sleep(FAILED_ATTEMPT_DELAY)] and [print(line)].  [colorama.init()] only
    styles the terminal and is left out. *)
Inductive event : Type :=
| Prompt (prompt : string)
| Sleep
| Print (line : string).

(** The state a gated call runs on: the cache of [KeyringWrapper], the
    number of prompts answered so far, and the events so far, latest first. *)
Record session : Type := Session {
  cached : option string * bool;
  prompts : nat;
  events : list event
}.

Definition get_cached_master_passphrase (s : session) : option string * bool := cached s.

Definition set_cached_master_passphrase (passphrase : option string) (validated : bool)
    (s : session) : session :=
  Session (passphrase, validated) (prompts s) (events s).

Definition tell (e : event) (s : session) : session :=
  Session (cached s) (prompts s) (e :: events s).

Definition MAX_RETRIES : nat := 3.

Definition newline : string := String (ascii_of_nat 10) "".

(** The loop [for i in range(MAX_RETRIES)] of [obtain_current_passphrase],
    with [retries] iterations to go, and the [raise] after it. *)
Fixpoint obtain_current_passphrase_loop (retries : nat) (prompt : string)
    (use_passphrase_cache : bool) (s : session) : result string * session :=
  match retries with
  | O => (Err (ValueError "maximum passphrase attempts reached"), s)
  | S retries' =>
      let passphrase := getpass (prompts s) in
      let s := Session (cached s) (S (prompts s)) (Prompt prompt :: events s) in
      if master_passphrase_is_valid passphrase then
        let s := if use_passphrase_cache
                 then set_cached_master_passphrase (Some passphrase) true s
                 else s in
        (Ok passphrase, s)
      else
        let s := tell Sleep s in
        let s := tell (Print ("Incorrect passphrase" +:+ newline)) s in
        obtain_current_passphrase_loop retries' prompt use_passphrase_cache s
  end.

(** [if passphrase:] on an optional string: there is one and it is not
    empty. *)
Definition truthy (passphrase : option string) : bool :=
  match passphrase with
  | Some (String _ _) => true
  | _ => false
  end.

Definition obtain_current_passphrase (prompt : string) (use_passphrase_cache : bool)
    (s : session) : result string * session :=
  let prompt_user := obtain_current_passphrase_loop MAX_RETRIES prompt use_passphrase_cache in
  if use_passphrase_cache then
    let '(passphrase, validated) := get_cached_master_passphrase s in
    match passphrase with
    | Some passphrase' =>
        if truthy passphrase then
          if validated then (Ok passphrase', s)
          else if master_passphrase_is_valid passphrase' then
            (Ok passphrase', set_cached_master_passphrase (Some passphrase') true s)
          else
            prompt_user (set_cached_master_passphrase None default_validated s)
        else prompt_user s
    | None => prompt_user s
    end
  else prompt_user s.

(** How a gated call ends: with what the wrapped function returns or
    raises, or with [sys.exit(status)]. *)
Inductive outcome (A : Type) : Type :=
| Returned (r : A)
| Exited (status : nat).
#[global] Arguments Returned {A} r.
#[global] Arguments Exited {A} status.

(** [str(e)] for the exceptions of this file. *)
Definition str_exn (e : exn) : string :=
  match e with
  | ValueError msg => msg
  | _ => ""
  end.

(** The decorator [unlocks_keyring(use_passphrase_cache)] applied to [func]. *)
Definition unlocks_keyring {A : Type} (use_passphrase_cache : bool)
    (func : session → A * session) (s : session) : outcome A * session :=
  let '(unlocked, s) :=
    if has_master_passphrase then
      match obtain_current_passphrase DEFAULT_PASSPHRASE_PROMPT use_passphrase_cache s with
      | (Ok _, s) => (true, s)
      | (Err e, s) =>
          (false, tell (Print ("Unable to unlock the keyring: " +:+ str_exn e)) s)
      end
    else (true, s) in
  if unlocked then
    let '(r, s) := func s in (Returned r, s)
  else (Exited 1, s).

(** *** Derived notions for the statements *)

(** What slot [index] of this keychain holds, and the record it decodes to:
    the value [_get_pk_and_entropy] computes from the stored string. *)
Definition slot (k : keyring) (index : nat) : option string :=
  entries k !! (_get_service, _get_private_key_user index).

Definition decode_slot (read_str : option string) : result (option (G1Element * bytes)) :=
  match read_str with
  | None => Ok None
  | Some read_str =>
      if bool_decide (String.length read_str = 0) then Ok None
      else
        str_bytes ← bytes_fromhex read_str;
        pk ← G1Element_from_bytes (take G1Element_SIZE str_bytes);
        Ok (Some (pk, drop G1Element_SIZE str_bytes))
  end.

Definition record_at (k : keyring) (index : nat) : result (option (G1Element * bytes)) :=
  decode_slot (slot k index).

(** A slot is occupied when it decodes to a record, readable when it decodes
    at all (to a record, or as empty). *)
Definition occupied (k : keyring) (index : nat) : Prop :=
  ∃ r, record_at k index = Ok (Some r).

Definition readable (k : keyring) (index : nat) : Prop :=
  ∃ r, record_at k index = Ok r.

(** The call that reads slot [index]. *)
Definition read_call (index : nat) : call :=
  GetPassword _get_service (_get_private_key_user index).

(** From [k] to [k'] the keyring was only read, at the [n] slots from [a] on,
    in order. *)
Definition reads (k : keyring) (a n : nat) (k' : keyring) : Prop :=
  entries k' = entries k ∧ calls k' = rev (map read_call (seq a n)) ++ calls k.

(** The records of the [n] slots from [a] on, empty slots left out. *)
Definition occupants (k : keyring) (a n : nat) : list (G1Element * bytes) :=
  omap (λ i, match record_at k i with Ok r => r | Err _ => None end) (seq a n).


(** The records a scan looks at when it runs from [index] with [pkent] in
    hand and [fuel] iterations to go: [pkent] for [index] itself, then the
    slots after it up to [MAX_KEYS]. *)
Definition in_scan (k : keyring) (index fuel : nat) (pkent : option (G1Element * bytes))
    (i : nat) (r : G1Element * bytes) : Prop :=
  (fuel ≠ 0 ∧ i = index ∧ pkent = Some r)
  ∨ (index < i ≤ MAX_KEYS ∧ record_at k i = Ok (Some r)).

(** The common shape of the three lookups that return at the first hit
    ([get_first_public_key], [get_first_private_key],
    [get_private_key_by_fingerprint]), with the test on a record as a
    parameter. *)
Fixpoint find_loop {R : Type} (g : G1Element * bytes → result (option R))
    (fuel index : nat) (pkent : option (G1Element * bytes)) : M (option R) :=
  if bool_decide (index ≤ MAX_KEYS) then
    match fuel with
    | O => out_of_fuel
    | S fuel' =>
        found ← match pkent with
                | Some rec => lift (g rec)
                | None => mret None
                end;
        match found with
        | Some r => mret (Some r)
        | None =>
            pkent ← _get_pk_and_entropy (_get_private_key_user (index + 1));
            find_loop g fuel' (index + 1) pkent
        end
    end
  else mret None.

(** Whether a decoded slot holds a public key with the given fingerprint. *)
Definition has_fingerprint (fingerprint : N) (r : result (option (G1Element * bytes))) : bool :=
  match r with
  | Ok (Some (pk, _)) => bool_decide (get_fingerprint pk = fingerprint)
  | _ => false
  end.

(** Seed derivation as the specification words it (section 4.2):
    PBKDF2-HMAC-SHA512 of the normalized mnemonic as password and the
    normalized ["mnemonic" + passphrase] as salt, 2048 iterations, 64 bytes
    of output. *)
Definition derive (mnemonic_text passphrase : string) : bytes :=
  let salt := encode_utf8 (unicodedata_normalize "NFKD" ("mnemonic" +:+ passphrase)) in
  let password := encode_utf8 (unicodedata_normalize "NFKD" mnemonic_text) in
  pbkdf2_hmac "sha512" password salt 2048 (Some 64).

(** The key of a mnemonic and a passphrase. *)
Definition key_of (mnemonic passphrase : string) : PrivateKey :=
  key_gen (derive mnemonic passphrase).

(** What is assumed of the libraries.  [hashlib.pbkdf2_hmac]: without
    [dklen] the output has the digest size of the hash, 64 bytes for SHA-512,
    and with it the output has that length.  blspy: a public key serializes
    to [G1Element.SIZE] bytes, from which it is read back. *)
Definition pbkdf2_ok : Prop :=
  (∀ password salt iterations,
     pbkdf2_hmac "sha512" password salt iterations None
     = pbkdf2_hmac "sha512" password salt iterations (Some 64))
  ∧ (∀ name password salt iterations dklen,
       length (pbkdf2_hmac name password salt iterations (Some dklen)) = dklen).

Definition bls_ok : Prop :=
  (∀ g, length (G1Element_to_bytes g) = G1Element_SIZE)
  ∧ (∀ g, G1Element_from_bytes (G1Element_to_bytes g) = Ok g).

(** A fingerprint is enumerable when a slot 0..[MAX_KEYS] holds a public key
    that has it. *)
Definition enumerable (k : keyring) (fingerprint : N) : Prop :=
  ∃ i pk ent, i ≤ MAX_KEYS ∧ record_at k i = Ok (Some (pk, ent))
              ∧ get_fingerprint pk = fingerprint.

(** The string [add_private_key] stores for a key. *)
Definition record_string (mnemonic passphrase : string) (entropy : bytes) : string :=
  hex (G1Element_to_bytes (get_g1 (key_of mnemonic passphrase))) +:+ hex entropy.

(** The data model's invariant on the slots a scan reads: each is empty or
    holds a record whose entropy has one of the five lengths. *)
Definition well_formed (k : keyring) : Prop :=
  ∀ j, j ≤ MAX_KEYS + 1 →
    ∃ r, record_at k j = Ok r
         ∧ ∀ pk ent, r = Some (pk, ent) → length ent ∈ [16; 20; 24; 28; 32].

(** The vocabulary, as the codec needs it: 2048 distinct words, none with a
    space in it; and the hash returns 32 bytes. *)
Definition vocabulary_ok : Prop :=
  length word_list = 2048 ∧ NoDup word_list ∧ Forall (λ w, contains " " w = false) word_list.

Definition hash_ok : Prop := ∀ b : bytes, length (std_hash b) = 32.

(** The keyring whose slots 0, 1, ... hold the given strings, [None] for a
    slot with no entry, and on which no call was made yet. *)
Fixpoint store_from (index : nat) (records : list (option string))
    : gmap (string * string) string :=
  match records with
  | [] => ∅
  | Some r :: records =>
      <[(_get_service, _get_private_key_user index) := r]> (store_from (S index) records)
  | None :: records => store_from (S index) records
  end.

Definition keyring_of (records : list (option string)) : keyring :=
  Keyring (store_from 0 records) [].

(** The keys that the candidate passphrases give for one record, in the
    order of the candidates: those that regenerate its public key. *)
Definition keys_for_slot (passphrases : list string) (rec : G1Element * bytes)
    : list (PrivateKey * bytes) :=
  omap (λ pp, match regenerate rec.2 pp with
              | Ok key => if bool_decide (get_g1 key = rec.1) then Some (key, rec.2) else None
              | Err _ => None
              end) passphrases.

(** From [k] to [k'] no entry changed other than slots of this keychain;
    and a computation that never changes any other entry. *)
Definition untouched (k k' : keyring) : Prop :=
  ∀ key, (∀ i, key ≠ (_get_service, _get_private_key_user i)) →
         entries k' !! key = entries k !! key.

Definition preserves {A : Type} (m : M A) : Prop :=
  ∀ k r k', m k = Some (r, k') → untouched k k'.

(** The events of one refused attempt, latest first; and the index, among
    the next [retries] answers from the [from]-th on, of the first that is a
    valid passphrase. *)
Definition failed_attempt (prompt : string) : list event :=
  [Print ("Incorrect passphrase" +:+ newline); Sleep; Prompt prompt].

Fixpoint first_valid (retries from : nat) : option nat :=
  match retries with
  | O => None
  | S retries' =>
      if master_passphrase_is_valid (getpass from) then Some 0
      else S <$> first_valid retries' (S from)
  end.

(** What [get_private_key_by_fingerprint] has for one record when [pp] is
    the first candidate: the key that [pp] gives, if the stored public key
    has the fingerprint. *)
Definition key_for_fingerprint (fingerprint : N) (pp : string) (rec : G1Element * bytes)
    : option (PrivateKey * bytes) :=
  if bool_decide (get_fingerprint rec.1 = fingerprint) then
    match regenerate rec.2 pp with
    | Ok key => Some (key, rec.2)
    | Err _ => None
    end
  else None.

(** ** Proofs *)

#[local] Arguments Nat.div : simpl never.
#[local] Arguments Nat.modulo : simpl never.
#[local] Arguments Nat.mul : simpl never.

Lemma MAX_KEYS_value : MAX_KEYS = 100.
Proof. reflexivity. Qed.

(** The bound is kept folded in the proofs; where its value matters it comes
    from [MAX_KEYS_value]. *)
#[local] Opaque MAX_KEYS.

(** *** Results and the loop combinator *)

Lemma bind_Ok {A B : Type} (m : result A) (f : A → result B) (b : B) :
  m ≫= f = Ok b ↔ ∃ a, m = Ok a ∧ f a = Ok b.
Proof.
  destruct m as [a|e]; simpl; split.
  - eauto.
  - by intros (a' & [= ->] & ?).
  - done.
  - by intros (? & ? & ?).
Qed.

Lemma assert_Ok (b : bool) (u : unit) : assert b = Ok u ↔ b = true.
Proof. destruct b, u; simpl; split; done. Qed.

Lemma mapM_Ok {A B : Type} (f : A → result B) (l : list A) (l' : list B) :
  mapM f l = Ok l' ↔ Forall2 (λ x y, f x = Ok y) l l'.
Proof.
  revert l'. induction l as [|x l IH]; intros l'; simpl.
  - split; [intros [= <-]; constructor | by inversion 1].
  - rewrite bind_Ok. split.
    + intros (y & Hy & Hrest). apply bind_Ok in Hrest as (ys & Hys & [= <-]).
      constructor; [done | by apply IH].
    + inversion 1 as [|? y ? ys Hy Hys]; subst. exists y. split; [done |].
      apply IH in Hys. by rewrite Hys.
Qed.

(** *** Strings *)

Lemma split_not_nil (sep : ascii) (s : string) : split sep s ≠ [].
Proof.
  destruct s as [|c s]; simpl; [done |].
  destruct (Ascii.eqb c sep); [done |]. by destruct (split sep s).
Qed.

Lemma join_cons (sep w : string) (l : list string) :
  l ≠ [] → join sep (w :: l) = w +:+ sep +:+ join sep l.
Proof. by destruct l. Qed.

Lemma join_split (sep : ascii) (s : string) :
  join (String sep EmptyString) (split sep s) = s.
Proof.
  induction s as [|c s IH]; simpl; [done |].
  pose proof (split_not_nil sep s) as Hne.
  destruct (Ascii.eqb_spec c sep) as [->|Hc].
  - rewrite join_cons by done. simpl. by rewrite IH.
  - destruct (split sep s) as [|w ws] eqn:Hs; [done |].
    destruct ws as [|w' ws].
    + simpl in *. by rewrite IH.
    + rewrite join_cons by done. rewrite join_cons in IH by done.
      by rewrite <- IH.
Qed.

Lemma split_no_sep (sep : ascii) (w : string) :
  contains sep w = false → split sep w = [w].
Proof.
  induction w as [|c w IH]; simpl; [done |].
  intros [Hc Hw]%orb_false_elim. rewrite Hc, (IH Hw). done.
Qed.

Lemma split_app_sep (sep : ascii) (w rest : string) :
  contains sep w = false →
  split sep (w +:+ String sep rest) = w :: split sep rest.
Proof.
  induction w as [|c w IH]; simpl.
  - intros _. by rewrite Ascii.eqb_refl.
  - intros [Hc Hw]%orb_false_elim. rewrite Hc, (IH Hw). done.
Qed.

Lemma split_join (sep : ascii) (l : list string) :
  l ≠ [] → Forall (λ w, contains sep w = false) l →
  split sep (join (String sep EmptyString) l) = l.
Proof.
  induction l as [|w l IH]; [done |]. intros _ Hall.
  apply Forall_cons in Hall as [Hw Hl].
  destruct l as [|w' l].
  - simpl. by apply split_no_sep.
  - rewrite join_cons by done.
    change (w +:+ String sep EmptyString +:+ join (String sep EmptyString) (w' :: l))
      with (w +:+ String sep (join (String sep EmptyString) (w' :: l))).
    rewrite split_app_sep by done. f_equal. by apply IH.
Qed.

(** *** Bit arrays *)

Lemma uint_snoc (l : list bool) (b : bool) :
  uint (l ++ [b]) = 2 * uint l + (if b then 1 else 0).
Proof. unfold uint. by rewrite fold_left_app. Qed.

Lemma length_uint_bits (len value : nat) : length (uint_bits len value) = len.
Proof.
  revert value. induction len as [|len IH]; intros value; [done |].
  cbn [uint_bits]. rewrite length_app, IH. simpl. lia.
Qed.

Lemma odd_bit (v : nat) : (if Nat.odd v then 1 else 0) = v `mod` 2.
Proof.
  rewrite <- Nat.bit0_mod. unfold Nat.b2n. by rewrite Nat.bit0_odd.
Qed.

Lemma uint_uint_bits (len value : nat) :
  value < 2 ^ len → uint (uint_bits len value) = value.
Proof.
  revert value. induction len as [|len IH]; intros value Hlt.
  - cbn [uint_bits]. simpl in *. unfold uint. simpl. lia.
  - rewrite Nat.pow_succ_r' in Hlt. cbn [uint_bits].
    rewrite uint_snoc, IH, odd_bit.
    + pose proof (Nat.div_mod_eq value 2). lia.
    + apply Nat.Div0.div_lt_upper_bound. lia.
Qed.

Lemma uint_bits_uint (l : list bool) : uint_bits (length l) (uint l) = l.
Proof.
  induction l as [|b l IH] using rev_ind; [done |].
  rewrite length_app, uint_snoc. simpl length. rewrite Nat.add_1_r. cbn [uint_bits].
  assert (Hdiv : (2 * uint l + (if b then 1 else 0)) `div` 2 = uint l).
  { symmetry. destruct b; [apply (Nat.div_unique _ 2 _ 1) | apply (Nat.div_unique _ 2 _ 0)]; lia. }
  rewrite Hdiv, IH. f_equal. f_equal.
  rewrite Nat.odd_add, Nat.odd_mul. by destruct b.
Qed.

Lemma uint_lt (l : list bool) : uint l < 2 ^ length l.
Proof.
  induction l as [|b l IH] using rev_ind; [simpl; unfold uint; simpl; lia |].
  rewrite uint_snoc, length_app. simpl length.
  rewrite Nat.pow_add_r. simpl. destruct b; lia.
Qed.

Lemma length_byte_bits (b : Byte.byte) : length (byte_bits b) = 8.
Proof.
  unfold byte_bits.
  by destruct (Byte.to_bits b) as (?&?&?&?&?&?&?&?).
Qed.

Lemma length_BitArray (bs : bytes) : length (BitArray bs) = 8 * length bs.
Proof.
  unfold BitArray. induction bs as [|b bs IH]; simpl; [done |].
  rewrite length_app, length_byte_bits, IH. lia.
Qed.

Lemma bytes_of_bits_byte_bits (b : Byte.byte) (rest : list bool) :
  bytes_of_bits (byte_bits b ++ rest) = b :: bytes_of_bits rest.
Proof.
  unfold byte_bits. rewrite <- (Byte.of_bits_to_bits b) at 2.
  by destruct (Byte.to_bits b) as (b0&b1&b2&b3&b4&b5&b6&b7).
Qed.

Lemma bytes_of_bits_BitArray (bs : bytes) : bytes_of_bits (BitArray bs) = bs.
Proof.
  unfold BitArray. induction bs as [|b bs IH]; [done |].
  cbn [map concat]. by rewrite bytes_of_bits_byte_bits, IH.
Qed.

Lemma BitArray_bytes_of_bits (n : nat) (l : list bool) :
  length l = 8 * n → BitArray (bytes_of_bits l) = l.
Proof.
  revert l. induction n as [|n IH]; intros l Hl.
  - by destruct l.
  - destruct l as [|b7 [|b6 [|b5 [|b4 [|b3 [|b2 [|b1 [|b0 l]]]]]]]]; simpl in Hl; try lia.
    cbn [bytes_of_bits]. unfold BitArray. cbn [map concat]. unfold byte_bits at 1.
    rewrite Byte.to_bits_of_bits. cbn [app]. do 8 f_equal.
    apply IH. lia.
Qed.

Lemma length_bytes_of_bits (n : nat) (l : list bool) :
  length l = 8 * n → length (bytes_of_bits l) = n.
Proof.
  intros Hl. pose proof (length_BitArray (bytes_of_bits l)) as H.
  rewrite (BitArray_bytes_of_bits n) in H by done. lia.
Qed.

(** Cutting a list into [n] slices of width [c] and gluing them back. *)
Lemma concat_slices_from {A : Type} (c a n : nat) (l : list A) :
  concat (map (λ i, slice (i * c) (i * c + c) l) (seq a n)) = take (n * c) (drop (a * c) l).
Proof.
  revert a. induction n as [|n IH]; intros a; [done |].
  cbn [seq map concat]. rewrite IH. unfold slice.
  replace (a * c + c - a * c) with c by lia.
  replace (S a * c) with (a * c + c) by lia.
  replace (S n * c) with (c + n * c) by lia.
  rewrite <- drop_drop. by rewrite take_take_drop.
Qed.

Lemma concat_slices {A : Type} (c n : nat) (l : list A) :
  length l = n * c →
  concat (map (λ i, slice (i * c) (i * c + c) l) (seq 0 n)) = l.
Proof.
  intros Hl. rewrite concat_slices_from. simpl. rewrite <- Hl. apply firstn_all.
Qed.

Lemma slice_concat {A : Type} (c i : nat) (bl : list (list A)) (b : list A) :
  Forall (λ b, length b = c) bl → bl !! i = Some b →
  slice (i * c) (i * c + c) (concat bl) = b.
Proof.
  revert i. induction bl as [|b0 bl IH]; intros i Hall Hi; [done |].
  apply Forall_cons in Hall as [Hb0 Hbl]. unfold slice in *.
  replace (i * c + c - i * c) with c by lia.
  destruct i as [|i]; simpl in *.
  - injection Hi as ->. rewrite Nat.mul_0_l, drop_0. by rewrite take_app_length'.
  - replace (S i * c) with (length b0 + i * c) by lia.
    rewrite drop_app_add. specialize (IH i Hbl Hi).
    by replace (i * c + c - i * c) with c in IH by lia.
Qed.

(** *** The word dictionary *)

Lemma enumerate_snoc {A : Type} (l : list A) (x : A) :
  enumerate (l ++ [x]) = enumerate l ++ [(length l, x)].
Proof.
  unfold enumerate. rewrite length_app. simpl length.
  rewrite seq_app. simpl. rewrite zip_with_app; [done |]. by rewrite length_seq.
Qed.

Lemma index_dict_snoc (l : list string) (x : string) :
  index_dict (l ++ [x]) = <[x := length l]> (index_dict l).
Proof. unfold index_dict. by rewrite enumerate_snoc, foldl_app. Qed.

Lemma index_dict_sound (l : list string) (w : string) (i : nat) :
  index_dict l !! w = Some i → l !! i = Some w.
Proof.
  induction l as [|x l IH] using rev_ind; [done |].
  rewrite index_dict_snoc. destruct (decide (x = w)) as [->|Hne].
  - rewrite lookup_insert_eq. intros [= <-]. by rewrite list_lookup_middle.
  - rewrite lookup_insert_ne by done. intros Hi%IH.
    by rewrite lookup_app_l by (by eapply lookup_lt_Some).
Qed.

Lemma index_dict_complete (l : list string) (w : string) (i : nat) :
  NoDup l → l !! i = Some w → index_dict l !! w = Some i.
Proof.
  induction l as [|x l IH] using rev_ind; [done |].
  intros [Hl [Hx _]]%NoDup_app Hi. rewrite index_dict_snoc.
  destruct (decide (i < length l)) as [Hlt|Hge].
  - rewrite lookup_app_l in Hi by done.
    rewrite lookup_insert_ne; [by apply IH |].
    intros ->. apply (Hx w); [by eapply list_elem_of_lookup_2 | apply list_elem_of_here].
  - rewrite lookup_app_r in Hi by lia.
    destruct (i - length l) as [|n] eqn:Hn; [|by destruct n].
    injection Hi as ->. rewrite lookup_insert_eq. f_equal. lia.
Qed.

Lemma index_dict_elem (l : list string) (w : string) :
  w ∈ l → is_Some (index_dict l !! w).
Proof.
  induction l as [|x l IH] using rev_ind; [by intros ?%elem_of_nil |].
  rewrite index_dict_snoc, elem_of_app, list_elem_of_singleton.
  destruct (decide (x = w)) as [->|Hne].
  - rewrite lookup_insert_eq. eauto.
  - rewrite lookup_insert_ne by done. intros [?| ->]; [auto | done].
Qed.

(** *** Word counts and entropy lengths *)

Lemma valid_word_count (n : nat) :
  n ∈ [12; 15; 18; 21; 24] ↔ ∃ k, 4 ≤ k ≤ 8 ∧ n = 3 * k.
Proof.
  rewrite !elem_of_cons, elem_of_nil. split.
  - intros [->|[->|[->|[->|[->|[]]]]]];
      [exists 4 | exists 5 | exists 6 | exists 7 | exists 8]; lia.
  - intros (k & Hk & ->). lia.
Qed.

Lemma valid_entropy_length (n : nat) :
  n ∈ [16; 20; 24; 28; 32] ↔ ∃ k, 4 ≤ k ≤ 8 ∧ n = 4 * k.
Proof.
  rewrite !elem_of_cons, elem_of_nil. split.
  - intros [->|[->|[->|[->|[->|[]]]]]];
      [exists 4 | exists 5 | exists 6 | exists 7 | exists 8]; lia.
  - intros (k & Hk & ->). lia.
Qed.

(** *** Decoding, one word at a time *)

Lemma word_bits_length (w : string) (b : list bool) :
  word_bits w = Ok b → length b = 11.
Proof.
  unfold word_bits, BitArray_uint. destruct (word_dict !! w); [|done].
  case_bool_decide; [|done]. intros Heq.
  assert (b = uint_bits 11 n) as -> by congruence. apply length_uint_bits.
Qed.

Lemma mapM_word_bits_length (ws : list string) (bl : list (list bool)) :
  mapM word_bits ws = Ok bl →
  Forall (λ b, length b = 11) bl ∧ length bl = length ws ∧ length (concat bl) = length ws * 11.
Proof.
  rewrite mapM_Ok. induction 1 as [|w b ws bl Hw _ (IH1 & IH2 & IH3)]; [done |].
  apply word_bits_length in Hw. repeat split.
  - by constructor.
  - simpl. by rewrite IH2.
  - simpl. rewrite length_app, IH3. lia.
Qed.

Lemma decode_words_foldl (acc : result (list bool)) (ws : list string) :
  foldl (λ acc word,
           bit_array ← acc;
           match word_dict !! word with
           | None => Err (ValueError ("'" +:+ word +:+
                            "' is not in the mnemonic dictionary; may be misspelled"))
           | Some value => bits ← BitArray_uint value 11; Ok (bit_array ++ bits)
           end) acc ws
  = (bit_array ← acc; bl ← mapM word_bits ws; Ok (bit_array ++ concat bl)).
Proof.
  revert acc. induction ws as [|w ws IH]; intros acc.
  - destruct acc; simpl; [by rewrite app_nil_r | done].
  - cbn [foldl]. rewrite IH. destruct acc as [ba|e]; [|done]. simpl.
    unfold word_bits. destruct (word_dict !! w) as [v|]; [|done].
    destruct (BitArray_uint v 11) as [bits|e]; [|done]. simpl.
    destruct (mapM _ ws) as [bl|e]; [|done]. simpl. by rewrite app_assoc.
Qed.

(** What a successful decoding amounts to. *)
Lemma bytes_from_mnemonic_Ok (m : string) (e : bytes) :
  bytes_from_mnemonic m = Ok e ↔
  ∃ k bl, 4 ≤ k ≤ 8 ∧ length (split " " m) = 3 * k ∧
          mapM word_bits (split " " m) = Ok bl ∧
          e = bytes_of_bits (take (32 * k) (concat bl)) ∧
          take k (BitArray (std_hash e)) = drop (32 * k) (concat bl).
Proof.
  unfold bytes_from_mnemonic. set (ws := split " " m).
  case_bool_decide as Hn; simpl; cycle 1.
  { split; [done |]. intros (k & bl & Hk & Hlen & _). exfalso. apply Hn.
    apply valid_word_count. eauto. }
  apply valid_word_count in Hn as (k & Hk & Hlen).
  rewrite decode_words_foldl. simpl.
  assert (HCS : length ws `div` 3 = k).
  { rewrite Hlen, Nat.mul_comm. by apply Nat.div_mul. }
  assert (HENT : length ws * 11 - length ws `div` 3 = 32 * k) by lia.
  rewrite HENT, HCS.
  destruct (mapM word_bits ws) as [bl|err] eqn:Hbl; simpl; cycle 1.
  { split; [done |]. by intros (? & ? & _ & _ & ? & _). }
  destruct (mapM_word_bits_length _ _ Hbl) as (_ & _ & Hba).
  rewrite (bool_decide_true (length (concat bl) = _)) by done. simpl.
  rewrite (bool_decide_true (_ `mod` 32 = 0))
    by (rewrite Nat.mul_comm; apply Nat.Div0.mod_mul). simpl.
  assert (Hent : length (take (32 * k) (concat bl)) = 8 * (4 * k)).
  { rewrite length_take. lia. }
  unfold BitArray_bytes.
  rewrite (bool_decide_true (_ `mod` 8 = 0))
    by (rewrite Hent, Nat.mul_comm; apply Nat.Div0.mod_mul). simpl.
  rewrite (bool_decide_true (length (drop _ _) = _)) by (rewrite length_drop; lia). simpl.
  case_bool_decide as Hcs.
  - split; [done |]. intros (k' & bl' & _ & Hlen' & [= <-] & -> & Hcs').
    assert (k' = k) as -> by lia. done.
  - split.
    + intros [= <-]. exists k, bl. eauto.
    + intros (k' & bl' & _ & Hlen' & [= <-] & -> & _).
      by assert (k' = k) as -> by lia.
Qed.

(** *** Encoding *)

Lemma bytes_to_mnemonic_eval (e : bytes) (k : nat) (ba : list bool) :
  4 ≤ k ≤ 8 → length e = 4 * k →
  ba = BitArray e ++ take k (BitArray (std_hash e)) → length ba = 33 * k →
  bytes_to_mnemonic e =
    (ws ← mapM (λ i, match word_list !! uint (slice (i * 11) (i * 11 + 11) ba) with
                     | Some m_word => Ok m_word
                     | None => Err IndexError
                     end) (seq 0 (3 * k));
     Ok (join " " ws)).
Proof.
  intros Hk Hlen Hba Hbalen. unfold bytes_to_mnemonic.
  rewrite bool_decide_true by (apply valid_entropy_length; eauto).
  cbn [negb].
  assert (HCS : length e `div` 4 = k).
  { rewrite Hlen, Nat.mul_comm. by apply Nat.div_mul. }
  rewrite HCS, <- Hba.
  assert (H33 : 33 * k = 3 * k * 11) by lia.
  rewrite (bool_decide_true (_ `mod` 11 = 0))
    by (rewrite Hbalen, H33; apply Nat.Div0.mod_mul).
  cbn [assert mbind result_bind].
  replace (length ba `div` 11) with (3 * k); [done |].
  rewrite Hbalen, H33. symmetry. by apply Nat.div_mul.
Qed.

Lemma mapM_total {A B : Type} (f : A → result B) (l : list A) :
  (∀ x, x ∈ l → ∃ y, f x = Ok y) → ∃ l', mapM f l = Ok l'.
Proof.
  induction l as [|x l IH]; intros Hf; simpl; [by eexists |].
  destruct (Hf x) as [y Hy]; [apply list_elem_of_here |]. rewrite Hy. simpl.
  destruct IH as [ys Hys]; [intros; apply Hf; by apply list_elem_of_further |].
  rewrite Hys. simpl. by eexists.
Qed.

Lemma length_slice (i : nat) (n : nat) (ba : list bool) :
  length ba = n * 11 → i < n → length (slice (i * 11) (i * 11 + 11) ba) = 11.
Proof.
  intros Hlen Hi. unfold slice. rewrite length_take, length_drop. lia.
Qed.

Lemma decode_encode (e : bytes) :
  vocabulary_ok → hash_ok → length e ∈ [16; 20; 24; 28; 32] →
  ∃ m, bytes_to_mnemonic e = Ok m ∧ bytes_from_mnemonic m = Ok e.
Proof.
  intros (Hwl & Hnodup & Hnosp) Hhash (k & Hk & Hlen)%valid_entropy_length.
  set (ba := BitArray e ++ take k (BitArray (std_hash e))).
  assert (Hbalen : length ba = 33 * k).
  { unfold ba. rewrite length_app, length_take, !length_BitArray, Hhash. lia. }
  assert (Hbalen' : length ba = 3 * k * 11) by lia.
  set (f := λ i, match word_list !! uint (slice (i * 11) (i * 11 + 11) ba) with
                 | Some m_word => Ok m_word
                 | None => Err IndexError
                 end).
  destruct (mapM_total f (seq 0 (3 * k))) as [ws Hws].
  { intros i [_ Hi]%elem_of_seq. unfold f.
    pose proof (uint_lt (slice (i * 11) (i * 11 + 11) ba)) as Hlt.
    rewrite (length_slice i (3 * k)) in Hlt by (done || lia).
    destruct (lookup_lt_is_Some_2 word_list (uint (slice (i * 11) (i * 11 + 11) ba))) as [w Hw].
    { rewrite Hwl. exact Hlt. }
    rewrite Hw. by eexists. }
  exists (join " " ws). split.
  { rewrite (bytes_to_mnemonic_eval e k ba) by done. fold f. by rewrite Hws. }
  apply mapM_Ok in Hws.
  pose proof (Forall2_length _ _ _ Hws) as Hwslen. rewrite length_seq in Hwslen.
  assert (Hsplit : split " " (join " " ws) = ws).
  { apply split_join.
    - intros ->. simpl in Hwslen. lia.
    - apply Forall_forall. intros w Hw.
      apply list_elem_of_lookup in Hw as [i Hi].
      destruct (Forall2_lookup_r _ _ _ _ _ Hws Hi) as (j & Hj & Hfj).
      unfold f in Hfj.
      destruct (word_list !! uint _) as [w'|] eqn:Hw'; [|done].
      injection Hfj as ->. rewrite Forall_forall in Hnosp.
      apply Hnosp. by eapply list_elem_of_lookup_2. }
  apply bytes_from_mnemonic_Ok.
  exists k, (map (λ i, slice (i * 11) (i * 11 + 11) ba) (seq 0 (3 * k))).
  rewrite Hsplit, concat_slices by done.
  repeat split; [lia | lia | by rewrite <- Hwslen | | | ].
  - apply mapM_Ok, Forall2_fmap_r, Forall2_flip.
    eapply Forall2_same_length_lookup_2; [by apply Forall2_length in Hws |].
    intros i j w Hj Hw.
    apply lookup_seq in Hj as [-> Hi]. simpl.
    pose proof (Forall2_lookup_lr _ _ _ _ _ _ Hws (proj2 (lookup_seq 0 (3 * k) i i) (conj eq_refl Hi)) Hw) as Hfi.
    unfold f in Hfi.
    destruct (word_list !! uint _) as [w'|] eqn:Hw'; [|done].
    injection Hfi as ->. unfold word_bits, word_dict.
    rewrite (index_dict_complete _ _ _ Hnodup Hw'). unfold BitArray_uint.
    pose proof (uint_lt (slice (i * 11) (i * 11 + 11) ba)) as Hlt.
    rewrite (length_slice i (3 * k)) in Hlt by (done || lia).
    rewrite bool_decide_true by done. f_equal.
    rewrite <- (length_slice i (3 * k) ba) at 1 by (done || lia).
    apply uint_bits_uint.
  - unfold ba. rewrite take_app_length' by (rewrite length_BitArray; lia).
    by rewrite bytes_of_bits_BitArray.
  - unfold ba. by rewrite drop_app_length' by (rewrite length_BitArray; lia).
Qed.

Lemma encode_decode (m : string) (e : bytes) :
  bytes_from_mnemonic m = Ok e → bytes_to_mnemonic e = Ok m.
Proof.
  intros (k & bl & Hk & Hlen & Hbl & He & Hcs)%bytes_from_mnemonic_Ok.
  destruct (mapM_word_bits_length _ _ Hbl) as (Hall & Hbllen & Hcat).
  assert (Hent : length (take (32 * k) (concat bl)) = 8 * (4 * k)).
  { rewrite length_take. lia. }
  assert (Helen : length e = 4 * k).
  { rewrite He. by apply length_bytes_of_bits. }
  assert (Hba : concat bl = BitArray e ++ take k (BitArray (std_hash e))).
  { rewrite Hcs, He, (BitArray_bytes_of_bits (4 * k)) by done. by rewrite take_drop. }
  rewrite (bytes_to_mnemonic_eval e k (concat bl)) by (done || lia).
  assert (Hws : mapM (λ i, match word_list !! uint (slice (i * 11) (i * 11 + 11) (concat bl)) with
                           | Some m_word => Ok m_word
                           | None => Err IndexError
                           end) (seq 0 (3 * k)) = Ok (split " " m)).
  { apply mapM_Ok. apply mapM_Ok in Hbl.
    eapply Forall2_same_length_lookup_2; [by rewrite length_seq |].
    intros i j w Hj Hw. apply lookup_seq in Hj as [-> Hi]. simpl.
    destruct (Forall2_lookup_l _ _ _ _ _ Hbl Hw) as (b & Hb & Hwb).
    rewrite (slice_concat 11 i bl b) by done.
    unfold word_bits, word_dict, BitArray_uint in Hwb.
    destruct (index_dict word_list !! w) as [v|] eqn:Hv; [|done].
    case_bool_decide as Hlt; [|done].
    assert (b = uint_bits 11 v) as -> by congruence.
    rewrite uint_uint_bits by done.
    by rewrite (index_dict_sound _ _ _ Hv). }
  rewrite Hws. simpl. f_equal. apply join_split.
Qed.

(** C1.  Round trip of the mnemonic codec: decoding the mnemonic of an
    entropy of 16, 20, 24, 28 or 32 bytes gives the entropy back, and
    encoding the entropy that a mnemonic decodes to gives the mnemonic back. *)
Theorem C1_mnemonic_round_trip :
  vocabulary_ok → hash_ok →
  (∀ e : bytes, length e ∈ [16; 20; 24; 28; 32] →
     ∃ m, bytes_to_mnemonic e = Ok m ∧ bytes_from_mnemonic m = Ok e) ∧
  (∀ (m : string) (e : bytes),
     bytes_from_mnemonic m = Ok e → bytes_to_mnemonic e = Ok m).
Proof.
  intros Hvoc Hhash. split.
  - intros e He. by apply decode_encode.
  - apply encode_decode.
Qed.

(** *** Changing one word *)

(** Once the words are known words, decoding can only fail on the checksum. *)
Lemma bytes_from_mnemonic_eval (m : string) (k : nat) (bl : list (list bool)) :
  4 ≤ k ≤ 8 → length (split " " m) = 3 * k → mapM word_bits (split " " m) = Ok bl →
  bytes_from_mnemonic m =
    let e := bytes_of_bits (take (32 * k) (concat bl)) in
    if bool_decide (take k (BitArray (std_hash e)) ≠ drop (32 * k) (concat bl))
    then Err (ValueError "Invalid order of mnemonic words")
    else Ok e.
Proof.
  intros Hk Hlen Hbl. unfold bytes_from_mnemonic. set (ws := split " " m) in *.
  rewrite bool_decide_true by (apply valid_word_count; eauto). cbn [negb].
  rewrite decode_words_foldl. simpl.
  assert (HCS : length ws `div` 3 = k).
  { rewrite Hlen, Nat.mul_comm. by apply Nat.div_mul. }
  assert (HENT : length ws * 11 - length ws `div` 3 = 32 * k) by lia.
  rewrite HENT, HCS, Hbl. simpl.
  destruct (mapM_word_bits_length _ _ Hbl) as (_ & _ & Hba).
  rewrite (bool_decide_true (length (concat bl) = _)) by done. simpl.
  rewrite (bool_decide_true (_ `mod` 32 = 0))
    by (rewrite Nat.mul_comm; apply Nat.Div0.mod_mul). simpl.
  assert (Hent : length (take (32 * k) (concat bl)) = 8 * (4 * k)).
  { rewrite length_take. lia. }
  unfold BitArray_bytes.
  rewrite (bool_decide_true (_ `mod` 8 = 0))
    by (rewrite Hent, Nat.mul_comm; apply Nat.Div0.mod_mul). simpl.
  by rewrite (bool_decide_true (length (drop _ _) = _)) by (rewrite length_drop; lia).
Qed.

Lemma word_bits_Ok (w : string) (b : list bool) :
  word_bits w = Ok b ↔
  ∃ v, word_dict !! w = Some v ∧ v < 2 ^ 11 ∧ b = uint_bits 11 v.
Proof.
  unfold word_bits, BitArray_uint. destruct (word_dict !! w) as [v|]; cycle 1.
  { split; [done | by intros (? & ? & _)]. }
  case_bool_decide as Hlt; split.
  - intros Heq. exists v. repeat split; [done | congruence].
  - intros (v' & [= <-] & _ & ->). done.
  - done.
  - intros (v' & [= <-] & ? & _). done.
Qed.

(** C8.  Changing one word of a valid mnemonic into another word of the
    vocabulary never decodes to the original entropy: decoding fails on the
    checksum, or the checksum happens to fit and a different entropy comes
    out. *)
Theorem C8_single_word_change (m : string) (e : bytes) (i : nat) (w : string) :
  length word_list = 2048 → Forall (λ w, contains " " w = false) word_list →
  bytes_from_mnemonic m = Ok e →
  i < length (split " " m) → w ∈ word_list → split " " m !! i ≠ Some w →
  bytes_from_mnemonic (join " " (<[i := w]> (split " " m)))
    = Err (ValueError "Invalid order of mnemonic words")
  ∨ ∃ e', bytes_from_mnemonic (join " " (<[i := w]> (split " " m))) = Ok e' ∧ e' ≠ e.
Proof.
  intros Hwl Hnosp Hm Hi Hw Hne.
  apply bytes_from_mnemonic_Ok in Hm as (k & bl & Hk & Hlen & Hbl & He & Hcs).
  set (ws := split " " m) in *.
  destruct (mapM_word_bits_length _ _ Hbl) as (Hall & Hbllen & Hcat).
  (* the new word has an index below 2048 *)
  destruct (index_dict_elem _ _ Hw) as [v Hv].
  assert (Hvlt : v < 2 ^ 11).
  { change (2 ^ 11) with 2048. rewrite <- Hwl.
    eapply lookup_lt_Some, index_dict_sound, Hv. }
  assert (Hwb : word_bits w = Ok (uint_bits 11 v)).
  { apply word_bits_Ok. eauto. }
  (* the words of the changed mnemonic *)
  assert (Hsplit : split " " (join " " (<[i := w]> ws)) = <[i := w]> ws).
  { apply split_join.
    - intros Hnil. apply (f_equal length) in Hnil. rewrite length_insert in Hnil.
      simpl in Hnil. lia.
    - rewrite Forall_forall in Hnosp. apply Forall_insert; [|by apply Hnosp].
      apply Forall_forall. intros w0 Hw0. apply Hnosp.
      apply list_elem_of_lookup in Hw0 as [j Hj]. apply mapM_Ok in Hbl.
      destruct (Forall2_lookup_l _ _ _ _ _ Hbl Hj) as (b & _ & (v0 & Hv0 & _)%word_bits_Ok).
      eapply list_elem_of_lookup_2, index_dict_sound, Hv0. }
  assert (Hbl' : mapM word_bits (<[i := w]> ws) = Ok (<[i := uint_bits 11 v]> bl)).
  { apply mapM_Ok. apply mapM_Ok in Hbl. by apply Forall2_insert. }
  rewrite (bytes_from_mnemonic_eval _ k (<[i := uint_bits 11 v]> bl))
    by (rewrite ?Hsplit, ?length_insert; done).
  cbv zeta. case_bool_decide as Hcs'; [by left | right].
  eexists. split; [done |]. intros Heq.
  (* equal entropies would make the two bit arrays equal *)
  assert (Hcat' : length (concat (<[i := uint_bits 11 v]> bl)) = length ws * 11).
  { apply (mapM_word_bits_length (<[i := w]> ws)) in Hbl' as (_ & _ & ->).
    by rewrite length_insert. }
  assert (Hsame : concat (<[i := uint_bits 11 v]> bl) = concat bl).
  { rewrite <- (take_drop (32 * k) (concat bl)).
    rewrite <- (take_drop (32 * k) (concat (<[i := uint_bits 11 v]> bl))).
    f_equal.
    - rewrite <- (BitArray_bytes_of_bits (4 * k) (take (32 * k) (concat bl)))
        by (rewrite length_take; lia).
      rewrite <- (BitArray_bytes_of_bits (4 * k) (take (32 * k) (concat (<[i := _]> bl))))
        by (rewrite length_take; lia).
      by rewrite Heq, He.
    - rewrite <- Hcs, <- Hcs'. by rewrite Heq, He. }
  (* but they differ in the i-th group of 11 bits *)
  destruct (lookup_lt_is_Some_2 ws i Hi) as [w0 Hw0].
  apply mapM_Ok in Hbl.
  destruct (Forall2_lookup_l _ _ _ _ _ Hbl Hw0) as (b & Hb & (v0 & Hv0 & Hv0lt & ->)%word_bits_Ok).
  assert (Hslice : uint_bits 11 v = uint_bits 11 v0).
  { rewrite <- (slice_concat 11 i (<[i := uint_bits 11 v]> bl) (uint_bits 11 v)).
    - rewrite Hsame. by apply slice_concat.
    - apply Forall_insert; [done | apply length_uint_bits].
    - apply list_lookup_insert_eq. by eapply lookup_lt_Some. }
  apply (f_equal uint) in Hslice. rewrite !uint_uint_bits in Hslice by done.
  subst v0. apply Hne. rewrite Hw0. f_equal.
  apply index_dict_sound in Hv, Hv0. congruence.
Qed.

(** *** Hexadecimal strings *)

Lemma bytes_fromhex_hex_byte (x : Byte.byte) (rest : string) :
  bytes_fromhex (String (hexdigit (Byte.to_N x / 16))
                   (String (hexdigit (Byte.to_N x mod 16)) rest))
  = (bs ← bytes_fromhex rest; Ok (x :: bs)).
Proof. by destruct x. Qed.

Lemma bytes_fromhex_hex (b : bytes) : bytes_fromhex (hex b) = Ok b.
Proof.
  induction b as [|x b IH]; [done |].
  cbn [hex]. by rewrite bytes_fromhex_hex_byte, IH.
Qed.

Lemma hex_app (a b : bytes) : hex (a ++ b) = hex a +:+ hex b.
Proof. induction a as [|x a IH]; [done |]. cbn [hex app String.append]. by rewrite IH. Qed.

Lemma hex_length (b : bytes) : String.length (hex b) = 2 * length b.
Proof. induction b as [|x b IH]; [done |]. cbn [hex String.length length]. rewrite IH. lia. Qed.

Lemma append_inj_r (s a b : string) : s +:+ a = s +:+ b → a = b.
Proof. induction s as [|c s IH]; [done |]. intros [= H]. by apply IH. Qed.

(** *** Slots *)

Lemma _get_private_key_user_inj (i j : nat) :
  _get_private_key_user i = _get_private_key_user j → i = j.
Proof.
  unfold _get_private_key_user. destruct (testing self); intros H;
    repeat apply append_inj_r in H; by apply (inj pretty) in H.
Qed.

Lemma run_bind {A B : Type} (m : M A) (f : A → M B) (k : keyring) :
  (m ≫= f) k = match m k with
               | Some (Ok a, k') => f a k'
               | Some (Err e, k') => Some (Err e, k')
               | None => None
               end.
Proof. done. Qed.

Lemma run_read (index : nat) (k : keyring) :
  _get_pk_and_entropy (_get_private_key_user index) k
  = Some (record_at k index, log (read_call index) k).
Proof.
  unfold _get_pk_and_entropy, record_at, decode_slot, slot, get_password, read_call.
  rewrite run_bind.
  destruct (entries k !! _) as [read_str|]; [|done].
  case_bool_decide; [done |]. unfold lift. rewrite run_bind.
  destruct (bytes_fromhex read_str) as [str_bytes|]; [|done]. simpl.
  rewrite run_bind.
  by destruct (G1Element_from_bytes _).
Qed.

Lemma record_at_entries (k k' : keyring) (index : nat) :
  entries k' = entries k → record_at k' index = record_at k index.
Proof. unfold record_at, slot. by intros ->. Qed.

Lemma reads_refl (k : keyring) (a : nat) : reads k a 0 k.
Proof. by split. Qed.

Lemma reads_step (k k' : keyring) (a n : nat) :
  reads (log (read_call a) k) (a + 1) n k' → reads k a (S n) k'.
Proof.
  intros [He Hc]. split; [done |]. rewrite Hc. cbn [seq map rev log calls].
  rewrite Nat.add_1_r, <- app_assoc. done.
Qed.

Lemma reads_trans (k k' k'' : keyring) (a n m : nat) :
  reads k a n k' → reads k' (a + n) m k'' → reads k a (n + m) k''.
Proof.
  intros [He Hc] [He' Hc']. split; [congruence |].
  rewrite Hc', Hc, seq_app, map_app, rev_app_distr, <- app_assoc. done.
Qed.

Lemma reads_record_at (k k' : keyring) (a n index : nat) :
  reads k a n k' → record_at k' index = record_at k index.
Proof. intros [He _]. by apply record_at_entries. Qed.

Lemma reads_calls_length (k k' : keyring) (a n : nat) :
  reads k a n k' → length (calls k') = n + length (calls k).
Proof. intros [_ ->]. by rewrite length_app, length_rev, length_map, length_seq. Qed.

(** *** The free-slot scan *)

Lemma free_index_from_run (fuel index i : nat) (k : keyring) :
  index ≤ i → i - index < fuel →
  (∀ j, index ≤ j < i → occupied k j) → record_at k i = Ok None →
  ∃ k', _get_free_private_key_index_from fuel index k = Some (Ok i, k')
        ∧ reads k index (i - index + 1) k'.
Proof.
  revert index k. induction fuel as [|fuel IH]; intros index k Hle Hfuel Hocc Hfree; [lia |].
  cbn [_get_free_private_key_index_from]. rewrite run_bind, run_read.
  destruct (decide (index = i)) as [->|Hne].
  - rewrite Hfree. eexists. split; [done |].
    replace (i - i + 1) with 1 by lia. apply reads_step, reads_refl.
  - destruct (Hocc index) as [r Hr]; [lia |]. rewrite Hr.
    destruct (IH (index + 1) (log (read_call index) k)) as (k' & Hrun & Hreads);
      [lia | lia | | done |].
    { intros j Hj. destruct (Hocc j) as [r' Hr']; [lia |]. by exists r'. }
    exists k'. split; [done |].
    replace (i - index + 1) with (S (i - (index + 1) + 1)) by lia.
    by apply reads_step.
Qed.

Lemma free_index_from_inv (fuel index i : nat) (k k' : keyring) :
  _get_free_private_key_index_from fuel index k = Some (Ok i, k') →
  index ≤ i ∧ record_at k i = Ok None ∧ ∀ j, index ≤ j < i → occupied k j.
Proof.
  revert index k. induction fuel as [|fuel IH]; intros index k; [done |].
  cbn [_get_free_private_key_index_from]. rewrite run_bind, run_read.
  destruct (record_at k index) as [[r|]|e] eqn:Hr; [| |done].
  - intros (Hle & Hfree & Hocc)%IH. repeat split; [lia | done |].
    intros j Hj. destruct (decide (j = index)) as [->|]; [by exists r |].
    destruct (Hocc j) as [r' Hr']; [lia |]. by exists r'.
  - intros [= <- <-]. repeat split; [done.. |]. intros j Hj. lia.
Qed.

Lemma free_index_from_out_of_fuel (fuel index : nat) (k : keyring) :
  (∀ j, index ≤ j < index + fuel → occupied k j) →
  _get_free_private_key_index_from fuel index k = None.
Proof.
  revert index k. induction fuel as [|fuel IH]; intros index k Hocc; [done |].
  cbn [_get_free_private_key_index_from]. rewrite run_bind, run_read.
  destruct (Hocc index) as [r Hr]; [lia |]. rewrite Hr.
  apply IH. intros j Hj. destruct (Hocc j) as [r' Hr']; [lia |]. by exists r'.
Qed.

Lemma least_index (P : nat → Prop) `{!∀ i, Decision (P i)} (n : nat) :
  P n → ∃ i, i ≤ n ∧ P i ∧ ∀ j, j < i → ¬ P j.
Proof.
  induction n as [n IH] using lt_wf_ind. intros Hn.
  destruct (decide (Exists P (seq 0 n))) as [Hex|Hall].
  - apply Exists_exists in Hex as (m & [_ Hm]%elem_of_seq & HPm).
    destruct (IH m) as (i & Hi & HPi & Hleast); [lia | done |].
    exists i. split; [lia | done].
  - apply not_Exists_Forall in Hall; [|intros i; apply _].
    rewrite Forall_forall in Hall. exists n. split; [done |]. split; [done |].
    intros j Hj. apply (Hall j). apply elem_of_seq. lia.
Qed.

Global Instance occupied_dec (k : keyring) (i : nat) : Decision (occupied k i).
Proof.
  unfold occupied. destruct (record_at k i) as [[r|]|e].
  - left. by exists r.
  - right. by intros [r Hr].
  - right. by intros [r Hr].
Defined.

(** A keyring is finite, so from any index on some slot of the keychain is
    not occupied; the first such slot follows occupied ones only. *)
Lemma first_unoccupied (k : keyring) (a : nat) :
  ∃ i, a ≤ i ∧ ¬ occupied k i ∧ ∀ j, a ≤ j < i → occupied k j.
Proof.
  (* more slots than the keyring has entries: one of them is not occupied *)
  assert (∃ n, a ≤ n ∧ ¬ occupied k n) as (n & Han & Hfree).
  { destruct (decide (Exists (λ i, ¬ occupied k i) (seq a (S (size (entries k)))))) as [Hex|Hall].
    - apply Exists_exists in Hex as (i & [Hi _]%elem_of_seq & Hfree). eauto.
    - exfalso. apply not_Exists_Forall in Hall; [|intros i; apply _].
      rewrite Forall_forall in Hall.
      set (l := map (λ i, (_get_service, _get_private_key_user i))
                    (seq a (S (size (entries k))))).
      assert (Hnd : NoDup l).
      { apply NoDup_fmap_2; [|apply NoDup_seq].
        intros i j [= H]. by apply _get_private_key_user_inj. }
      assert (Hsub : list_to_set l ⊆ dom (entries k)).
      { intros x Hx. apply elem_of_list_to_set in Hx.
        apply list_elem_of_fmap in Hx as (i & -> & Hi).
        apply elem_of_dom. specialize (Hall i Hi). simpl in Hall.
        apply dec_stable in Hall as [r Hr]. unfold record_at, slot, decode_slot in Hr.
        by destruct (entries k !! _); [eexists |]. }
      apply subseteq_size in Hsub.
      rewrite size_list_to_set, size_dom in Hsub by done.
      unfold l in Hsub. rewrite length_map, length_seq in Hsub. lia. }
  destruct (least_index (λ i, a ≤ i ∧ ¬ occupied k i) n) as (i & _ & [Hai Hi] & Hleast);
    [done |].
  exists i. repeat split; [done.. |]. intros j [Haj Hji].
  destruct (decide (occupied k j)) as [|Hno]; [done |].
  by destruct (Hleast j Hji).
Qed.

(** *** Enumerating the public keys *)

Lemma elem_of_occupants (k : keyring) (a n : nat) (r : G1Element * bytes) :
  r ∈ occupants k a n ↔ ∃ i, a ≤ i < a + n ∧ record_at k i = Ok (Some r).
Proof.
  unfold occupants. rewrite list_elem_of_omap. split.
  - intros (i & Hi%elem_of_seq & Hr). exists i. split; [done |].
    by destruct (record_at k i) as [[?|]|]; simplify_eq.
  - intros (i & Hi & Hr). exists i. split; [by apply elem_of_seq |]. by rewrite Hr.
Qed.

Lemma occupants_entries (k k' : keyring) (a n : nat) :
  entries k' = entries k → occupants k' a n = occupants k a n.
Proof.
  intros He. unfold occupants, record_at, slot. by rewrite He.
Qed.

Lemma occupants_ext (k k' : keyring) (a n : nat) :
  (∀ j, a ≤ j < a + n → record_at k' j = record_at k j) →
  occupants k' a n = occupants k a n.
Proof.
  intros Hsame. unfold occupants. apply list_omap_ext, Forall2_same_length_lookup_2; [done |].
  intros i j j' Hj Hj'. assert (j' = j) as -> by congruence.
  apply lookup_seq in Hj as [-> Hi]. rewrite Hsame by lia. done.
Qed.

Lemma occupants_S (k : keyring) (a n : nat) (r : option (G1Element * bytes)) :
  record_at k a = Ok r →
  occupants k a (S n) = option_list r ++ occupants k (S a) n.
Proof. intros Hr. unfold occupants. simpl. rewrite Hr. by destruct r. Qed.

Lemma get_all_public_keys_loop_run (fuel index : nat) (pkent : option (G1Element * bytes))
    (acc : list G1Element) (k : keyring) :
  index + fuel = MAX_KEYS + 1 →
  ∃ r n k',
    get_all_public_keys_loop fuel index pkent acc k = Some (r, k')
    ∧ reads k (index + 1) n k' ∧ n ≤ fuel
    ∧ match r with
      | Ok l =>
          n = fuel ∧ (∀ i, index < i ≤ MAX_KEYS + 1 → readable k i)
          ∧ l = acc ++ if bool_decide (fuel = 0) then []
                       else (option_list pkent).*1 ++ (occupants k (index + 1) (fuel - 1)).*1
      | Err e => ∃ i, index < i ≤ MAX_KEYS + 1 ∧ record_at k i = Err e
      end.
Proof.
  revert index pkent acc k. induction fuel as [|fuel IH]; intros index pkent acc k Hfuel.
  - cbn [get_all_public_keys_loop]. rewrite bool_decide_false by lia.
    exists (Ok acc), 0, k. split; [done |]. split; [apply reads_refl |]. split; [done |].
    split; [done |]. split; [intros; lia | by rewrite app_nil_r].
  - cbn [get_all_public_keys_loop]. rewrite bool_decide_true by lia.
    rewrite run_bind, run_read.
    destruct (record_at k (index + 1)) as [pkent'|e] eqn:Hrec.
    + destruct (IH (index + 1) pkent'
                  (match pkent with Some (pk, _) => acc ++ [pk] | None => acc end)
                  (log (read_call (index + 1)) k)) as (r & n & k' & Hrun & Hreads & Hn & Hr);
        [lia |].
      exists r, (S n), k'. split; [exact Hrun |]. split; [by apply reads_step |].
      split; [lia |].
      destruct r as [l|e].
      * destruct Hr as (-> & Hreadable & ->). split; [done |]. split.
        { intros i Hi. destruct (decide (i = index + 1)) as [->|]; [by exists pkent' |].
          destruct (Hreadable i) as [r Hr]; [lia |]. by exists r. }
        assert (Hacc : match pkent with Some (pk, _) => acc ++ [pk] | None => acc end
                       = acc ++ (option_list pkent).*1).
        { destruct pkent as [[pk ent]|]; [done | by rewrite app_nil_r]. }
        rewrite (bool_decide_false (S fuel = 0)) by lia.
        replace (S fuel - 1) with fuel by lia.
        rewrite Hacc, <- app_assoc. f_equal. f_equal.
        destruct fuel as [|f]; [done |].
        rewrite (bool_decide_false (S f = 0)) by lia.
        replace (S f - 1) with f by lia.
        rewrite (occupants_entries k (log (read_call (index + 1)) k)) by done.
        rewrite (occupants_S k (index + 1) f pkent') by done.
        rewrite fmap_app. do 3 f_equal. lia.
      * destruct Hr as (i & Hi & Hr). exists i. split; [lia |].
        by rewrite <- (record_at_entries k (log (read_call (index + 1)) k)).
    + exists (Err e), 1, (log (read_call (index + 1)) k). split; [done |].
      split; [apply reads_step, reads_refl |]. split; [lia |].
      exists (index + 1). split; [lia | done].
Qed.

Lemma get_all_public_keys_run (k : keyring) :
  ∃ r n k',
    get_all_public_keys k = Some (r, k') ∧ reads k 0 n k' ∧ n ≤ MAX_KEYS + 2
    ∧ match r with
      | Ok l => n = MAX_KEYS + 2 ∧ (∀ i, i ≤ MAX_KEYS + 1 → readable k i)
                ∧ l = (occupants k 0 (MAX_KEYS + 1)).*1
      | Err e => ∃ i, i ≤ MAX_KEYS + 1 ∧ record_at k i = Err e
      end.
Proof.
  unfold get_all_public_keys. rewrite run_bind, run_read.
  destruct (record_at k 0) as [pkent|e] eqn:Hrec.
  - destruct (get_all_public_keys_loop_run (MAX_KEYS + 1) 0 pkent [] (log (read_call 0) k))
      as (r & n & k' & Hrun & Hreads & Hn & Hr); [done |].
    exists r, (S n), k'. split; [exact Hrun |]. split; [by apply reads_step |].
    split; [lia |].
    destruct r as [l|e].
    + destruct Hr as (-> & Hreadable & ->). split; [lia |]. split.
      { intros i Hi. destruct (decide (i = 0)) as [->|]; [by exists pkent |].
        destruct (Hreadable i) as [r Hr]; [lia |]. by exists r. }
      rewrite (bool_decide_false (MAX_KEYS + 1 = 0)) by lia.
      rewrite (occupants_entries k (log (read_call 0) k)) by done.
      replace (MAX_KEYS + 1 - 1) with MAX_KEYS by lia.
      replace (MAX_KEYS + 1) with (S MAX_KEYS) by lia.
      rewrite (occupants_S k 0 MAX_KEYS pkent), fmap_app by exact Hrec.
      rewrite app_nil_l, Nat.add_0_l. reflexivity.
    + destruct Hr as (i & Hi & Hr). exists i. split; [lia |].
      by rewrite <- (record_at_entries k (log (read_call 0) k)).
  - exists (Err e), 1, (log (read_call 0) k). split; [done |].
    split; [apply reads_step, reads_refl |]. split; [lia |].
    exists 0. split; [lia | done].
Qed.

Lemma get_all_public_keys_readable (k : keyring) :
  (∀ i, i ≤ MAX_KEYS + 1 → readable k i) →
  ∃ k', get_all_public_keys k = Some (Ok (occupants k 0 (MAX_KEYS + 1)).*1, k')
        ∧ reads k 0 (MAX_KEYS + 2) k'.
Proof.
  intros Hreadable.
  destruct (get_all_public_keys_run k) as (r & n & k' & Hrun & Hreads & Hn & Hr).
  destruct r as [l|e].
  - destruct Hr as (-> & _ & ->). eauto.
  - destruct Hr as (i & Hi & Hr). destruct (Hreadable i Hi) as [r Hr']. congruence.
Qed.

(** *** Scans that return at the first hit *)

Lemma in_scan_S (k : keyring) (index fuel : nat) (pkent : option (G1Element * bytes))
    (i : nat) (r : G1Element * bytes) :
  in_scan k index (S fuel) pkent i r ↔
  (i = index ∧ pkent = Some r) ∨ (index < i ≤ MAX_KEYS ∧ record_at k i = Ok (Some r)).
Proof.
  clear token_bytes master_passphrase_is_valid getpass DEFAULT_PASSPHRASE_PROMPT.
  unfold in_scan. intuition lia.
Qed.

Lemma in_scan_next (k k1 : keyring) (index fuel : nat) (pkent' : option (G1Element * bytes))
    (i : nat) (r : G1Element * bytes) :
  entries k1 = entries k → index + S fuel = MAX_KEYS + 1 →
  record_at k (index + 1) = Ok pkent' →
  in_scan k1 (index + 1) fuel pkent' i r ↔
  index < i ≤ MAX_KEYS ∧ record_at k i = Ok (Some r).
Proof.
  intros He Hfuel Hrec. unfold in_scan. rewrite (record_at_entries k k1) by done. split.
  - intros [(Hf & -> & ->)|[Hi Hr]]; (split; [lia | done]).
  - intros [Hi Hr]. destruct (decide (i = index + 1)) as [->|].
    + left. repeat split; [lia |]. congruence.
    + right. split; [lia | done].
Qed.

Lemma in_scan_top (k k1 : keyring) (pkent : option (G1Element * bytes))
    (i : nat) (r : G1Element * bytes) :
  entries k1 = entries k → record_at k 0 = Ok pkent →
  in_scan k1 0 (MAX_KEYS + 1) pkent i r ↔ i ≤ MAX_KEYS ∧ record_at k i = Ok (Some r).
Proof.
  intros He Hrec. unfold in_scan. rewrite (record_at_entries k k1) by done. split.
  - intros [(Hf & -> & ->)|[Hi Hr]]; (split; [lia | done]).
  - intros [Hi Hr]. destruct (decide (i = 0)) as [->|].
    + left. repeat split; [lia |]. congruence.
    + right. split; [lia | done].
Qed.

Lemma find_loop_run {R : Type} (g : G1Element * bytes → result (option R))
    (fuel index : nat) (pkent : option (G1Element * bytes)) (k : keyring) :
  index + fuel = MAX_KEYS + 1 →
  ∃ r n k',
    find_loop g fuel index pkent k = Some (r, k')
    ∧ reads k (index + 1) n k' ∧ n ≤ fuel
    ∧ match r with
      | Ok (Some x) => ∃ i rec, in_scan k index fuel pkent i rec ∧ g rec = Ok (Some x)
      | Ok None => n = fuel ∧ ∀ i rec, in_scan k index fuel pkent i rec → g rec = Ok None
      | Err e => (∃ i, index < i ≤ MAX_KEYS + 1 ∧ record_at k i = Err e)
                 ∨ (∃ i rec, in_scan k index fuel pkent i rec ∧ g rec = Err e)
      end.
Proof.
  revert index pkent k. induction fuel as [|fuel IH]; intros index pkent k Hfuel.
  - cbn [find_loop]. rewrite bool_decide_false by lia.
    exists (Ok None), 0, k. split; [done |]. split; [apply reads_refl |]. split; [done |].
    split; [done |]. intros i rec [(? & _)|[? _]]; [done | lia].
  - cbn [find_loop]. rewrite bool_decide_true by lia. rewrite run_bind.
    assert (Hfound : ∃ found,
      (match pkent with Some rec => lift (g rec) | None => mret None end) k = Some (found, k)
      ∧ match found with
        | Ok (Some x) => ∃ rec, pkent = Some rec ∧ g rec = Ok (Some x)
        | Ok None => ∀ rec, pkent = Some rec → g rec = Ok None
        | Err e => ∃ rec, pkent = Some rec ∧ g rec = Err e
        end).
    { destruct pkent as [rec|].
      - exists (g rec). split; [done |].
        destruct (g rec) as [[x|]|e] eqn:Hg; [by exists rec | | by exists rec].
        intros rec' [= <-]. done.
      - exists (Ok None). split; [done |]. by intros rec. }
    destruct Hfound as (found & -> & Hfound).
    destruct found as [[x|]|e].
    + destruct Hfound as (rec & Hrec & Hg).
      exists (Ok (Some x)), 0, k. split; [done |]. split; [apply reads_refl |].
      split; [lia |]. exists index, rec. split; [|done]. apply in_scan_S. by left.
    + rewrite run_bind, run_read.
      destruct (record_at k (index + 1)) as [pkent'|e] eqn:Hrec'.
      * destruct (IH (index + 1) pkent' (log (read_call (index + 1)) k))
          as (r & n & k' & Hrun & Hreads & Hn & Hr); [lia |].
        exists r, (S n), k'. split; [exact Hrun |]. split; [by apply reads_step |].
        split; [lia |].
        destruct r as [[x|]|e].
        -- destruct Hr as (i & rec & Hscan & Hg). exists i, rec. split; [|done].
           apply in_scan_S. right. by eapply in_scan_next.
        -- destruct Hr as [-> Hr]. split; [done |].
           intros i rec [[-> Hp]|Hi]%in_scan_S; [by apply Hfound |].
           apply (Hr i). by eapply in_scan_next.
        -- destruct Hr as [(i & Hi & Hr)|(i & rec & Hscan & Hg)].
           ++ left. exists i. split; [lia |].
              by rewrite <- (record_at_entries k (log (read_call (index + 1)) k)).
           ++ right. exists i, rec. split; [|done].
              apply in_scan_S. right. by eapply in_scan_next.
      * exists (Err e), 1, (log (read_call (index + 1)) k). split; [done |].
        split; [apply reads_step, reads_refl |]. split; [lia |].
        left. exists (index + 1). split; [lia | done].
    + destruct Hfound as (rec & Hrec & Hg).
      exists (Err e), 0, k. split; [done |]. split; [apply reads_refl |].
      split; [lia |]. right. exists index, rec. split; [|done]. apply in_scan_S. by left.
Qed.

Lemma find_run {R : Type} (g : G1Element * bytes → result (option R)) (k : keyring) :
  ∃ r n k',
    (pkent ← _get_pk_and_entropy (_get_private_key_user 0);
     find_loop g (MAX_KEYS + 1) 0 pkent) k = Some (r, k')
    ∧ reads k 0 n k' ∧ n ≤ MAX_KEYS + 2
    ∧ match r with
      | Ok (Some x) => ∃ i rec, i ≤ MAX_KEYS ∧ record_at k i = Ok (Some rec) ∧ g rec = Ok (Some x)
      | Ok None => n = MAX_KEYS + 2
                   ∧ ∀ i rec, i ≤ MAX_KEYS → record_at k i = Ok (Some rec) → g rec = Ok None
      | Err e => (∃ i, i ≤ MAX_KEYS + 1 ∧ record_at k i = Err e)
                 ∨ (∃ i rec, i ≤ MAX_KEYS ∧ record_at k i = Ok (Some rec) ∧ g rec = Err e)
      end.
Proof.
  rewrite run_bind, run_read.
  destruct (record_at k 0) as [pkent|e] eqn:Hrec.
  - destruct (find_loop_run g (MAX_KEYS + 1) 0 pkent (log (read_call 0) k))
      as (r & n & k' & Hrun & Hreads & Hn & Hr); [lia |].
    exists r, (S n), k'. split; [exact Hrun |]. split; [by apply reads_step |].
    split; [lia |].
    destruct r as [[x|]|e].
    + destruct Hr as (i & rec & Hscan & Hg).
      apply (in_scan_top k) in Hscan as [Hi Hr]; [|done..]. by exists i, rec.
    + destruct Hr as [-> Hr]. split; [lia |]. intros i rec Hi Hr'.
      apply (Hr i). by apply (in_scan_top k).
    + destruct Hr as [(i & Hi & Hr)|(i & rec & Hscan & Hg)].
      * left. exists i. split; [lia |].
        by rewrite <- (record_at_entries k (log (read_call 0) k)).
      * right. apply (in_scan_top k) in Hscan as [Hi Hr]; [|done..]. by exists i, rec.
  - exists (Err e), 1, (log (read_call 0) k). split; [done |].
    split; [apply reads_step, reads_refl |]. split; [lia |].
    left. exists 0. split; [lia | done].
Qed.

(** The scan returns the hit of the first slot that has one, when the slots
    before it are readable and have none. *)
Lemma find_loop_hit {R : Type} (g : G1Element * bytes → result (option R))
    (fuel index i : nat) (pkent : option (G1Element * bytes)) (rec : G1Element * bytes)
    (x : R) (k : keyring) :
  index + fuel = MAX_KEYS + 1 → index ≤ i ≤ MAX_KEYS →
  (∀ rec', index < i → pkent = Some rec' → g rec' = Ok None) →
  (index = i → pkent = Some rec) →
  (∀ j, index < j < i → ∃ r, record_at k j = Ok r ∧ ∀ rec', r = Some rec' → g rec' = Ok None) →
  (index < i → record_at k i = Ok (Some rec)) →
  g rec = Ok (Some x) →
  ∃ k', find_loop g fuel index pkent k = Some (Ok (Some x), k')
        ∧ reads k (index + 1) (i - index) k'.
Proof.
  revert index pkent k. induction fuel as [|fuel IH];
    intros index pkent k Hfuel Hi Hskip Hhere Hbefore Hat Hg; [lia |].
  cbn [find_loop]. rewrite bool_decide_true by lia. rewrite run_bind.
  destruct (decide (index = i)) as [->|Hne].
  - rewrite (Hhere eq_refl). unfold lift. rewrite Hg.
    eexists. split; [done |]. replace (i - i) with 0 by lia. apply reads_refl.
  - assert (Hnone : (match pkent with Some rec => lift (g rec) | None => mret None end) k
                    = Some (Ok None, k)).
    { destruct pkent as [rec'|]; [|done]. unfold lift. by rewrite (Hskip rec') by (done || lia). }
    rewrite Hnone, run_bind, run_read.
    assert (∃ pkent', record_at k (index + 1) = Ok pkent'
                      ∧ (∀ rec', index + 1 < i → pkent' = Some rec' → g rec' = Ok None)
                      ∧ (index + 1 = i → pkent' = Some rec)) as (pkent' & Hrec' & Hskip' & Hhere').
    { destruct (decide (index + 1 = i)) as [<-|Hne'].
      - exists (Some rec). split; [apply Hat; lia |]. split; [intros; lia | done].
      - destruct (Hbefore (index + 1)) as (r & Hr & Hgr); [lia |].
        exists r. split; [done |]. split; [intros rec' _ ->; by apply Hgr | intros; lia]. }
    rewrite Hrec'.
    destruct (IH (index + 1) pkent' (log (read_call (index + 1)) k))
      as (k' & Hrun & Hreads); [lia | lia | done | done | | | done |].
    { intros j Hj. rewrite (record_at_entries k) by done. apply Hbefore. lia. }
    { intros Hlt. rewrite (record_at_entries k) by done. apply Hat. lia. }
    exists k'. split; [exact Hrun |].
    replace (i - index) with (S (i - (index + 1))) by lia. by apply reads_step.
Qed.

Lemma find_hit {R : Type} (g : G1Element * bytes → result (option R))
    (i : nat) (rec : G1Element * bytes) (x : R) (k : keyring) :
  i ≤ MAX_KEYS →
  (∀ j, j < i → ∃ r, record_at k j = Ok r ∧ ∀ rec', r = Some rec' → g rec' = Ok None) →
  record_at k i = Ok (Some rec) → g rec = Ok (Some x) →
  ∃ k', (pkent ← _get_pk_and_entropy (_get_private_key_user 0);
         find_loop g (MAX_KEYS + 1) 0 pkent) k = Some (Ok (Some x), k')
        ∧ reads k 0 (i + 1) k'.
Proof.
  intros Hi Hbefore Hat Hg. rewrite run_bind, run_read.
  assert (∃ pkent, record_at k 0 = Ok pkent
                   ∧ (∀ rec', 0 < i → pkent = Some rec' → g rec' = Ok None)
                   ∧ (0 = i → pkent = Some rec)) as (pkent & Hrec & Hskip & Hhere).
  { destruct (decide (0 = i)) as [<-|Hne].
    - exists (Some rec). split; [done |]. split; [intros; lia | done].
    - destruct (Hbefore 0) as (r & Hr & Hgr); [lia |].
      exists r. split; [done |]. split; [intros rec' _ ->; by apply Hgr | intros; lia]. }
  rewrite Hrec.
  destruct (find_loop_hit g (MAX_KEYS + 1) 0 i pkent rec x (log (read_call 0) k))
    as (k' & Hrun & Hreads); [lia | lia | done | done | | | done |].
  { intros j Hj. rewrite (record_at_entries k) by done. apply Hbefore. lia. }
  { intros Hlt. by rewrite (record_at_entries k) by done. }
  exists k'. split; [exact Hrun |].
  replace (i + 1) with (S (i - 0)) by lia. by apply reads_step.
Qed.

(** The three lookups are instances of it. *)
Lemma get_first_public_key_loop_find (fuel index : nat) (pkent : option (G1Element * bytes))
    (k : keyring) :
  get_first_public_key_loop fuel index pkent k
  = find_loop (λ rec, Ok (Some rec.1)) fuel index pkent k.
Proof.
  revert index pkent k. induction fuel as [|fuel IH]; intros index pkent k;
    cbn [get_first_public_key_loop find_loop]; case_bool_decide; try done.
  destruct pkent as [[pk ent]|]; [done |].
  rewrite !run_bind. cbn [mret M_ret]. rewrite run_bind, run_read.
  destruct (record_at k (index + 1)); [apply IH | done].
Qed.

Lemma get_first_private_key_loop_find (fuel index : nat) (pkent : option (G1Element * bytes))
    (passphrases : list string) (k : keyring) :
  get_first_private_key_loop fuel index pkent passphrases k
  = find_loop (λ rec, first_key_for_slot rec.1 rec.2 passphrases) fuel index pkent k.
Proof.
  revert index pkent k. induction fuel as [|fuel IH]; intros index pkent k;
    cbn [get_first_private_key_loop find_loop]; case_bool_decide; try done.
  rewrite !run_bind. destruct pkent as [[pk ent]|]; unfold lift; cbn [fst snd mret M_ret].
  - destruct (first_key_for_slot pk ent passphrases) as [[found|]|e]; try done.
    rewrite !run_bind, !run_read.
    destruct (record_at k (index + 1)); [apply IH | done].
  - rewrite !run_bind, !run_read.
    destruct (record_at k (index + 1)); [apply IH | done].
Qed.

Lemma get_private_key_by_fingerprint_loop_find (fuel index : nat)
    (pkent : option (G1Element * bytes)) (fingerprint : N) (passphrases : list string)
    (k : keyring) :
  get_private_key_by_fingerprint_loop fuel index pkent fingerprint passphrases k
  = find_loop (λ rec, key_by_fingerprint_for_slot rec.1 rec.2 fingerprint passphrases)
      fuel index pkent k.
Proof.
  revert index pkent k. induction fuel as [|fuel IH]; intros index pkent k;
    cbn [get_private_key_by_fingerprint_loop find_loop]; case_bool_decide; try done.
  rewrite !run_bind. destruct pkent as [[pk ent]|]; unfold lift; cbn [fst snd mret M_ret].
  - destruct (key_by_fingerprint_for_slot pk ent fingerprint passphrases) as [[found|]|e];
      try done.
    rewrite !run_bind, !run_read.
    destruct (record_at k (index + 1)); [apply IH | done].
  - rewrite !run_bind, !run_read.
    destruct (record_at k (index + 1)); [apply IH | done].
Qed.

(** *** The loops over the candidate passphrases *)

Lemma first_key_for_slot_run (pk : G1Element) (ent : bytes) (passphrases : list string) :
  match first_key_for_slot pk ent passphrases with
  | Ok (Some (key, ent')) =>
      ent' = ent ∧ get_g1 key = pk ∧ ∃ pp, pp ∈ passphrases ∧ regenerate ent pp = Ok key
  | Ok None =>
      ∀ pp, pp ∈ passphrases → ∃ key, regenerate ent pp = Ok key ∧ get_g1 key ≠ pk
  | Err e => ∃ pp, pp ∈ passphrases ∧ regenerate ent pp = Err e
  end.
Proof.
  induction passphrases as [|pp rest IH]; cbn [first_key_for_slot].
  - by intros pp ?%elem_of_nil.
  - destruct (regenerate ent pp) as [key|e] eqn:Hkey; cbn [mbind result_bind]; cycle 1.
    { exists pp. split; [apply list_elem_of_here | done]. }
    case_bool_decide as Hpk.
    + repeat split; [done |]. exists pp. split; [apply list_elem_of_here | done].
    + destruct (first_key_for_slot pk ent rest) as [[[key' ent']|]|e].
      * destruct IH as (-> & Hg & pp' & Hpp' & Hr). repeat split; [done |].
        exists pp'. split; [by apply list_elem_of_further | done].
      * intros pp' [->|Hpp']%elem_of_cons; [by exists key | by apply IH].
      * destruct IH as (pp' & Hpp' & Hr). exists pp'.
        split; [by apply list_elem_of_further | done].
Qed.

Lemma key_by_fingerprint_for_slot_run (pk : G1Element) (ent : bytes) (fingerprint : N)
    (passphrases : list string) :
  match key_by_fingerprint_for_slot pk ent fingerprint passphrases with
  | Ok (Some (key, ent')) =>
      ent' = ent ∧ get_fingerprint pk = fingerprint
      ∧ ∃ pp rest, passphrases = pp :: rest ∧ regenerate ent pp = Ok key
  | Ok None => passphrases = [] ∨ get_fingerprint pk ≠ fingerprint
  | Err e => ∃ pp, pp ∈ passphrases ∧ regenerate ent pp = Err e
  end.
Proof.
  induction passphrases as [|pp rest IH]; cbn [key_by_fingerprint_for_slot]; [by left |].
  destruct (regenerate ent pp) as [key|e] eqn:Hkey; cbn [mbind result_bind]; cycle 1.
  { exists pp. split; [apply list_elem_of_here | done]. }
  case_bool_decide as Hfp.
  - repeat split; [done |]. by exists pp, rest.
  - destruct (key_by_fingerprint_for_slot pk ent fingerprint rest) as [[[key' ent']|]|e].
    + by destruct IH as (_ & Hfp' & _).
    + by right.
    + destruct IH as (pp' & Hpp' & Hr). exists pp'.
      split; [by apply list_elem_of_further | done].
Qed.

Lemma all_keys_for_slot_run (pk : G1Element) (ent : bytes) (passphrases : list string)
    (acc : list (PrivateKey * bytes)) :
  match all_keys_for_slot pk ent passphrases acc with
  | Ok l =>
      ∃ l', l = acc ++ l'
            ∧ ∀ x, x ∈ l' ↔ x.2 = ent ∧ get_g1 x.1 = pk
                            ∧ ∃ pp, pp ∈ passphrases ∧ regenerate ent pp = Ok x.1
  | Err e => ∃ pp, pp ∈ passphrases ∧ regenerate ent pp = Err e
  end.
Proof.
  revert acc. induction passphrases as [|pp rest IH]; intros acc; cbn [all_keys_for_slot].
  - exists []. split; [by rewrite app_nil_r |]. intros x. split; [by intros ?%elem_of_nil |].
    by intros (_ & _ & pp & ?%elem_of_nil & _).
  - destruct (regenerate ent pp) as [key|e] eqn:Hkey; cbn [mbind result_bind]; cycle 1.
    { exists pp. split; [apply list_elem_of_here | done]. }
    case_bool_decide as Hpk.
    + specialize (IH (acc ++ [(key, ent)])).
      destruct (all_keys_for_slot pk ent rest (acc ++ [(key, ent)])) as [l|e].
      * destruct IH as (l' & -> & Hl'). exists ((key, ent) :: l').
        split; [by rewrite <- app_assoc |]. intros x. rewrite elem_of_cons, Hl'. split.
        -- intros [->|(He & Hg & pp' & Hpp' & Hr)].
           ++ repeat split; [done |]. exists pp. split; [apply list_elem_of_here | done].
           ++ repeat split; [done.. |]. exists pp'.
              split; [by apply list_elem_of_further | done].
        -- intros (He & Hg & pp' & [->|Hpp']%elem_of_cons & Hr).
           ++ left. destruct x as [key' ent']. simpl in *. congruence.
           ++ right. repeat split; [done.. |]. by exists pp'.
      * destruct IH as (pp' & Hpp' & Hr). exists pp'.
        split; [by apply list_elem_of_further | done].
    + specialize (IH acc).
      destruct (all_keys_for_slot pk ent rest acc) as [l|e].
      * destruct IH as (l' & -> & Hl'). exists l'. split; [done |].
        intros x. rewrite Hl'. split.
        -- intros (He & Hg & pp' & Hpp' & Hr). repeat split; [done.. |].
           exists pp'. split; [by apply list_elem_of_further | done].
        -- intros (He & Hg & pp' & [->|Hpp']%elem_of_cons & Hr).
           ++ exfalso. apply Hpk. congruence.
           ++ repeat split; [done.. |]. by exists pp'.
      * destruct IH as (pp' & Hpp' & Hr). exists pp'.
        split; [by apply list_elem_of_further | done].
Qed.

(** *** Enumerating the private keys *)

Lemma get_all_private_keys_loop_run (fuel index : nat) (pkent : option (G1Element * bytes))
    (passphrases : list string) (acc : list (PrivateKey * bytes)) (k : keyring) :
  index + fuel = MAX_KEYS + 1 →
  ∃ r n k',
    get_all_private_keys_loop fuel index pkent passphrases acc k = Some (r, k')
    ∧ reads k (index + 1) n k' ∧ n ≤ fuel
    ∧ match r with
      | Ok l =>
          n = fuel
          ∧ ∃ l', l = acc ++ l'
                  ∧ ∀ x, x ∈ l' ↔
                         ∃ i pk, in_scan k index fuel pkent i (pk, x.2) ∧ get_g1 x.1 = pk
                                 ∧ ∃ pp, pp ∈ passphrases ∧ regenerate x.2 pp = Ok x.1
      | Err e =>
          (∃ i, index < i ≤ MAX_KEYS + 1 ∧ record_at k i = Err e)
          ∨ (∃ i pk ent pp, in_scan k index fuel pkent i (pk, ent)
                            ∧ pp ∈ passphrases ∧ regenerate ent pp = Err e)
      end.
Proof.
  revert index pkent acc k. induction fuel as [|fuel IH]; intros index pkent acc k Hfuel.
  - cbn [get_all_private_keys_loop]. rewrite bool_decide_false by lia.
    exists (Ok acc), 0, k. split; [done |]. split; [apply reads_refl |]. split; [done |].
    split; [done |]. exists []. split; [by rewrite app_nil_r |].
    intros x. split; [by intros ?%elem_of_nil |].
    intros (i & pk & [(? & _)|[? _]] & _); [done | lia].
  - cbn [get_all_private_keys_loop]. rewrite bool_decide_true by lia. rewrite run_bind.
    assert (Hslot : ∃ res,
      (match pkent with
       | Some (pk, ent) => lift (all_keys_for_slot pk ent passphrases acc)
       | None => mret acc
       end) k = Some (res, k)
      ∧ match res with
        | Ok acc1 =>
            ∃ l1, acc1 = acc ++ l1
                  ∧ ∀ x, x ∈ l1 ↔
                         ∃ pk, pkent = Some (pk, x.2) ∧ get_g1 x.1 = pk
                               ∧ ∃ pp, pp ∈ passphrases ∧ regenerate x.2 pp = Ok x.1
        | Err e => ∃ pk ent pp, pkent = Some (pk, ent)
                                ∧ pp ∈ passphrases ∧ regenerate ent pp = Err e
        end).
    { destruct pkent as [[pk ent]|].
      - exists (all_keys_for_slot pk ent passphrases acc). split; [done |].
        pose proof (all_keys_for_slot_run pk ent passphrases acc) as Hrun.
        destruct (all_keys_for_slot pk ent passphrases acc) as [acc1|e].
        + destruct Hrun as (l1 & -> & Hl1). exists l1. split; [done |].
          intros x. rewrite Hl1. split.
          * intros (<- & Hg & Hpp). exists pk. split; [by destruct x |]. done.
          * intros (pk' & [= <- <-] & Hg & Hpp). done.
        + destruct Hrun as (pp & Hpp & Hr). by exists pk, ent, pp.
      - exists (Ok acc). split; [done |]. exists []. split; [by rewrite app_nil_r |].
        intros x. split; [by intros ?%elem_of_nil | by intros (pk & ? & _)]. }
    destruct Hslot as (res & -> & Hres).
    destruct res as [acc1|e]; cycle 1.
    { destruct Hres as (pk & ent & pp & -> & Hpp & Hr).
      exists (Err e), 0, k. split; [done |]. split; [apply reads_refl |]. split; [lia |].
      right. exists index, pk, ent, pp. split; [|done]. apply in_scan_S. by left. }
    destruct Hres as (l1 & -> & Hl1).
    rewrite run_bind, run_read.
    destruct (record_at k (index + 1)) as [pkent'|e] eqn:Hrec'; cycle 1.
    { exists (Err e), 1, (log (read_call (index + 1)) k). split; [done |].
      split; [apply reads_step, reads_refl |]. split; [lia |].
      left. exists (index + 1). split; [lia | done]. }
    destruct (IH (index + 1) pkent' (acc ++ l1) (log (read_call (index + 1)) k))
      as (r & n & k' & Hrun & Hreads & Hn & Hr); [lia |].
    exists r, (S n), k'. split; [exact Hrun |]. split; [by apply reads_step |].
    split; [lia |].
    destruct r as [l|e].
    + destruct Hr as (-> & l2 & -> & Hl2). split; [done |].
      exists (l1 ++ l2). split; [by rewrite app_assoc |].
      intros x. rewrite elem_of_app, Hl1, Hl2. split.
      * intros [(pk & Hp & Hg & Hpp)|(i & pk & Hscan & Hg & Hpp)].
        -- exists index, pk. split; [|done]. apply in_scan_S. by left.
        -- exists i, pk. split; [|done]. apply in_scan_S. right. by eapply in_scan_next.
      * intros (i & pk & [[-> Hp]|Hscan]%in_scan_S & Hg & Hpp).
        -- left. by exists pk.
        -- right. exists i, pk. split; [|done]. by eapply in_scan_next.
    + destruct Hr as [(i & Hi & Hr)|(i & pk & ent & pp & Hscan & Hpp & Hr)].
      * left. exists i. split; [lia |].
        by rewrite <- (record_at_entries k (log (read_call (index + 1)) k)).
      * right. exists i, pk, ent, pp. split; [|done].
        apply in_scan_S. right. by eapply in_scan_next.
Qed.

Lemma get_all_private_keys_run (passphrases : list string) (k : keyring) :
  ∃ r n k',
    get_all_private_keys passphrases k = Some (r, k') ∧ reads k 0 n k' ∧ n ≤ MAX_KEYS + 2
    ∧ match r with
      | Ok l =>
          n = MAX_KEYS + 2
          ∧ ∀ x, x ∈ l ↔
                 ∃ i pk, i ≤ MAX_KEYS ∧ record_at k i = Ok (Some (pk, x.2))
                         ∧ get_g1 x.1 = pk
                         ∧ ∃ pp, pp ∈ passphrases ∧ regenerate x.2 pp = Ok x.1
      | Err e =>
          (∃ i, i ≤ MAX_KEYS + 1 ∧ record_at k i = Err e)
          ∨ (∃ i pk ent pp, i ≤ MAX_KEYS ∧ record_at k i = Ok (Some (pk, ent))
                            ∧ pp ∈ passphrases ∧ regenerate ent pp = Err e)
      end.
Proof.
  unfold get_all_private_keys. rewrite run_bind, run_read.
  destruct (record_at k 0) as [pkent|e] eqn:Hrec; cycle 1.
  { exists (Err e), 1, (log (read_call 0) k). split; [done |].
    split; [apply reads_step, reads_refl |]. split; [lia |].
    left. exists 0. split; [lia | done]. }
  destruct (get_all_private_keys_loop_run (MAX_KEYS + 1) 0 pkent passphrases []
              (log (read_call 0) k)) as (r & n & k' & Hrun & Hreads & Hn & Hr); [lia |].
  exists r, (S n), k'. split; [exact Hrun |]. split; [by apply reads_step |].
  split; [lia |].
  destruct r as [l|e].
  - destruct Hr as (-> & l' & -> & Hl'). split; [lia |].
    intros x. rewrite app_nil_l, Hl'. split.
    + intros (i & pk & Hscan & Hg & Hpp).
      apply (in_scan_top k) in Hscan as [Hi Hr]; [|done..]. by exists i, pk.
    + intros (i & pk & Hi & Hr & Hg & Hpp). exists i, pk. split; [|done].
      by apply (in_scan_top k).
  - destruct Hr as [(i & Hi & Hr)|(i & pk & ent & pp & Hscan & Hpp & Hr)].
    + left. exists i. split; [lia |].
      by rewrite <- (record_at_entries k (log (read_call 0) k)).
    + right. apply (in_scan_top k) in Hscan as [Hi Hr']; [|done..].
      by exists i, pk, ent, pp.
Qed.

(** *** Writing and deleting slots *)

Lemma record_at_slot (k k' : keyring) (i : nat) :
  slot k' i = slot k i → record_at k' i = record_at k i.
Proof. unfold record_at. by intros ->. Qed.

Lemma slot_log (c : call) (k : keyring) (i : nat) : slot (log c k) i = slot k i.
Proof. done. Qed.

Lemma slot_delete (k : keyring) (c : list call) (i j : nat) :
  slot (Keyring (delete (_get_service, _get_private_key_user i) (entries k)) c) j
  = if decide (j = i) then None else slot k j.
Proof.
  unfold slot. cbn [entries]. destruct (decide (j = i)) as [->|Hne].
  - apply lookup_delete_eq.
  - apply lookup_delete_ne. intros [= H]. by apply _get_private_key_user_inj in H.
Qed.

Lemma slot_insert (k : keyring) (c : list call) (i j : nat) (v : string) :
  slot (Keyring (<[(_get_service, _get_private_key_user i) := v]> (entries k)) c) j
  = if decide (j = i) then Some v else slot k j.
Proof.
  unfold slot. cbn [entries]. destruct (decide (j = i)) as [->|Hne].
  - apply lookup_insert_eq.
  - apply lookup_insert_ne. intros [= H]. by apply _get_private_key_user_inj in H.
Qed.

Lemma store_from_lookup (a j : nat) (records : list (option string)) :
  store_from a records !! (_get_service, _get_private_key_user j)
  = if decide (a ≤ j) then mjoin (records !! (j - a)) else None.
Proof.
  revert a. induction records as [|r records IH]; intros a; cbn [store_from].
  - rewrite lookup_empty. by destruct (decide (a ≤ j)).
  - assert (Hrest : store_from (S a) records !! (_get_service, _get_private_key_user j)
                    = if decide (a ≤ j)
                      then if decide (j = a) then None else mjoin ((r :: records) !! (j - a))
                      else None).
    { rewrite IH. destruct (decide (a ≤ j)), (decide (S a ≤ j)), (decide (j = a));
        try lia; try done.
      replace (j - a) with (S (j - S a)) by lia. done. }
    destruct r as [r|].
    + destruct (decide (j = a)) as [->|Hne].
      * rewrite lookup_insert_eq, decide_True, Nat.sub_diag by lia. done.
      * rewrite lookup_insert_ne, Hrest.
        -- by destruct (decide (a ≤ j)).
        -- intros [= H]. apply _get_private_key_user_inj in H. lia.
    + rewrite Hrest. destruct (decide (a ≤ j)); [|done].
      destruct (decide (j = a)) as [->|]; [|done]. by rewrite Nat.sub_diag.
Qed.

Lemma slot_keyring_of (records : list (option string)) (j : nat) :
  slot (keyring_of records) j = mjoin (records !! j).
Proof.
  unfold slot, keyring_of. cbn [entries]. rewrite store_from_lookup, decide_True by lia.
  by rewrite Nat.sub_0_r.
Qed.

Lemma record_at_keyring_of (records : list (option string)) (j : nat) :
  record_at (keyring_of records) j = decode_slot (mjoin (records !! j)).
Proof. unfold record_at. by rewrite slot_keyring_of. Qed.

(** A keyring made of strings that decode is readable at every slot. *)
Lemma keyring_of_readable (records : list (option string)) :
  Forall (λ r, ∃ x, decode_slot r = Ok x) records → ∀ j, readable (keyring_of records) j.
Proof.
  intros Hall j. unfold readable. rewrite record_at_keyring_of.
  destruct (records !! j) as [r|] eqn:Hj; cbn [mjoin option_join option_bind mbind].
  - by apply (Forall_lookup_1 _ _ _ _ Hall Hj).
  - by exists None.
Qed.

Lemma keyring_of_well_formed (records : list (option string)) :
  Forall (λ r, ∃ x, decode_slot r = Ok x
                    ∧ ∀ pk ent, x = Some (pk, ent) → length ent ∈ [16; 20; 24; 28; 32])
         records →
  well_formed (keyring_of records).
Proof.
  intros Hall j _. rewrite record_at_keyring_of.
  destruct (records !! j) as [r|] eqn:Hj; cbn [mjoin option_join option_bind mbind].
  - by apply (Forall_lookup_1 _ _ _ _ Hall Hj).
  - by exists None.
Qed.

Lemma occupied_slot (k : keyring) (i : nat) : occupied k i → is_Some (slot k i).
Proof.
  intros [r Hr]. unfold record_at, decode_slot in Hr. by destruct (slot k i); [eexists |].
Qed.

Lemma record_at_None (k : keyring) (i : nat) : slot k i = None → record_at k i = Ok None.
Proof. unfold record_at. by intros ->. Qed.

(** Deleting slot [i]: it is empty afterwards, whether it was there or not
    and whether the keyring raised or not. *)
Lemma delete_password_run (i : nat) (k : keyring) :
  ∃ r k', delete_password _get_service (_get_private_key_user i) k = Some (r, k')
          ∧ (is_Some (slot k i) → r = Ok ())
          ∧ ∀ j, slot k' j = if decide (j = i) then None else slot k j.
Proof.
  unfold delete_password. fold (slot k i).
  destruct (slot k i) as [v|] eqn:Hslot.
  - eexists _, _. split; [done |]. split; [done |]. intros j. apply slot_delete.
  - destruct delete_raises; eexists _, _; (split; [done |]); (split; [by intros [? ?] |]);
      intros j; rewrite slot_log; by destruct (decide (j = i)) as [->|].
Qed.

(** *** Deleting every key *)

Lemma delete_all_keys_try_run (index : nat) (delete_exception : bool)
    (pkent : option (G1Element * bytes)) (k : keyring) :
  ∃ pkent1 de1 k',
    delete_all_keys_try index delete_exception pkent k = Some (Ok (pkent1, de1), k')
    ∧ match record_at k index with
      | Ok r => pkent1 = r ∧ ∀ j, slot k' j = if decide (j = index) then None else slot k j
      | Err _ => pkent1 = pkent ∧ de1 = true ∧ ∀ j, slot k' j = slot k j
      end.
Proof.
  unfold delete_all_keys_try, try_except. rewrite run_bind, run_read.
  destruct (record_at k index) as [r|e] eqn:Hrec.
  - destruct (delete_password_run index (log (read_call index) k)) as (res & k' & Hrun & _ & Hk').
    rewrite run_bind, Hrun.
    destruct res as [[]|e]; eexists _, _, _; (split; [done |]); (split; [done |]);
      intros j; by rewrite Hk', slot_log.
  - eexists _, _, _. split; [done |]. repeat split; intros j; by rewrite slot_log.
Qed.

Lemma delete_all_keys_loop_run (t fuel index : nat) (delete_exception : bool)
    (pkent : option (G1Element * bytes)) (k : keyring) :
  index ≤ t → MAX_KEYS < t → t - index < fuel →
  (∀ i, index ≤ i ≤ MAX_KEYS + 1 → readable k i) →
  ¬ occupied k t →
  ∃ k', delete_all_keys_loop fuel index delete_exception pkent k = Some (Ok (), k')
        ∧ (∀ i, index ≤ i ≤ MAX_KEYS + 1 → slot k' i = None)
        ∧ (∀ i, i < index → slot k' i = slot k i).
Proof.
  revert index delete_exception pkent k.
  induction fuel as [|fuel IH]; intros index de pkent k Hit Ht Hfuel Hreadable Hfree; [lia |].
  cbn [delete_all_keys_loop]. rewrite run_bind.
  destruct (delete_all_keys_try_run index de pkent k) as (pkent1 & de1 & k1 & -> & Htry).
  (* the slot at [index] is empty afterwards when it is one of 0..MAX_KEYS+1 *)
  assert (Hhere : index ≤ MAX_KEYS + 1 → slot k1 index = None).
  { intros Hle. destruct (Hreadable index) as [r Hr]; [lia |]. rewrite Hr in Htry.
    destruct Htry as [_ Hk1]. rewrite Hk1. by rewrite decide_True. }
  assert (Hother : ∀ j, j ≠ index → slot k1 j = slot k j).
  { intros j Hj. destruct (record_at k index); destruct Htry as (_ & Hk1);
      [by rewrite Hk1, decide_False | by apply Hk1]. }
  destruct ((is_None pkent1 || de1) && bool_decide (MAX_KEYS < index)) eqn:Hbreak.
  - apply andb_prop in Hbreak as [_ Hlt%bool_decide_eq_true].
    exists k1. split; [done |]. split.
    + intros i Hi. assert (i = index) as -> by lia. apply Hhere. lia.
    + intros i Hi. apply Hother. lia.
  - assert (Hne : index ≠ t).
    { intros ->. rewrite bool_decide_true in Hbreak by done.
      rewrite andb_true_r in Hbreak. apply orb_false_elim in Hbreak as [Hp Hd].
      destruct (record_at k t) as [[r|]|e] eqn:Hrec.
      - apply Hfree. by exists r.
      - destruct Htry as [-> _]. done.
      - destruct Htry as (_ & -> & _). done. }
    destruct (IH (index + 1) de1 pkent1 k1) as (k' & Hrun & Hnone & Hframe); [lia.. | | |].
    { intros i Hi. destruct (Hreadable i) as [r Hr]; [lia |]. exists r.
      rewrite <- Hr. apply record_at_slot, Hother. lia. }
    { intros [r Hr]. apply Hfree. exists r. rewrite <- Hr. symmetry.
      apply record_at_slot, Hother. lia. }
    exists k'. split; [exact Hrun |]. split.
    + intros i Hi. destruct (decide (i = index)) as [->|].
      * rewrite Hframe by lia. apply Hhere. lia.
      * apply Hnone. lia.
    + intros i Hi. rewrite Hframe by lia. apply Hother. lia.
Qed.

Lemma delete_all_keys_run (k : keyring) :
  (∀ i, i ≤ MAX_KEYS + 1 → readable k i) →
  ∃ fuel0, ∀ fuel, fuel0 ≤ fuel →
    ∃ k', delete_all_keys fuel k = Some (Ok (), k')
          ∧ ∀ i, i ≤ MAX_KEYS + 1 → slot k' i = None.
Proof.
  intros Hreadable.
  destruct (first_unoccupied k (MAX_KEYS + 1)) as (t & Ht & Hfree & _).
  exists (t + 1). intros fuel Hfuel. unfold delete_all_keys. rewrite run_bind.
  destruct (delete_all_keys_loop_run t fuel 0 false None k) as (k1 & -> & Hnone1 & _);
    [lia | lia | lia | intros; apply Hreadable; lia | done |].
  destruct (delete_all_keys_loop_run (MAX_KEYS + 1) fuel 0 true None k1)
    as (k2 & -> & Hnone2 & _); [lia | lia | lia | | |].
  - intros i Hi. exists None. apply record_at_None, Hnone1. lia.
  - intros [r Hr]. rewrite record_at_None in Hr by (apply Hnone1; lia). done.
  - exists k2. split; [done |]. intros i Hi. apply Hnone2. lia.
Qed.

(** *** Deleting by fingerprint *)

Lemma delete_key_by_fingerprint_loop_run (fuel index : nat)
    (pkent : option (G1Element * bytes)) (fingerprint : N) (k : keyring) :
  index + fuel = MAX_KEYS + 1 →
  (fuel ≠ 0 → record_at k index = Ok pkent) →
  (∀ i, index < i ≤ MAX_KEYS + 1 → readable k i) →
  ∃ k', delete_key_by_fingerprint_loop fuel index pkent fingerprint k = Some (Ok (), k')
        ∧ ∀ i, slot k' i =
               if bool_decide (index ≤ i ≤ MAX_KEYS) && has_fingerprint fingerprint (record_at k i)
               then None else slot k i.
Proof.
  revert index pkent k. induction fuel as [|fuel IH]; intros index pkent k Hfuel Hrec Hreadable.
  - cbn [delete_key_by_fingerprint_loop]. rewrite bool_decide_false by lia.
    exists k. split; [done |]. intros i. by rewrite bool_decide_false by lia.
  - cbn [delete_key_by_fingerprint_loop]. rewrite bool_decide_true by lia. rewrite run_bind.
    specialize (Hrec ltac:(done)).
    assert (Hfirst : ∃ k1,
      (match pkent with
       | Some (pk, _) =>
           if bool_decide (get_fingerprint pk = fingerprint)
           then delete_password _get_service (_get_private_key_user index)
           else mret ()
       | None => mret ()
       end) k = Some (Ok (), k1)
      ∧ ∀ j, slot k1 j = if bool_decide (j = index) && has_fingerprint fingerprint (record_at k j)
                         then None else slot k j).
    { destruct pkent as [[pk ent]|]; cycle 1.
      { exists k. split; [done |]. intros j. case_bool_decide as Hj; [|done].
        subst j. by rewrite Hrec. }
      case_bool_decide as Hfp; cycle 1.
      { exists k. split; [done |]. intros j. case_bool_decide as Hj; [|done].
        subst j. rewrite Hrec. cbn [has_fingerprint]. by rewrite bool_decide_false. }
      destruct (delete_password_run index k) as (r & k1 & Hrun & Hr & Hk1).
      rewrite Hr in Hrun by (apply occupied_slot; by eexists).
      exists k1. split; [done |]. intros j. rewrite Hk1.
      destruct (decide (j = index)) as [->|Hne].
      - rewrite bool_decide_true by done. rewrite Hrec. cbn [has_fingerprint].
        by rewrite bool_decide_true.
      - by rewrite bool_decide_false. }
    destruct Hfirst as (k1 & -> & Hk1).
    assert (Hsame : ∀ j, j ≠ index → record_at k1 j = record_at k j).
    { intros j Hj. apply record_at_slot. rewrite Hk1. by rewrite bool_decide_false. }
    rewrite run_bind, run_read.
    destruct (Hreadable (index + 1)) as [pkent' Hrec']; [lia |].
    rewrite Hsame, Hrec' by lia.
    destruct (IH (index + 1) pkent' (log (read_call (index + 1)) k1)) as (k' & Hrun & Hk');
      [lia | | |].
    { intros _. rewrite (record_at_entries k1) by done. by rewrite Hsame by lia. }
    { intros i Hi. destruct (Hreadable i) as [r Hr]; [lia |]. exists r.
      rewrite (record_at_entries k1) by done. by rewrite Hsame by lia. }
    exists k'. split; [exact Hrun |]. intros i. rewrite Hk', slot_log, Hk1.
    destruct (decide (i = index)) as [->|Hne].
    + rewrite (bool_decide_false (index + 1 ≤ index ≤ MAX_KEYS)) by lia.
      rewrite (bool_decide_true (index = index)) by done.
      by rewrite (bool_decide_true (index ≤ index ≤ MAX_KEYS)) by lia.
    + rewrite (bool_decide_false (i = index)) by done. cbn [andb].
      rewrite (record_at_entries k1 (log _ k1)) by done. rewrite Hsame by done.
      destruct (decide (index + 1 ≤ i ≤ MAX_KEYS)).
      * by rewrite !bool_decide_true by lia.
      * by rewrite !bool_decide_false by lia.
Qed.

Lemma delete_key_by_fingerprint_run (fingerprint : N) (k : keyring) :
  (∀ i, i ≤ MAX_KEYS + 1 → readable k i) →
  ∃ k', delete_key_by_fingerprint fingerprint k = Some (Ok (), k')
        ∧ ∀ i, slot k' i =
               if bool_decide (i ≤ MAX_KEYS) && has_fingerprint fingerprint (record_at k i)
               then None else slot k i.
Proof.
  intros Hreadable. unfold delete_key_by_fingerprint. rewrite run_bind, run_read.
  destruct (Hreadable 0) as [pkent Hrec]; [lia |]. rewrite Hrec.
  destruct (delete_key_by_fingerprint_loop_run (MAX_KEYS + 1) 0 pkent fingerprint
              (log (read_call 0) k)) as (k' & Hrun & Hk'); [lia | done | |].
  { intros i Hi. apply Hreadable. lia. }
  exists k'. split; [exact Hrun |]. intros i. rewrite Hk', slot_log.
  rewrite (record_at_entries k (log _ k)) by done.
  destruct (decide (i ≤ MAX_KEYS)).
  - by rewrite !bool_decide_true by lia.
  - by rewrite !bool_decide_false by lia.
Qed.

(** *** Seed derivation *)

Lemma mnemonic_to_seed_derive (mnemonic passphrase : string) :
  pbkdf2_ok → mnemonic_to_seed mnemonic passphrase = Ok (derive mnemonic passphrase).
Proof.
  intros [Hdefault Hlen]. unfold mnemonic_to_seed, derive.
  rewrite Hdefault. by rewrite bool_decide_true by apply Hlen.
Qed.

(** *** Adding a key *)

Lemma decode_slot_blob (pk : G1Element) (entropy : bytes) :
  bls_ok → entropy ≠ [] →
  decode_slot (Some (hex (G1Element_to_bytes pk) +:+ hex entropy)) = Ok (Some (pk, entropy)).
Proof.
  intros [Hsize Hrt] Hne. unfold decode_slot. rewrite <- hex_app.
  rewrite bool_decide_false; cycle 1.
  { rewrite hex_length, length_app. destruct entropy; [done |]. simpl. lia. }
  rewrite bytes_fromhex_hex. cbn [mbind result_bind].
  rewrite take_app_length', drop_app_length' by (symmetry; apply Hsize). by rewrite Hrt.
Qed.

Lemma add_private_key_run (fuel i : nat) (mnemonic passphrase : string) (entropy : bytes)
    (k : keyring) :
  pbkdf2_ok → bytes_from_mnemonic mnemonic = Ok entropy →
  (∀ j, j < i → occupied k j) → record_at k i = Ok None → i < fuel →
  (∀ j, j ≤ MAX_KEYS + 1 → readable k j) →
  ∃ k',
    add_private_key fuel mnemonic passphrase k = Some (Ok (key_of mnemonic passphrase), k')
    ∧ if bool_decide (get_fingerprint (get_g1 (key_of mnemonic passphrase))
                        ∈ map get_fingerprint (occupants k 0 (MAX_KEYS + 1)).*1)
      then entries k' = entries k
           ∧ calls k' = rev (map read_call (seq 0 (MAX_KEYS + 2)))
                        ++ rev (map read_call (seq 0 (i + 1))) ++ calls k
      else entries k' = <[(_get_service, _get_private_key_user i)
                           := hex (G1Element_to_bytes (get_g1 (key_of mnemonic passphrase)))
                              +:+ hex entropy]> (entries k)
           ∧ calls k' = SetPassword _get_service (_get_private_key_user i)
                          (hex (G1Element_to_bytes (get_g1 (key_of mnemonic passphrase)))
                           +:+ hex entropy)
                        :: rev (map read_call (seq 0 (MAX_KEYS + 2)))
                        ++ rev (map read_call (seq 0 (i + 1))) ++ calls k.
Proof.
  intros Hkdf Hentropy Hocc Hfree Hfuel Hreadable.
  unfold add_private_key, key_of. rewrite run_bind. unfold lift at 1.
  rewrite (mnemonic_to_seed_derive _ _ Hkdf). rewrite run_bind. unfold lift at 1.
  rewrite Hentropy. rewrite run_bind. unfold _get_free_private_key_index.
  destruct (free_index_from_run fuel 0 i k) as (k1 & -> & Hreads1);
    [lia | lia | intros; apply Hocc; lia | done |].
  replace (i - 0 + 1) with (i + 1) in Hreads1 by lia.
  rewrite run_bind.
  destruct (get_all_public_keys_readable k1) as (k2 & -> & Hreads2).
  { intros j Hj. destruct (Hreadable j Hj) as [r Hr]. exists r.
    by rewrite (reads_record_at k k1 0 (i + 1)). }
  rewrite (occupants_entries k k1) by apply Hreads1.
  destruct Hreads1 as [He1 Hc1]. destruct Hreads2 as [He2 Hc2].
  case_bool_decide as Hdup.
  - eexists. split; [done |]. split; [congruence |]. by rewrite Hc2, Hc1.
  - rewrite run_bind. eexists. split; [done |]. cbn [entries calls].
    split; [congruence |]. by rewrite Hc2, Hc1.
Qed.

(** *** The claims *)


(** The sibling lookups do confirm the passphrase: a key they return
    regenerates the public key stored in the slot it comes from. *)
Lemma get_first_private_key_run (passphrases : list string) (k : keyring) :
  ∃ r n k',
    get_first_private_key passphrases k = Some (r, k') ∧ reads k 0 n k' ∧ n ≤ MAX_KEYS + 2
    ∧ ∀ key ent, r = Ok (Some (key, ent)) →
        ∃ i pk pp, i ≤ MAX_KEYS ∧ record_at k i = Ok (Some (pk, ent))
                   ∧ pp ∈ passphrases ∧ regenerate ent pp = Ok key ∧ get_g1 key = pk.
Proof.
  unfold get_first_private_key.
  destruct (find_run (λ rec, first_key_for_slot rec.1 rec.2 passphrases) k)
    as (r & n & k' & Hrun & Hreads & Hn & Hr).
  exists r, n, k'. split.
  { rewrite <- Hrun, !run_bind, run_read. destruct (record_at k 0); [|done].
    apply get_first_private_key_loop_find. }
  split; [done |]. split; [done |]. intros key ent ->.
  destruct Hr as (i & [pk ent'] & Hi & Hrec & Hg). cbn [fst snd] in Hg.
  pose proof (first_key_for_slot_run pk ent' passphrases) as Hslot. rewrite Hg in Hslot.
  destruct Hslot as (-> & Hpk & pp & Hpp & Hkey). by exists i, pk, pp.
Qed.

Lemma get_private_key_by_fingerprint_run (fingerprint : N) (passphrases : list string)
    (k : keyring) :
  ∃ r n k',
    get_private_key_by_fingerprint fingerprint passphrases k = Some (r, k')
    ∧ reads k 0 n k' ∧ n ≤ MAX_KEYS + 2
    ∧ ∀ key ent, r = Ok (Some (key, ent)) →
        ∃ i pk pp rest, i ≤ MAX_KEYS ∧ record_at k i = Ok (Some (pk, ent))
                        ∧ get_fingerprint pk = fingerprint
                        ∧ passphrases = pp :: rest ∧ regenerate ent pp = Ok key.
Proof.
  unfold get_private_key_by_fingerprint.
  destruct (find_run (λ rec, key_by_fingerprint_for_slot rec.1 rec.2 fingerprint passphrases) k)
    as (r & n & k' & Hrun & Hreads & Hn & Hr).
  exists r, n, k'. split.
  { rewrite <- Hrun, !run_bind, run_read. destruct (record_at k 0); [|done].
    apply get_private_key_by_fingerprint_loop_find. }
  split; [done |]. split; [done |]. intros key ent ->.
  destruct Hr as (i & [pk ent'] & Hi & Hrec & Hg). cbn [fst snd] in Hg.
  pose proof (key_by_fingerprint_for_slot_run pk ent' fingerprint passphrases) as Hslot.
  rewrite Hg in Hslot.
  destruct Hslot as (-> & Hpk & pp & rest & Hpp & Hkey). by exists i, pk, pp, rest.
Qed.

Lemma get_first_public_key_run (k : keyring) :
  ∃ r n k',
    get_first_public_key k = Some (r, k') ∧ reads k 0 n k' ∧ n ≤ MAX_KEYS + 2
    ∧ ∀ pk, r = Ok (Some pk) →
        ∃ i ent, i ≤ MAX_KEYS ∧ record_at k i = Ok (Some (pk, ent)).
Proof.
  unfold get_first_public_key.
  destruct (find_run (λ rec : G1Element * bytes, Ok (Some rec.1)) k)
    as (r & n & k' & Hrun & Hreads & Hn & Hr).
  exists r, n, k'. split.
  { rewrite <- Hrun, !run_bind, run_read. destruct (record_at k 0); [|done].
    apply get_first_public_key_loop_find. }
  split; [done |]. split; [done |]. intros pk ->.
  destruct Hr as (i & [pk' ent] & Hi & Hrec & [= ->]). by exists i, ent.
Qed.

(** C2.  [get_private_key_by_fingerprint] does not confirm the passphrase:
    when the slot's stored public key has the fingerprint asked for, the key
    regenerated from the first candidate passphrase is returned, whatever
    public key it has. *)
Theorem C2_fingerprint_lookup_returns_first_candidate (k : keyring) (pk : G1Element)
    (ent : bytes) (pp : string) (rest : list string) (key : PrivateKey) :
  record_at k 0 = Ok (Some (pk, ent)) → regenerate ent pp = Ok key →
  ∃ k', get_private_key_by_fingerprint (get_fingerprint pk) (pp :: rest) k
        = Some (Ok (Some (key, ent)), k').
Proof.
  intros Hrec Hkey.
  destruct (find_hit (λ rec, key_by_fingerprint_for_slot rec.1 rec.2 (get_fingerprint pk)
                               (pp :: rest)) 0 (pk, ent) (key, ent) k)
    as (k' & Hrun & _); [lia | intros; lia | done | |].
  { cbn [fst snd key_by_fingerprint_for_slot]. rewrite Hkey. cbn [mbind result_bind].
    by rewrite bool_decide_true. }
  exists k'. rewrite <- Hrun. unfold get_private_key_by_fingerprint.
  rewrite !run_bind, run_read, Hrec. apply get_private_key_by_fingerprint_loop_find.
Qed.

(** C3.  Every enumeration and lookup ends, only reads the keyring, at the
    slots 0, 1, ... in order, and makes at most [MAX_KEYS + 2] reads (the
    last one, of slot [MAX_KEYS + 1], is made and then dropped); a full
    enumeration that succeeds makes exactly that many.  What is returned comes
    from a slot of index at most [MAX_KEYS]. *)
Theorem C3_bounded_scan (k : keyring) :
  (∃ r n k', get_all_public_keys k = Some (r, k') ∧ reads k 0 n k' ∧ n ≤ MAX_KEYS + 2
     ∧ ∀ l, r = Ok l →
         n = MAX_KEYS + 2
         ∧ ∀ pk, pk ∈ l → ∃ i ent, i ≤ MAX_KEYS ∧ record_at k i = Ok (Some (pk, ent)))
  ∧ (∃ r n k', get_first_public_key k = Some (r, k') ∧ reads k 0 n k' ∧ n ≤ MAX_KEYS + 2
       ∧ ∀ pk, r = Ok (Some pk) →
           ∃ i ent, i ≤ MAX_KEYS ∧ record_at k i = Ok (Some (pk, ent)))
  ∧ (∀ passphrases,
       ∃ r n k', get_all_private_keys passphrases k = Some (r, k')
         ∧ reads k 0 n k' ∧ n ≤ MAX_KEYS + 2
         ∧ ∀ l, r = Ok l →
             n = MAX_KEYS + 2
             ∧ ∀ key ent, (key, ent) ∈ l →
                 ∃ i pk, i ≤ MAX_KEYS ∧ record_at k i = Ok (Some (pk, ent)))
  ∧ (∀ passphrases,
       ∃ r n k', get_first_private_key passphrases k = Some (r, k')
         ∧ reads k 0 n k' ∧ n ≤ MAX_KEYS + 2
         ∧ ∀ key ent, r = Ok (Some (key, ent)) →
             ∃ i pk, i ≤ MAX_KEYS ∧ record_at k i = Ok (Some (pk, ent)))
  ∧ (∀ fingerprint passphrases,
       ∃ r n k', get_private_key_by_fingerprint fingerprint passphrases k = Some (r, k')
         ∧ reads k 0 n k' ∧ n ≤ MAX_KEYS + 2
         ∧ ∀ key ent, r = Ok (Some (key, ent)) →
             ∃ i pk, i ≤ MAX_KEYS ∧ record_at k i = Ok (Some (pk, ent))).
Proof.
  split; [|split; [|split; [|split]]].
  - destruct (get_all_public_keys_run k) as (r & n & k' & Hrun & Hreads & Hn & Hr).
    exists r, n, k'. split; [exact Hrun |]. split; [exact Hreads |]. split; [exact Hn |]. intros l ->.
    destruct Hr as (-> & _ & ->). split; [done |]. intros pk Hpk.
    apply list_elem_of_fmap in Hpk as ([pk' ent] & -> & Hin).
    apply elem_of_occupants in Hin as (i & Hi & Hrec). exists i, ent. split; [lia | done].
  - apply get_first_public_key_run.
  - intros passphrases.
    destruct (get_all_private_keys_run passphrases k) as (r & n & k' & Hrun & Hreads & Hn & Hr).
    exists r, n, k'. split; [exact Hrun |]. split; [exact Hreads |]. split; [exact Hn |]. intros l ->.
    destruct Hr as (-> & Hl). split; [done |]. intros key ent Hin.
    apply Hl in Hin as (i & pk & Hi & Hrec & _). by exists i, pk.
  - intros passphrases.
    destruct (get_first_private_key_run passphrases k) as (r & n & k' & Hrun & Hreads & Hn & Hr).
    exists r, n, k'. split; [exact Hrun |]. split; [exact Hreads |]. split; [exact Hn |]. intros key ent Heq.
    destruct (Hr key ent Heq) as (i & pk & pp & Hi & Hrec & _). by exists i, pk.
  - intros fingerprint passphrases.
    destruct (get_private_key_by_fingerprint_run fingerprint passphrases k)
      as (r & n & k' & Hrun & Hreads & Hn & Hr).
    exists r, n, k'. split; [exact Hrun |]. split; [exact Hreads |]. split; [exact Hn |]. intros key ent Heq.
    destruct (Hr key ent Heq) as (i & pk & pp & rest & Hi & Hrec & _). by exists i, pk.
Qed.

(** C6.  On a keyring whose slots 0..[MAX_KEYS + 1] hold strings that
    decode, [delete_all_keys] ends and leaves every slot 0..[MAX_KEYS] empty,
    so that [get_all_public_keys] then returns the empty list; this holds
    whether or not the keyring raises on deleting an entry that is not there,
    and wherever the empty slots were. *)
Theorem C6_delete_all_wipes (k : keyring) :
  (∀ i, i ≤ MAX_KEYS + 1 → readable k i) →
  ∃ fuel0, ∀ fuel, fuel0 ≤ fuel →
    ∃ k', delete_all_keys fuel k = Some (Ok (), k')
          ∧ (∀ i, i ≤ MAX_KEYS → slot k' i = None)
          ∧ ∃ k'', get_all_public_keys k' = Some (Ok [], k'').
Proof.
  intros Hreadable. destruct (delete_all_keys_run k Hreadable) as (fuel0 & Hrun).
  exists fuel0. intros fuel Hfuel. destruct (Hrun fuel Hfuel) as (k' & Hdel & Hnone).
  exists k'. split; [done |]. split; [intros i Hi; apply Hnone; lia |].
  destruct (get_all_public_keys_readable k') as (k'' & Hkeys & _).
  { intros i Hi. exists None. by apply record_at_None, Hnone. }
  exists k''. rewrite Hkeys. do 3 f_equal.
  assert (Hempty : occupants k' 0 (MAX_KEYS + 1) = []); [|by rewrite Hempty].
  apply elem_of_nil_inv. intros r (i & Hi & Hrec)%elem_of_occupants.
  rewrite record_at_None in Hrec by (apply Hnone; lia). done.
Qed.

(** *** Adding a key, by slots *)

Lemma enumerable_occupants (k : keyring) (fingerprint : N) :
  fingerprint ∈ map get_fingerprint (occupants k 0 (MAX_KEYS + 1)).*1
  ↔ enumerable k fingerprint.
Proof.
  unfold enumerable. rewrite list_elem_of_In, in_map_iff. split.
  - intros (pk & <- & Hpk%list_elem_of_In).
    apply list_elem_of_fmap in Hpk as ([pk' ent] & -> & Hin).
    apply elem_of_occupants in Hin as (i & Hi & Hrec). exists i, pk', ent.
    split; [lia | done].
  - intros (i & pk & ent & Hi & Hrec & <-). exists pk. split; [done |].
    apply list_elem_of_In, list_elem_of_fmap. exists (pk, ent). split; [done |].
    apply elem_of_occupants. exists i. split; [lia | done].
Qed.

Lemma entropy_not_nil (mnemonic : string) (entropy : bytes) :
  bytes_from_mnemonic mnemonic = Ok entropy → entropy ≠ [].
Proof.
  intros (k & bl & Hk & Hlen & Hbl & -> & _)%bytes_from_mnemonic_Ok Hnil.
  destruct (mapM_word_bits_length _ _ Hbl) as (_ & _ & Hcat).
  apply (f_equal length) in Hnil.
  rewrite (length_bytes_of_bits (4 * k)) in Hnil by (rewrite length_take; lia).
  simpl in Hnil. lia.
Qed.

Lemma entropy_length (mnemonic : string) (entropy : bytes) :
  bytes_from_mnemonic mnemonic = Ok entropy → length entropy ∈ [16; 20; 24; 28; 32].
Proof.
  intros (k & bl & Hk & Hlen & Hbl & -> & _)%bytes_from_mnemonic_Ok.
  destruct (mapM_word_bits_length _ _ Hbl) as (_ & _ & Hcat).
  apply valid_entropy_length. exists k. split; [done |].
  apply length_bytes_of_bits. rewrite length_take. lia.
Qed.

(** The fingerprint is already enumerable: nothing is written. *)
Lemma add_private_key_known (fuel i : nat) (mnemonic passphrase : string) (entropy : bytes)
    (k : keyring) :
  pbkdf2_ok → bytes_from_mnemonic mnemonic = Ok entropy →
  (∀ j, j ≤ MAX_KEYS + 1 → readable k j) →
  (∀ j, j < i → occupied k j) → record_at k i = Ok None → i < fuel →
  enumerable k (get_fingerprint (get_g1 (key_of mnemonic passphrase))) →
  ∃ k', add_private_key fuel mnemonic passphrase k = Some (Ok (key_of mnemonic passphrase), k')
        ∧ entries k' = entries k
        ∧ calls k' = rev (map read_call (seq 0 (MAX_KEYS + 2)))
                     ++ rev (map read_call (seq 0 (i + 1))) ++ calls k.
Proof.
  intros Hkdf Hentropy Hreadable Hocc Hfree Hfuel Hknown.
  destruct (add_private_key_run fuel i mnemonic passphrase entropy k) as (k' & Hrun & Hk');
    [done.. |].
  rewrite bool_decide_true in Hk' by (by apply enumerable_occupants). eauto.
Qed.

(** The fingerprint is new: the record goes to the first free slot. *)
Lemma add_private_key_new (fuel i : nat) (mnemonic passphrase : string) (entropy : bytes)
    (k : keyring) :
  pbkdf2_ok → bytes_from_mnemonic mnemonic = Ok entropy →
  (∀ j, j ≤ MAX_KEYS + 1 → readable k j) →
  (∀ j, j < i → occupied k j) → record_at k i = Ok None → i < fuel →
  ¬ enumerable k (get_fingerprint (get_g1 (key_of mnemonic passphrase))) →
  ∃ k', add_private_key fuel mnemonic passphrase k = Some (Ok (key_of mnemonic passphrase), k')
        ∧ (∀ j, slot k' j = if decide (j = i) then Some (record_string mnemonic passphrase entropy)
                            else slot k j)
        ∧ calls k' = SetPassword _get_service (_get_private_key_user i)
                       (record_string mnemonic passphrase entropy)
                     :: rev (map read_call (seq 0 (MAX_KEYS + 2)))
                     ++ rev (map read_call (seq 0 (i + 1))) ++ calls k.
Proof.
  intros Hkdf Hentropy Hreadable Hocc Hfree Hfuel Hnew.
  destruct (add_private_key_run fuel i mnemonic passphrase entropy k) as (k' & Hrun & Hk');
    [done.. |].
  rewrite bool_decide_false in Hk' by (by rewrite enumerable_occupants).
  destruct Hk' as [He Hc]. exists k'. split; [done |]. split; [|done].
  intros j. destruct k' as [ents cs]. cbn [entries] in He. subst ents. apply slot_insert.
Qed.

Lemma record_at_written (k' : keyring) (i : nat) (mnemonic passphrase : string)
    (entropy : bytes) :
  bls_ok → bytes_from_mnemonic mnemonic = Ok entropy →
  slot k' i = Some (record_string mnemonic passphrase entropy) →
  record_at k' i = Ok (Some (get_g1 (key_of mnemonic passphrase), entropy)).
Proof.
  intros Hbls Hentropy Hslot. unfold record_at. rewrite Hslot.
  apply decode_slot_blob; [done |]. by eapply entropy_not_nil.
Qed.

(** C7.  [add_private_key] writes a new key at the smallest index whose slot
    is empty; after three keys have gone to the slots 0, 1 and 2 of an empty
    keychain and the second was deleted by its fingerprint, the next new key
    goes to slot 1. *)
Theorem C7_lowest_free_slot :
  pbkdf2_ok → bls_ok →
  (∀ k mnemonic passphrase entropy i fuel,
     bytes_from_mnemonic mnemonic = Ok entropy →
     (∀ j, j ≤ MAX_KEYS + 1 → readable k j) →
     record_at k i = Ok None → (∀ j, j < i → occupied k j) → i < fuel →
     ¬ enumerable k (get_fingerprint (get_g1 (key_of mnemonic passphrase))) →
     ∃ k', add_private_key fuel mnemonic passphrase k
             = Some (Ok (key_of mnemonic passphrase), k')
           ∧ ∀ j, slot k' j = if decide (j = i)
                              then Some (record_string mnemonic passphrase entropy)
                              else slot k j)
  ∧ (∀ k0 m1 p1 e1 m2 p2 e2 m3 p3 e3 m4 p4 e4 fuel,
       (∀ i, slot k0 i = None) →
       bytes_from_mnemonic m1 = Ok e1 → bytes_from_mnemonic m2 = Ok e2 →
       bytes_from_mnemonic m3 = Ok e3 → bytes_from_mnemonic m4 = Ok e4 →
       let fp mnemonic passphrase := get_fingerprint (get_g1 (key_of mnemonic passphrase)) in
       fp m1 p1 ≠ fp m2 p2 → fp m1 p1 ≠ fp m3 p3 → fp m2 p2 ≠ fp m3 p3 →
       fp m4 p4 ≠ fp m1 p1 → fp m4 p4 ≠ fp m3 p3 → 3 ≤ fuel →
       ∃ k3 k3' k4,
         (_ ← add_private_key fuel m1 p1; _ ← add_private_key fuel m2 p2;
          add_private_key fuel m3 p3) k0 = Some (Ok (key_of m3 p3), k3)
         ∧ slot k3 0 = Some (record_string m1 p1 e1)
         ∧ slot k3 1 = Some (record_string m2 p2 e2)
         ∧ slot k3 2 = Some (record_string m3 p3 e3)
         ∧ delete_key_by_fingerprint (fp m2 p2) k3 = Some (Ok (), k3')
         ∧ slot k3' 0 = Some (record_string m1 p1 e1)
         ∧ slot k3' 1 = None
         ∧ slot k3' 2 = Some (record_string m3 p3 e3)
         ∧ add_private_key fuel m4 p4 k3' = Some (Ok (key_of m4 p4), k4)
         ∧ slot k4 0 = Some (record_string m1 p1 e1)
         ∧ slot k4 1 = Some (record_string m4 p4 e4)
         ∧ slot k4 2 = Some (record_string m3 p3 e3)).
Proof.
  intros Hkdf Hbls. split.
  { intros k mnemonic passphrase entropy i fuel Hentropy Hreadable Hfree Hocc Hfuel Hnew.
    destruct (add_private_key_new fuel i mnemonic passphrase entropy k)
      as (k' & Hrun & Hslots & _); [done.. |]. eauto. }
  intros k0 m1 p1 e1 m2 p2 e2 m3 p3 e3 m4 p4 e4 fuel Hempty He1 He2 He3 He4 fp
    H12 H13 H23 H41 H43 Hfuel.
  (* first key, to slot 0 *)
  destruct (add_private_key_new fuel 0 m1 p1 e1 k0) as (k1 & Hrun1 & Hk1 & _);
    [done | done | | intros; lia | by apply record_at_None | lia | |].
  { intros j _. exists None. by apply record_at_None. }
  { intros (i & pk & ent & _ & Hrec & _). by rewrite record_at_None in Hrec. }
  assert (Hr1 : ∀ j, record_at k1 j = if decide (j = 0) then Ok (Some (get_g1 (key_of m1 p1), e1))
                                      else Ok None).
  { intros j. destruct (decide (j = 0)) as [->|Hj].
    - apply record_at_written; [done.. |]. by rewrite Hk1.
    - apply record_at_None. rewrite Hk1, decide_False by done. apply Hempty. }
  (* second key, to slot 1 *)
  destruct (add_private_key_new fuel 1 m2 p2 e2 k1) as (k2 & Hrun2 & Hk2 & _);
    [done | done | | | | lia | |].
  { intros j _. unfold readable. rewrite Hr1. destruct (decide (j = 0)); by eexists. }
  { intros j Hj. assert (j = 0) as -> by lia. unfold occupied. rewrite Hr1. by eexists. }
  { by rewrite Hr1. }
  { intros (i & pk & ent & _ & Hrec & Hfp). rewrite Hr1 in Hrec.
    destruct (decide (i = 0)); [|done]. injection Hrec as <- <-. by apply H12. }
  assert (Hr2 : ∀ j, record_at k2 j =
                     if decide (j = 1) then Ok (Some (get_g1 (key_of m2 p2), e2))
                     else record_at k1 j).
  { intros j. destruct (decide (j = 1)) as [->|Hj].
    - apply record_at_written; [done.. |]. by rewrite Hk2.
    - apply record_at_slot. by rewrite Hk2, decide_False. }
  (* third key, to slot 2 *)
  destruct (add_private_key_new fuel 2 m3 p3 e3 k2) as (k3 & Hrun3 & Hk3 & _);
    [done | done | | | | lia | |].
  { intros j _. unfold readable. rewrite Hr2, Hr1. destruct (decide (j = 1)), (decide (j = 0)); by eexists. }
  { intros j Hj. unfold occupied. rewrite Hr2, Hr1.
    destruct (decide (j = 1)), (decide (j = 0)); try by eexists. lia. }
  { by rewrite Hr2, Hr1. }
  { intros (i & pk & ent & _ & Hrec & Hfp). rewrite Hr2, Hr1 in Hrec.
    destruct (decide (i = 1)); [injection Hrec as <- <-; by apply H23 |].
    destruct (decide (i = 0)); [|done]. injection Hrec as <- <-. by apply H13. }
  assert (Hr3 : ∀ j, record_at k3 j =
                     if decide (j = 2) then Ok (Some (get_g1 (key_of m3 p3), e3))
                     else record_at k2 j).
  { intros j. destruct (decide (j = 2)) as [->|Hj].
    - apply record_at_written; [done.. |]. by rewrite Hk3.
    - apply record_at_slot. by rewrite Hk3, decide_False. }
  (* the second key is deleted *)
  destruct (delete_key_by_fingerprint_run (fp m2 p2) k3) as (k3' & Hdel & Hk3').
  { intros j _. unfold readable. rewrite Hr3, Hr2, Hr1.
    destruct (decide (j = 2)), (decide (j = 1)), (decide (j = 0)); by eexists. }
  assert (Hs3' : ∀ j, slot k3' j = if decide (j = 1) then None else slot k3 j).
  { intros j. rewrite Hk3', Hr3, Hr2, Hr1.
    destruct (decide (j = 2)) as [->|]; [|destruct (decide (j = 1)) as [->|];
      [|destruct (decide (j = 0)) as [->|]]]; cbn [has_fingerprint].
    - rewrite (bool_decide_false (_ = fp m2 p2)) by (intros ?; by apply H23).
      by rewrite andb_false_r.
    - rewrite (bool_decide_true (_ = fp m2 p2)) by done.
      by rewrite bool_decide_true by (pose proof MAX_KEYS_value; lia).
    - rewrite (bool_decide_false (_ = fp m2 p2)) by done. by rewrite andb_false_r.
    - by rewrite andb_false_r. }
  assert (Hr3' : ∀ j, record_at k3' j = if decide (j = 1) then Ok None else record_at k3 j).
  { intros j. destruct (decide (j = 1)) as [->|Hj].
    - apply record_at_None. by rewrite Hs3'.
    - apply record_at_slot. by rewrite Hs3', decide_False. }
  (* the fourth key goes to the freed slot 1 *)
  destruct (add_private_key_new fuel 1 m4 p4 e4 k3') as (k4 & Hrun4 & Hk4 & _);
    [done | done | | | | lia | |].
  { intros j _. unfold readable. rewrite Hr3', Hr3, Hr2, Hr1.
    destruct (decide (j = 1)), (decide (j = 2)), (decide (j = 0)); by eexists. }
  { intros j Hj. assert (j = 0) as -> by lia. unfold occupied. rewrite Hr3', Hr3, Hr2, Hr1.
    by eexists. }
  { by rewrite Hr3'. }
  { intros (i & pk & ent & _ & Hrec & Hfp). rewrite Hr3', Hr3, Hr2, Hr1 in Hrec.
    destruct (decide (i = 1)); [done |].
    destruct (decide (i = 2)); [injection Hrec as <- <-; by apply H43 |].
    destruct (decide (i = 0)); [|done]. injection Hrec as <- <-. by apply H41. }
  exists k3, k3', k4.
  split. { rewrite run_bind, Hrun1, run_bind, Hrun2. exact Hrun3. }
  rewrite !Hk4, !Hs3', !Hk3, !Hk2, !Hk1. by repeat split.
Qed.


(** C10.  [add_private_key] is not bounded by [MAX_KEYS]: when the slots
    0..[MAX_KEYS] are all occupied, so that the first free slot [i] lies
    beyond them, and the fingerprint is new, the record is written at [i]; no
    enumeration or lookup returns it afterwards; and the free-slot scan
    returns only at a free slot, after one step per occupied slot before
    it. *)
Theorem C10_add_beyond_bound (k : keyring) (mnemonic passphrase : string) (entropy : bytes)
    (i : nat) :
  pbkdf2_ok → bls_ok → bytes_from_mnemonic mnemonic = Ok entropy →
  MAX_KEYS < i → (∀ j, j < i → occupied k j) → record_at k i = Ok None →
  ¬ enumerable k (get_fingerprint (get_g1 (key_of mnemonic passphrase))) →
  (∀ fuel, fuel ≤ i → add_private_key fuel mnemonic passphrase k = None)
  ∧ (∀ fuel i' k', _get_free_private_key_index fuel k = Some (Ok i', k') →
       record_at k i' = Ok None)
  ∧ ∀ fuel, i < fuel →
      ∃ k', add_private_key fuel mnemonic passphrase k
              = Some (Ok (key_of mnemonic passphrase), k')
            ∧ slot k' i = Some (record_string mnemonic passphrase entropy)
            ∧ (∀ j, j ≠ i → slot k' j = slot k j)
            ∧ (∃ k'', get_all_public_keys k'
                        = Some (Ok (occupants k 0 (MAX_KEYS + 1)).*1, k''))
            ∧ (get_g1 (key_of mnemonic passphrase) ∉ (occupants k 0 (MAX_KEYS + 1)).*1)
            ∧ (∀ pk k'', get_first_public_key k' = Some (Ok (Some pk), k'') →
                 pk ≠ get_g1 (key_of mnemonic passphrase))
            ∧ (∀ passphrases l k'',
                 get_all_private_keys passphrases k' = Some (Ok l, k'') →
                 ∀ x, x ∈ l → get_g1 x.1 ≠ get_g1 (key_of mnemonic passphrase))
            ∧ (∀ passphrases x k'',
                 get_first_private_key passphrases k' = Some (Ok (Some x), k'') →
                 get_g1 x.1 ≠ get_g1 (key_of mnemonic passphrase))
            ∧ (∀ passphrases x k'',
                 get_private_key_by_fingerprint
                   (get_fingerprint (get_g1 (key_of mnemonic passphrase))) passphrases k'
                 ≠ Some (Ok (Some x), k'')).
Proof.
  intros Hkdf Hbls Hentropy Hi Hocc Hnone Hnew.
  set (key := key_of mnemonic passphrase) in *.
  assert (Hreadable : ∀ j, j ≤ MAX_KEYS + 1 → readable k j).
  { intros j Hj. destruct (decide (j = i)) as [->|Hne]; [by exists None |].
    destruct (Hocc j) as [r Hr]; [lia |]. by exists (Some r). }
  split.
  { intros fuel Hfuel. unfold add_private_key, _get_free_private_key_index.
    rewrite run_bind. unfold lift at 1. rewrite (mnemonic_to_seed_derive _ _ Hkdf).
    rewrite run_bind. unfold lift at 1. rewrite Hentropy. rewrite run_bind.
    rewrite free_index_from_out_of_fuel; [done |]. intros j Hj. apply Hocc. lia. }
  split.
  { intros fuel i' k' Hrun. by apply free_index_from_inv in Hrun as (_ & ? & _). }
  intros fuel Hfuel.
  destruct (add_private_key_new fuel i mnemonic passphrase entropy k) as (k' & Hrun & Hk' & _);
    [exact Hkdf | exact Hentropy | exact Hreadable | exact Hocc
    | exact Hnone | lia | exact Hnew |].
  (* below the bound nothing changed *)
  assert (Hsame : ∀ j, j ≠ i → record_at k' j = record_at k j).
  { intros j Hj. apply record_at_slot. by rewrite Hk', decide_False. }
  assert (Hbelow : ∀ j pk ent, j ≤ MAX_KEYS → record_at k' j = Ok (Some (pk, ent)) →
                               pk ≠ get_g1 key).
  { intros j pk ent Hj Hrec ->. apply Hnew. exists j, (get_g1 key), ent.
    split; [done |]. split; [|done]. by rewrite <- Hsame by lia. }
  exists k'. split; [exact Hrun |]. split; [by rewrite Hk', decide_True |].
  split; [by intros j Hj; rewrite Hk', decide_False |]. split.
  { destruct (get_all_public_keys_readable k') as (k'' & Hkeys & _).
    - intros j Hjle. destruct (decide (j = i)) as [->|Hj].
      + eexists. apply record_at_written; [done.. |]. by rewrite Hk', decide_True.
      + unfold readable. rewrite Hsame by done. by apply Hreadable.
    - exists k''. rewrite Hkeys. do 4 f_equal. apply occupants_ext.
      intros j Hj. apply Hsame. lia. }
  split.
  { intros ([pk ent] & Hpk & Hin)%list_elem_of_fmap. cbn [fst] in Hpk. subst pk.
    apply elem_of_occupants in Hin as (j & Hj & Hrec). apply Hnew.
    exists j, (get_g1 key), ent. split; [lia | done]. }
  split.
  { intros pk k'' Hfirst.
    destruct (get_first_public_key_run k') as (r & n & k1 & Hrun1 & _ & _ & Hr).
    rewrite Hfirst in Hrun1. injection Hrun1 as <- <-.
    destruct (Hr pk eq_refl) as (j & ent & Hj & Hrec). by eapply Hbelow. }
  split.
  { intros passphrases l k'' Hall x Hx.
    destruct (get_all_private_keys_run passphrases k') as (r & n & k1 & Hrun1 & _ & _ & Hr).
    rewrite Hall in Hrun1. injection Hrun1 as <- <-.
    destruct Hr as [_ Hl]. apply Hl in Hx as (j & pk & Hj & Hrec & <- & _).
    by eapply Hbelow. }
  split.
  { intros passphrases [key' ent] k'' Hfirst.
    destruct (get_first_private_key_run passphrases k') as (r & n & k1 & Hrun1 & _ & _ & Hr).
    rewrite Hfirst in Hrun1. injection Hrun1 as <- <-.
    destruct (Hr key' ent eq_refl) as (j & pk & pp & Hj & Hrec & _ & _ & <-).
    by eapply Hbelow. }
  intros passphrases [key' ent] k'' Hfind.
  destruct (get_private_key_by_fingerprint_run (get_fingerprint (get_g1 key)) passphrases k')
    as (r & n & k1 & Hrun1 & _ & _ & Hr).
  rewrite Hfind in Hrun1. injection Hrun1 as <- <-.
  destruct (Hr key' ent eq_refl) as (j & pk & pp & rest & Hj & Hrec & Hfp & _).
  apply Hnew. exists j, pk, ent. split; [done |]. split; [|done]. by rewrite <- Hsame by lia.
Qed.

(** *** Regenerating keys *)

Lemma bytes_to_mnemonic_total (e : bytes) :
  length word_list = 2048 → hash_ok → length e ∈ [16; 20; 24; 28; 32] →
  ∃ m, bytes_to_mnemonic e = Ok m.
Proof.
  intros Hwl Hhash (k & Hk & Hlen)%valid_entropy_length.
  set (ba := BitArray e ++ take k (BitArray (std_hash e))).
  assert (Hbalen : length ba = 33 * k).
  { unfold ba. rewrite length_app, length_take, !length_BitArray, Hhash. lia. }
  rewrite (bytes_to_mnemonic_eval e k ba) by done.
  destruct (mapM_total
              (λ i, match word_list !! uint (slice (i * 11) (i * 11 + 11) ba) with
                    | Some m_word => Ok m_word
                    | None => Err IndexError
                    end) (seq 0 (3 * k))) as [ws Hws].
  { intros i [_ Hi]%elem_of_seq.
    pose proof (uint_lt (slice (i * 11) (i * 11 + 11) ba)) as Hlt.
    rewrite (length_slice i (3 * k)) in Hlt by lia.
    destruct (lookup_lt_is_Some_2 word_list (uint (slice (i * 11) (i * 11 + 11) ba))) as [w Hw].
    { rewrite Hwl. exact Hlt. }
    rewrite Hw. by eexists. }
  rewrite Hws. by eexists.
Qed.

Lemma regenerate_written (mnemonic passphrase : string) (entropy : bytes) (pp : string) :
  pbkdf2_ok → bytes_from_mnemonic mnemonic = Ok entropy →
  regenerate entropy pp = Ok (key_of mnemonic pp).
Proof.
  intros Hkdf Hentropy. unfold regenerate.
  rewrite (encode_decode _ _ Hentropy). cbn [mbind result_bind].
  by rewrite (mnemonic_to_seed_derive _ _ Hkdf).
Qed.

Lemma regenerate_total (ent : bytes) (pp : string) :
  length word_list = 2048 → hash_ok → pbkdf2_ok → length ent ∈ [16; 20; 24; 28; 32] →
  ∃ key, regenerate ent pp = Ok key.
Proof.
  intros Hwl Hhash Hkdf Hlen. unfold regenerate.
  destruct (bytes_to_mnemonic_total ent Hwl Hhash Hlen) as [m ->]. cbn [mbind result_bind].
  rewrite (mnemonic_to_seed_derive _ _ Hkdf). by eexists.
Qed.


(** ** Further properties *)

(** *** The codec: shapes and errors *)

Lemma split_sep_app (sep : ascii) (a b : string) :
  split sep (a +:+ String sep b) = split sep a ++ split sep b.
Proof.
  induction a as [|c a IH]; simpl.
  - by rewrite Ascii.eqb_refl.
  - destruct (Ascii.eqb c sep); [by rewrite IH |]. rewrite IH.
    destruct (split sep a) as [|w ws] eqn:Hsplit; [by apply split_not_nil in Hsplit | done].
Qed.

Lemma mapM_first_error {A B : Type} (f : A → result B) (pre post : list A) (x : A) (e : exn) :
  (∀ y, y ∈ pre → ∃ z, f y = Ok z) → f x = Err e → mapM f (pre ++ x :: post) = Err e.
Proof.
  intros Hpre Hx. induction pre as [|y pre IH]; cbn [app mapM].
  - by rewrite Hx.
  - destruct (Hpre y) as [z Hz]; [apply list_elem_of_here |]. rewrite Hz.
    cbn [mbind result_bind]. rewrite IH; [done |].
    intros y' Hy'. apply Hpre. by apply list_elem_of_further.
Qed.

Lemma word_dict_None (w : string) : w ∉ word_list → word_dict !! w = None.
Proof.
  intros Hw. unfold word_dict. destruct (index_dict word_list !! w) as [i|] eqn:Hi; [|done].
  destruct Hw. apply index_dict_sound in Hi. by eapply list_elem_of_lookup_2.
Qed.

Lemma word_bits_known (w : string) :
  length word_list ≤ 2048 → w ∈ word_list → ∃ b, word_bits w = Ok b.
Proof.
  intros Hlen [i Hi]%index_dict_elem. unfold word_bits, word_dict. rewrite Hi.
  unfold BitArray_uint. apply index_dict_sound in Hi. apply lookup_lt_Some in Hi.
  rewrite bool_decide_true; [by eexists |]. change (2 ^ 11) with 2048. lia.
Qed.

Lemma bytes_from_mnemonic_words (m : string) :
  length (split " " m) ∈ [12; 15; 18; 21; 24] →
  bytes_from_mnemonic m
  = (bl ← mapM word_bits (split " " m);
     let mnemonic := split " " m in
     let bit_array := concat bl in
     let CS := length mnemonic / 3 in
     let ENT := length mnemonic * 11 - CS in
     _ ← assert (bool_decide (length bit_array = length mnemonic * 11));
     _ ← assert (bool_decide (ENT `mod` 32 = 0));
     entropy_bytes ← BitArray_bytes (take ENT bit_array);
     let checksum_bytes := drop ENT bit_array in
     let checksum := take CS (BitArray (std_hash entropy_bytes)) in
     _ ← assert (bool_decide (length checksum_bytes = CS));
     if bool_decide (checksum ≠ checksum_bytes) then
       Err (ValueError "Invalid order of mnemonic words")
     else Ok entropy_bytes).
Proof.
  intros Hlen. unfold bytes_from_mnemonic. rewrite bool_decide_true by done. cbn [negb].
  rewrite decode_words_foldl. cbn [mbind result_bind].
  by destruct (mapM word_bits (split " " m)).
Qed.

Lemma bytes_from_mnemonic_in_vocabulary (m : string) (e : bytes) :
  bytes_from_mnemonic m = Ok e → Forall (λ w, w ∈ word_list) (split " " m).
Proof.
  intros (k & bl & _ & _ & Hbl & _)%bytes_from_mnemonic_Ok.
  apply mapM_Ok in Hbl. apply Forall_forall. intros w Hw.
  apply list_elem_of_lookup in Hw as [i Hi].
  destruct (Forall2_lookup_l _ _ _ _ _ Hbl Hi) as (b & _ & Hb).
  apply word_bits_Ok in Hb as (v & Hv & _). apply index_dict_sound in Hv.
  by eapply list_elem_of_lookup_2.
Qed.

Lemma bytes_from_mnemonic_lengths (m : string) (e : bytes) :
  bytes_from_mnemonic m = Ok e →
  length (split " " m) ∈ [12; 15; 18; 21; 24] ∧ length e * 3 = length (split " " m) * 4.
Proof.
  intros (k & bl & Hk & Hlen & Hbl & He & _)%bytes_from_mnemonic_Ok.
  destruct (mapM_word_bits_length _ _ Hbl) as (_ & _ & Hcat).
  split; [apply valid_word_count; eauto |].
  rewrite He, (length_bytes_of_bits (4 * k)); [lia |]. rewrite length_take. lia.
Qed.

(** X1.  [bytes_to_mnemonic] refuses every length other than 16, 20, 24, 28
    and 32 bytes with a [ValueError] that gives the length; for those lengths
    it returns three words for every four bytes, all of the word list,
    joined by single spaces. *)
Theorem X1_bytes_to_mnemonic_words (e : bytes) :
  (length e ∉ [16; 20; 24; 28; 32] →
   bytes_to_mnemonic e
   = Err (ValueError ("Data length should be one of the following: [16, 20, 24, 28, 32], but it is "
                      +:+ pretty (length e) +:+ ".")))
  ∧ (length word_list = 2048 → hash_ok → length e ∈ [16; 20; 24; 28; 32] →
     ∃ ws, bytes_to_mnemonic e = Ok (join " " ws)
           ∧ length ws * 4 = length e * 3
           ∧ Forall (λ w, w ∈ word_list) ws).
Proof.
  split.
  - intros Hlen. unfold bytes_to_mnemonic. by rewrite bool_decide_false.
  - intros Hwl Hhash (k & Hk & Hlen)%valid_entropy_length.
    set (ba := BitArray e ++ take k (BitArray (std_hash e))).
    assert (Hbalen : length ba = 33 * k).
    { unfold ba. rewrite length_app, length_take, !length_BitArray, Hhash. lia. }
    rewrite (bytes_to_mnemonic_eval e k ba) by done.
    set (f := λ i, match word_list !! uint (slice (i * 11) (i * 11 + 11) ba) with
                   | Some m_word => Ok m_word
                   | None => Err IndexError
                   end).
    destruct (mapM_total f (seq 0 (3 * k))) as [ws Hws].
    { intros i [_ Hi]%elem_of_seq. unfold f.
      pose proof (uint_lt (slice (i * 11) (i * 11 + 11) ba)) as Hlt.
      rewrite (length_slice i (3 * k)) in Hlt by lia.
      destruct (lookup_lt_is_Some_2 word_list (uint (slice (i * 11) (i * 11 + 11) ba)))
        as [w Hw]; [by rewrite Hwl |].
      rewrite Hw. by eexists. }
    exists ws. rewrite Hws. cbn [mbind result_bind]. split; [done |].
    apply mapM_Ok in Hws. pose proof (Forall2_length _ _ _ Hws) as Hwslen.
    rewrite length_seq in Hwslen. split; [lia |].
    apply Forall_forall. intros w Hw. apply list_elem_of_lookup in Hw as [i Hi].
    destruct (Forall2_lookup_r _ _ _ _ _ Hws Hi) as (j & _ & Hfj). unfold f in Hfj.
    destruct (word_list !! uint _) as [w'|] eqn:Hw'; [|done].
    injection Hfj as ->. by eapply list_elem_of_lookup_2.
Qed.

(** X2.  The errors of [bytes_from_mnemonic]: a number of words other than
    12, 15, 18, 21 or 24 is refused whatever the words are; with such a
    number of words, the first word that is not in the word list is the one
    the error names; and nothing is trimmed, so a valid mnemonic with a
    space before or after it is refused for its number of words. *)
Theorem X2_bytes_from_mnemonic_errors (m : string) :
  (length (split " " m) ∉ [12; 15; 18; 21; 24] →
   bytes_from_mnemonic m = Err (ValueError "Invalid mnemonic length"))
  ∧ (∀ pre w post,
       length word_list ≤ 2048 → length (split " " m) ∈ [12; 15; 18; 21; 24] →
       split " " m = pre ++ w :: post → Forall (λ w, w ∈ word_list) pre → w ∉ word_list →
       bytes_from_mnemonic m
       = Err (ValueError ("'" +:+ w +:+ "' is not in the mnemonic dictionary; may be misspelled")))
  ∧ (∀ e, bytes_from_mnemonic m = Ok e →
       bytes_from_mnemonic (m +:+ " ") = Err (ValueError "Invalid mnemonic length")
       ∧ bytes_from_mnemonic (" " +:+ m) = Err (ValueError "Invalid mnemonic length")).
Proof.
  assert (Hbad : ∀ m', length (split " " m') ∉ [12; 15; 18; 21; 24] →
                       bytes_from_mnemonic m' = Err (ValueError "Invalid mnemonic length")).
  { intros m' Hlen. unfold bytes_from_mnemonic. by rewrite bool_decide_false. }
  split; [apply Hbad |]. split.
  - intros pre w post Hwl Hlen Hsplit Hpre Hw.
    rewrite bytes_from_mnemonic_words, Hsplit by done.
    rewrite (mapM_first_error word_bits pre post w
               (ValueError ("'" +:+ w +:+ "' is not in the mnemonic dictionary; may be misspelled")));
      [done | |].
    + intros y Hy. apply word_bits_known; [done |]. rewrite Forall_forall in Hpre. by apply Hpre.
    + unfold word_bits. by rewrite word_dict_None.
  - intros e [(k & Hk & Hlen)%valid_word_count _]%bytes_from_mnemonic_lengths.
    split; apply Hbad.
    + rewrite split_sep_app, length_app, Hlen. cbn [split length].
      intros (k' & Hk' & Hlen')%valid_word_count. lia.
    + change (" " +:+ m) with (String " " m). cbn [split]. rewrite Ascii.eqb_refl.
      cbn [length]. rewrite Hlen. intros (k' & Hk' & Hlen')%valid_word_count. lia.
Qed.

(** X3.  What a successful decoding guarantees: the entropy has four bytes
    for every three words, every word of the mnemonic is in the word list,
    and no other mnemonic decodes to the same entropy. *)
Theorem X3_bytes_from_mnemonic_injective (m : string) (e : bytes) :
  bytes_from_mnemonic m = Ok e →
  length e ∈ [16; 20; 24; 28; 32]
  ∧ length e * 3 = length (split " " m) * 4
  ∧ Forall (λ w, w ∈ word_list) (split " " m)
  ∧ ∀ m', bytes_from_mnemonic m' = Ok e → m' = m.
Proof.
  intros Hm. split; [by eapply entropy_length |].
  split; [by apply bytes_from_mnemonic_lengths |].
  split; [by eapply bytes_from_mnemonic_in_vocabulary |].
  intros m' Hm'. apply encode_decode in Hm, Hm'. congruence.
Qed.

(** X4.  [generate_mnemonic] returns 24 words that decode to the 32 bytes
    drawn. *)
Theorem X4_generate_mnemonic :
  vocabulary_ok → hash_ok → length (token_bytes 32) = 32 →
  ∃ m, generate_mnemonic = Ok m
       ∧ length (split " " m) = 24
       ∧ bytes_from_mnemonic m = Ok (token_bytes 32).
Proof.
  intros Hvoc Hhash Hlen.
  destruct (decode_encode (token_bytes 32) Hvoc Hhash) as (m & Henc & Hdec).
  { rewrite Hlen. apply (bool_decide_unpack _). done. }
  exists m. unfold generate_mnemonic. rewrite Henc. split; [done |]. split; [|done].
  apply bytes_from_mnemonic_lengths in Hdec as [_ Hwords]. lia.
Qed.

(** *** The keychain: errors and empty inputs *)


Lemma occupants_first (k : keyring) (a n i : nat) (rec : G1Element * bytes) :
  a ≤ i < a + n → (∀ j, a ≤ j < i → record_at k j = Ok None) →
  record_at k i = Ok (Some rec) →
  ∃ rest, occupants k a n = rec :: rest.
Proof.
  revert a. induction n as [|n IH]; intros a Hi Hnone Hrec; [lia |].
  destruct (decide (a = i)) as [->|Hne].
  - rewrite (occupants_S k i n (Some rec)) by done. by eexists.
  - rewrite (occupants_S k a n None) by (apply Hnone; lia).
    apply IH; [lia | | done]. intros j Hj. apply Hnone. lia.
Qed.

Lemma occupants_nil (k : keyring) (a n : nat) :
  (∀ j, a ≤ j < a + n → ¬ occupied k j) → occupants k a n = [].
Proof.
  intros Hnone. destruct (occupants k a n) as [|rec rest] eqn:Hocc; [done |].
  assert (Hin : rec ∈ occupants k a n) by (rewrite Hocc; apply list_elem_of_here).
  apply elem_of_occupants in Hin as (i & Hi & Hrec). destruct (Hnone i Hi). by exists rec.
Qed.

Lemma not_occupied_readable (k : keyring) (i : nat) :
  readable k i → ¬ occupied k i → record_at k i = Ok None.
Proof.
  intros [[rec|] Hr] Hnot; [|done]. destruct Hnot. by exists rec.
Qed.

(** X8.  When [get_all_public_keys] returns a list, [get_first_public_key]
    returns its first element, and nothing when the list is empty. *)
Theorem X8_first_public_key_is_head (k k1 : keyring) (l : list G1Element) :
  get_all_public_keys k = Some (Ok l, k1) →
  ∃ k2, get_first_public_key k = Some (Ok (head l), k2).
Proof.
  intros Hall. pose proof MAX_KEYS_value as HMAX.
  destruct (get_all_public_keys_run k) as (r & n & k' & Hrun & _ & _ & Hr).
  rewrite Hall in Hrun. injection Hrun as <- <-. destruct Hr as (_ & Hreadable & ->).
  unfold get_first_public_key.
  assert (Hfind : ∀ r2 k2,
            (pkent ← _get_pk_and_entropy (_get_private_key_user 0);
             find_loop (λ rec : G1Element * bytes, Ok (Some rec.1)) (MAX_KEYS + 1) 0 pkent) k
            = Some (r2, k2) →
            (pkent ← _get_pk_and_entropy (_get_private_key_user 0);
             get_first_public_key_loop (MAX_KEYS + 1) 0 pkent) k = Some (r2, k2)).
  { intros r2 k2 <-. rewrite !run_bind, run_read. destruct (record_at k 0); [|done].
    apply get_first_public_key_loop_find. }
  destruct (decide (Exists (occupied k) (seq 0 (MAX_KEYS + 1)))) as [Hsome|Hnone].
  - apply Exists_exists in Hsome as (i1 & [_ Hi1]%elem_of_seq & Hocc1).
    destruct (least_index (occupied k) i1 Hocc1) as (i & Hi & [rec Hrec] & Hleast).
    assert (Hbefore : ∀ j, j < i → record_at k j = Ok None).
    { intros j Hj. apply not_occupied_readable; [apply Hreadable; lia | by apply Hleast]. }
    destruct (occupants_first k 0 (MAX_KEYS + 1) i rec) as [rest ->];
      [lia | intros; apply Hbefore; lia | done |].
    destruct (find_hit (λ rec : G1Element * bytes, Ok (Some rec.1)) i rec rec.1 k)
      as (k2 & Hrun & _); [lia | | done | done |].
    { intros j Hj. exists None. split; [by apply Hbefore | done]. }
    exists k2. by apply Hfind.
  - rewrite occupants_nil.
    2:{ intros j Hj Hocc. apply Hnone, Exists_exists. exists j. split; [|done].
        apply elem_of_seq. lia. }
    destruct (find_run (λ rec : G1Element * bytes, Ok (Some rec.1)) k)
      as (r2 & n2 & k2 & Hrun & _ & _ & Hr2).
    exists k2. apply Hfind. rewrite Hrun. destruct r2 as [[x|]|e]; [| done |].
    + destruct Hr2 as (i & rec & Hi & Hrec & _). destruct Hnone. apply Exists_exists.
      exists i. split; [apply elem_of_seq; lia | by exists rec].
    + destruct Hr2 as [(i & Hi & Herr)|(i & rec & _ & _ & [=])].
      destruct (Hreadable i Hi) as [x Hx]. congruence.
Qed.

(** X10.  With no candidate passphrase nothing is returned: on a keyring
    whose slots decode, [get_first_private_key] and
    [get_private_key_by_fingerprint] return nothing, whatever keys are stored
    and whatever the fingerprint, and [get_all_private_keys] returns the
    empty list. *)
Theorem X10_no_candidate_passphrase (k : keyring) :
  (∀ i, i ≤ MAX_KEYS + 1 → readable k i) →
  (∃ k', get_first_private_key [] k = Some (Ok None, k'))
  ∧ (∀ fingerprint, ∃ k', get_private_key_by_fingerprint fingerprint [] k = Some (Ok None, k'))
  ∧ (∃ k', get_all_private_keys [] k = Some (Ok [], k')).
Proof.
  intros Hreadable.
  assert (Hfind : ∀ (g : G1Element * bytes → result (option (PrivateKey * bytes))),
            (∀ rec, g rec = Ok None) →
            ∃ k', (pkent ← _get_pk_and_entropy (_get_private_key_user 0);
                   find_loop g (MAX_KEYS + 1) 0 pkent) k = Some (Ok None, k')).
  { intros g Hg. destruct (find_run g k) as (r & n & k' & Hrun & _ & _ & Hr).
    exists k'. rewrite Hrun. destruct r as [[x|]|e]; [| done |].
    - destruct Hr as (i & rec & _ & _ & Hx). by rewrite Hg in Hx.
    - destruct Hr as [(i & Hi & Herr)|(i & rec & _ & _ & Hx)]; [|by rewrite Hg in Hx].
      destruct (Hreadable i Hi) as [x Hx]. congruence. }
  split; [|split].
  - destruct (Hfind (λ rec, first_key_for_slot rec.1 rec.2 [])) as [k' Hrun]; [done |].
    exists k'. rewrite <- Hrun. unfold get_first_private_key.
    rewrite !run_bind, run_read. destruct (record_at k 0); [|done].
    apply get_first_private_key_loop_find.
  - intros fingerprint.
    destruct (Hfind (λ rec, key_by_fingerprint_for_slot rec.1 rec.2 fingerprint []))
      as [k' Hrun]; [done |].
    exists k'. rewrite <- Hrun. unfold get_private_key_by_fingerprint.
    rewrite !run_bind, run_read. destruct (record_at k 0); [|done].
    apply get_private_key_by_fingerprint_loop_find.
  - destruct (get_all_private_keys_run [] k) as (r & n & k' & Hrun & _ & _ & Hr).
    exists k'. rewrite Hrun. destruct r as [l|e].
    + destruct Hr as [_ Hl]. destruct l as [|x l]; [done |].
      destruct (proj1 (Hl x)) as (_ & _ & _ & _ & _ & pp & Hpp & _);
        [apply list_elem_of_here | by apply elem_of_nil in Hpp].
    + destruct Hr as [(i & Hi & Herr)|(_ & _ & _ & pp & _ & _ & Hpp & _)];
        [| by apply elem_of_nil in Hpp].
      destruct (Hreadable i Hi) as [x Hx]. congruence.
Qed.

(** *** The private keys, in order *)

Lemma all_keys_for_slot_exact (pk : G1Element) (ent : bytes) (passphrases : list string)
    (acc l : list (PrivateKey * bytes)) :
  all_keys_for_slot pk ent passphrases acc = Ok l →
  l = acc ++ keys_for_slot passphrases (pk, ent)
  ∧ ∀ pp, pp ∈ passphrases → ∃ key, regenerate ent pp = Ok key.
Proof.
  revert acc. induction passphrases as [|pp rest IH]; intros acc; cbn [all_keys_for_slot].
  - intros [= <-]. split; [by rewrite app_nil_r |]. by intros pp ?%elem_of_nil.
  - unfold keys_for_slot. cbn [omap list_omap fst snd].
    destruct (regenerate ent pp) as [key|e] eqn:Hkey; cbn [mbind result_bind]; [|done].
    intros Hrest. case_bool_decide as Hpk.
    + apply IH in Hrest as [-> Hall]. split; [by rewrite <- app_assoc |].
      intros pp' [->|Hpp']%elem_of_cons; [by eexists | by apply Hall].
    + apply IH in Hrest as [-> Hall]. split; [done |].
      intros pp' [->|Hpp']%elem_of_cons; [by eexists | by apply Hall].
Qed.

Lemma first_key_for_slot_exact (pk : G1Element) (ent : bytes) (passphrases : list string) :
  (∀ pp, pp ∈ passphrases → ∃ key, regenerate ent pp = Ok key) →
  first_key_for_slot pk ent passphrases = Ok (head (keys_for_slot passphrases (pk, ent))).
Proof.
  induction passphrases as [|pp rest IH]; intros Hall; [done |].
  cbn [first_key_for_slot]. unfold keys_for_slot. cbn [omap list_omap fst snd].
  destruct (Hall pp) as [key Hkey]; [apply list_elem_of_here |]. rewrite Hkey.
  cbn [mbind result_bind]. case_bool_decide as Hpk; [done |].
  apply IH. intros pp' Hpp'. apply Hall. by apply list_elem_of_further.
Qed.

Lemma head_concat_map {A B : Type} (h : A → list B) (l : list A) :
  head (concat (map h l)) = head (omap (λ x, head (h x)) l).
Proof.
  induction l as [|x l IH]; [done |]. simpl. destruct (h x) as [|y ys]; [exact IH | done].
Qed.

Lemma occupants_from (k : keyring) (a n : nat) (r : option (G1Element * bytes)) :
  record_at k a = Ok r →
  occupants k a n = if bool_decide (n = 0) then [] else option_list r ++ occupants k (a + 1) (n - 1).
Proof.
  intros Hr. destruct n as [|n]; [done |]. rewrite (occupants_S k a n r Hr).
  rewrite bool_decide_false by done. by rewrite Nat.add_1_r, Nat.sub_succ, Nat.sub_0_r.
Qed.

(** A scan whose test does not fail returns the first hit among the records
    of the slots 0..[MAX_KEYS], in the order of the slots. *)
Lemma find_loop_exact {R : Type} (g : G1Element * bytes → result (option R))
    (f : G1Element * bytes → option R) (fuel index : nat)
    (pkent : option (G1Element * bytes)) (k : keyring) :
  index + fuel = MAX_KEYS + 1 →
  (∀ i, index < i ≤ MAX_KEYS + 1 → readable k i) →
  (∀ rec, fuel ≠ 0 → rec ∈ option_list pkent ++ occupants k (index + 1) (fuel - 1) →
     g rec = Ok (f rec)) →
  ∃ k', find_loop g fuel index pkent k
        = Some (Ok (if bool_decide (fuel = 0) then None
                    else head (omap f (option_list pkent ++ occupants k (index + 1) (fuel - 1)))),
                k').
Proof.
  pose proof MAX_KEYS_value as HMAX.
  revert index pkent k. induction fuel as [|fuel IH]; intros index pkent k Hfuel Hreadable Hg.
  - cbn [find_loop]. rewrite bool_decide_false by lia. by eexists.
  - cbn [find_loop]. rewrite bool_decide_true by lia. rewrite run_bind.
    rewrite (bool_decide_false (S fuel = 0)) by done.
    specialize (λ rec, Hg rec (Nat.neq_succ_0 fuel)).
    rewrite Nat.sub_succ, Nat.sub_0_r in Hg |- *.
    assert (Hhere : (match pkent with
                     | Some rec => lift (g rec)
                     | None => mret None
                     end) k = Some (Ok (pkent ≫= f), k)).
    { destruct pkent as [rec|]; [|done]. unfold lift. rewrite Hg; [done |].
      apply list_elem_of_here. }
    rewrite Hhere.
    destruct (pkent ≫= f) as [x|] eqn:Hx.
    { exists k. destruct pkent as [rec|]; [|done]. simpl in Hx |- *. by rewrite Hx. }
    assert (Hnone : omap f (option_list pkent) = []).
    { destruct pkent as [rec|]; [|done]. simpl in Hx |- *. by rewrite Hx. }
    rewrite run_bind, run_read.
    destruct (Hreadable (index + 1)) as [pkent' Hrec']; [lia |]. rewrite Hrec'.
    pose proof (occupants_from k (index + 1) fuel pkent' Hrec') as Hocc.
    rewrite <- (occupants_entries k (log (read_call (index + 1)) k) (index + 1 + 1)) in Hocc
      by done.
    destruct (IH (index + 1) pkent' (log (read_call (index + 1)) k)) as [k' Hrun]; [lia | | |].
    { intros i Hi. destruct (Hreadable i) as [r Hr]; [lia |]. by exists r. }
    { intros rec Hfuel0 Hrec. apply Hg. apply elem_of_app. right.
      rewrite Hocc. by rewrite bool_decide_false. }
    exists k'. rewrite Hrun, Hocc. case_bool_decide.
    + by rewrite app_nil_r, Hnone.
    + by rewrite !omap_app, Hnone.
Qed.

Lemma find_exact {R : Type} (g : G1Element * bytes → result (option R))
    (f : G1Element * bytes → option R) (k : keyring) :
  (∀ i, i ≤ MAX_KEYS + 1 → readable k i) →
  (∀ rec, rec ∈ occupants k 0 (MAX_KEYS + 1) → g rec = Ok (f rec)) →
  ∃ k', (pkent ← _get_pk_and_entropy (_get_private_key_user 0);
         find_loop g (MAX_KEYS + 1) 0 pkent) k
        = Some (Ok (head (omap f (occupants k 0 (MAX_KEYS + 1)))), k').
Proof.
  pose proof MAX_KEYS_value as HMAX. intros Hreadable Hg. rewrite run_bind, run_read.
  destruct (Hreadable 0) as [pkent Hrec]; [lia |]. rewrite Hrec.
  pose proof (occupants_from k 0 (MAX_KEYS + 1) pkent Hrec) as Hocc.
  rewrite bool_decide_false in Hocc by lia.
  rewrite <- (occupants_entries k (log (read_call 0) k) (0 + 1)) in Hocc by done.
  destruct (find_loop_exact g f (MAX_KEYS + 1) 0 pkent (log (read_call 0) k)) as [k' Hrun];
    [lia | | |].
  - intros i Hi. destruct (Hreadable i) as [r Hr]; [lia |]. by exists r.
  - intros rec _ Hin. apply Hg. by rewrite Hocc.
  - exists k'. rewrite Hrun, bool_decide_false by lia. by rewrite Hocc.
Qed.

Lemma get_all_private_keys_loop_exact (fuel index : nat) (pkent : option (G1Element * bytes))
    (passphrases : list string) (acc l : list (PrivateKey * bytes)) (k k' : keyring) :
  index + fuel = MAX_KEYS + 1 →
  get_all_private_keys_loop fuel index pkent passphrases acc k = Some (Ok l, k') →
  (∀ i, index < i ≤ MAX_KEYS + 1 → readable k i)
  ∧ (fuel ≠ 0 →
     l = acc ++ concat (map (keys_for_slot passphrases)
                            (option_list pkent ++ occupants k (index + 1) (fuel - 1)))
     ∧ ∀ rec, rec ∈ option_list pkent ++ occupants k (index + 1) (fuel - 1) →
         ∀ pp, pp ∈ passphrases → ∃ key, regenerate rec.2 pp = Ok key)
  ∧ (fuel = 0 → l = acc).
Proof.
  pose proof MAX_KEYS_value as HMAX.
  revert index pkent acc k. induction fuel as [|fuel IH]; intros index pkent acc k Hfuel.
  - cbn [get_all_private_keys_loop]. rewrite bool_decide_false by lia. intros [= <- <-].
    split; [intros; lia |]. done.
  - cbn [get_all_private_keys_loop]. rewrite bool_decide_true by lia. rewrite run_bind.
    rewrite Nat.sub_succ, Nat.sub_0_r.
    assert (Hhere : ∃ res,
              (match pkent with
               | Some (pk, ent) => lift (all_keys_for_slot pk ent passphrases acc)
               | None => mret acc
               end) k = Some (res, k)
              ∧ ∀ acc1, res = Ok acc1 →
                  acc1 = acc ++ concat (map (keys_for_slot passphrases) (option_list pkent))
                  ∧ ∀ rec, rec ∈ option_list pkent →
                      ∀ pp, pp ∈ passphrases → ∃ key, regenerate rec.2 pp = Ok key).
    { destruct pkent as [[pk ent]|].
      - eexists. split; [done |]. intros acc1 [-> Hall]%all_keys_for_slot_exact.
        simpl. rewrite app_nil_r. split; [done |].
        intros rec ->%list_elem_of_singleton. exact Hall.
      - eexists. split; [done |]. intros acc1 [= <-]. simpl. rewrite app_nil_r.
        split; [done |]. by intros rec ?%elem_of_nil. }
    destruct Hhere as (res & -> & Hres). destruct res as [acc1|e]; [|done].
    destruct (Hres acc1 eq_refl) as [-> Hall1]. rewrite run_bind, run_read.
    destruct (record_at k (index + 1)) as [pkent'|e] eqn:Hrec'; [|done].
    intros Hrun. apply IH in Hrun as (Hreadable & Hsome & Hzero); [|lia].
    pose proof (occupants_from k (index + 1) fuel pkent' Hrec') as Hocc.
    rewrite <- (occupants_entries k (log (read_call (index + 1)) k) (index + 1 + 1)) in Hocc
      by done.
    split; [|split; [|done]].
    + intros i Hi. destruct (decide (i = index + 1)) as [->|Hne]; [by exists pkent' |].
      destruct (Hreadable i) as [r Hr]; [lia |]. by exists r.
    + intros _. rewrite Hocc. case_bool_decide as Hfuel0.
      * rewrite (Hzero Hfuel0), app_nil_r. split; [done |]. exact Hall1.
      * destruct (Hsome Hfuel0) as [-> Hall2].
        rewrite (map_app _ (option_list pkent)), concat_app, app_assoc.
        split; [done |]. intros rec [Hin|Hin]%elem_of_app; [by apply Hall1 | by apply Hall2].
Qed.

Lemma get_all_private_keys_exact (passphrases : list string)
    (l : list (PrivateKey * bytes)) (k k' : keyring) :
  get_all_private_keys passphrases k = Some (Ok l, k') →
  (∀ i, i ≤ MAX_KEYS + 1 → readable k i)
  ∧ l = concat (map (keys_for_slot passphrases) (occupants k 0 (MAX_KEYS + 1)))
  ∧ ∀ rec, rec ∈ occupants k 0 (MAX_KEYS + 1) →
      ∀ pp, pp ∈ passphrases → ∃ key, regenerate rec.2 pp = Ok key.
Proof.
  pose proof MAX_KEYS_value as HMAX. unfold get_all_private_keys.
  rewrite run_bind, run_read. destruct (record_at k 0) as [pkent|e] eqn:Hrec; [|done].
  intros (Hreadable & Hsome & _)%get_all_private_keys_loop_exact; [|lia].
  destruct Hsome as [-> Hall]; [lia |].
  pose proof (occupants_from k 0 (MAX_KEYS + 1) pkent Hrec) as Hocc.
  rewrite bool_decide_false in Hocc by lia.
  rewrite <- (occupants_entries k (log (read_call 0) k) (0 + 1)) in Hocc by done.
  rewrite Hocc. split; [|done].
  intros i Hi. destruct (decide (i = 0)) as [->|Hne]; [by exists pkent |].
  destruct (Hreadable i) as [r Hr]; [lia |]. by exists r.
Qed.

(** X9.  When [get_all_private_keys] returns a list, the list holds, slot by
    slot in the order of the slots 0..[MAX_KEYS], the keys that the
    candidates regenerate for the slot, in the order of the candidates (a
    key is listed once for every candidate that gives it); and
    [get_first_private_key] returns the first element of that list, or
    nothing when it is empty. *)
Theorem X9_private_keys_in_order (passphrases : list string)
    (l : list (PrivateKey * bytes)) (k k1 : keyring) :
  get_all_private_keys passphrases k = Some (Ok l, k1) →
  l = concat (map (keys_for_slot passphrases) (occupants k 0 (MAX_KEYS + 1)))
  ∧ ∃ k2, get_first_private_key passphrases k = Some (Ok (head l), k2).
Proof.
  intros (Hreadable & -> & Hall)%get_all_private_keys_exact. split; [done |].
  destruct (find_exact (λ rec, first_key_for_slot rec.1 rec.2 passphrases)
              (λ rec, head (keys_for_slot passphrases rec)) k) as [k2 Hrun]; [done | |].
  { intros [pk ent] Hrec. apply first_key_for_slot_exact. by apply (Hall (pk, ent)). }
  exists k2. rewrite head_concat_map. rewrite <- Hrun. unfold get_first_private_key.
  rewrite !run_bind, run_read. destruct (record_at k 0); [|done].
  apply get_first_private_key_loop_find.
Qed.

(** *** Adding, looking up, deleting *)

Lemma occupants_app (k : keyring) (a n m : nat) :
  occupants k a (n + m) = occupants k a n ++ occupants k (a + n) m.
Proof. unfold occupants. by rewrite seq_app, omap_app. Qed.

Lemma occupants_length (k : keyring) (a n : nat) :
  (∀ j, a ≤ j < a + n → occupied k j) → length (occupants k a n) = n.
Proof.
  revert a. induction n as [|n IH]; intros a Hocc; [done |].
  destruct (Hocc a) as [rec Hrec]; [lia |].
  rewrite (occupants_S k a n (Some rec) Hrec). simpl. rewrite IH; [done |].
  intros j Hj. apply Hocc. lia.
Qed.

Lemma key_by_fingerprint_for_slot_other (pk : G1Element) (ent : bytes) (fingerprint : N)
    (passphrases : list string) :
  get_fingerprint pk ≠ fingerprint →
  (∀ pp, pp ∈ passphrases → ∃ key, regenerate ent pp = Ok key) →
  key_by_fingerprint_for_slot pk ent fingerprint passphrases = Ok None.
Proof.
  intros Hfp. induction passphrases as [|pp rest IH]; intros Hall; [done |].
  cbn [key_by_fingerprint_for_slot].
  destruct (Hall pp) as [key ->]; [apply list_elem_of_here |]. cbn [mbind result_bind].
  rewrite bool_decide_false by done. apply IH. intros pp' Hpp'. apply Hall.
  by apply list_elem_of_further.
Qed.


Lemma occupants_filter (k k' : keyring) (fingerprint : N) (a n : nat) :
  (∀ i, a ≤ i < a + n → readable k i) →
  (∀ i, a ≤ i < a + n →
     record_at k' i = if has_fingerprint fingerprint (record_at k i) then Ok None
                      else record_at k i) →
  occupants k' a n = filter (λ rec, get_fingerprint rec.1 ≠ fingerprint) (occupants k a n).
Proof.
  revert a. induction n as [|n IH]; intros a Hreadable Hrec; [done |].
  destruct (Hreadable a) as [r Hr]; [lia |]. specialize (Hrec a) as Hra.
  rewrite Hr in Hra. rewrite (occupants_S k a n r Hr).
  rewrite filter_app, <- IH by (intros; (apply Hreadable || apply Hrec); lia).
  destruct r as [[pk ent]|]; cbn [has_fingerprint] in Hra.
  - case_bool_decide as Hfp.
    + rewrite (occupants_S k' a n None) by (apply Hra; lia).
      cbn [option_list option_rect]. rewrite filter_cons_False by (cbn; by intros []). done.
    + rewrite (occupants_S k' a n (Some (pk, ent))) by (apply Hra; lia).
      cbn [option_list option_rect]. by rewrite filter_cons_True.
  - by rewrite (occupants_S k' a n None) by (apply Hra; lia).
Qed.

(** X7.  [delete_key_by_fingerprint] removes every record of the slots
    0..[MAX_KEYS] whose public key has the fingerprint, and nothing else:
    afterwards the fingerprint is not enumerable, [get_all_public_keys]
    returns the public keys of the other records in their order, and a slot
    beyond [MAX_KEYS] is left as it was even if its key has the fingerprint. *)
Theorem X7_delete_by_fingerprint (fingerprint : N) (k : keyring) :
  (∀ i, i ≤ MAX_KEYS + 1 → readable k i) →
  ∃ k' k'',
    delete_key_by_fingerprint fingerprint k = Some (Ok (), k')
    ∧ ¬ enumerable k' fingerprint
    ∧ (∀ i pk ent, record_at k i = Ok (Some (pk, ent)) → get_fingerprint pk ≠ fingerprint →
         slot k' i = slot k i)
    ∧ (∀ i, MAX_KEYS < i → slot k' i = slot k i)
    ∧ get_all_public_keys k'
      = Some (Ok (filter (λ rec, get_fingerprint rec.1 ≠ fingerprint)
                         (occupants k 0 (MAX_KEYS + 1))).*1, k'').
Proof.
  intros Hreadable. pose proof MAX_KEYS_value as HMAX.
  destruct (delete_key_by_fingerprint_run fingerprint k Hreadable) as (k' & Hrun & Hslots).
  assert (Hrec : ∀ i, i ≤ MAX_KEYS →
            record_at k' i = if has_fingerprint fingerprint (record_at k i) then Ok None
                             else record_at k i).
  { intros i Hi. specialize (Hslots i). rewrite bool_decide_true in Hslots by done.
    destruct (has_fingerprint fingerprint (record_at k i)) eqn:Hfp.
    - by apply record_at_None.
    - by apply record_at_slot. }
  assert (Htop : ∀ i, MAX_KEYS < i → slot k' i = slot k i).
  { intros i Hi. rewrite Hslots. by rewrite bool_decide_false by lia. }
  destruct (get_all_public_keys_readable k') as (k'' & Hall & _).
  { intros i Hi. unfold readable. destruct (decide (i ≤ MAX_KEYS)) as [Hle|Hgt].
    - rewrite (Hrec i Hle). destruct (has_fingerprint _ _); [by eexists | by apply Hreadable].
    - rewrite (record_at_slot k k' i) by (apply Htop; lia). by apply Hreadable. }
  exists k', k''. split; [done |]. split; [|split; [|split]].
  - intros (i & pk & ent & Hi & Hri & Hfp). rewrite Hrec in Hri by lia.
    destruct (record_at k i) as [[[pk' ent']|]|e] eqn:Hki; cbn [has_fingerprint] in Hri;
      [|done..].
    case_bool_decide; [done |]. congruence.
  - intros i pk ent Hri Hfp. rewrite Hslots, Hri. cbn [has_fingerprint].
    rewrite (bool_decide_false (get_fingerprint pk = fingerprint)) by done.
    by rewrite andb_false_r.
  - exact Htop.
  - rewrite Hall, (occupants_filter k k' fingerprint); [done | |].
    + intros i Hi. apply Hreadable. lia.
    + intros i Hi. apply Hrec. lia.
Qed.

(** *** Deleting every key, on any keyring *)

(** One pass through the [try] statement, with the two variables it leaves. *)
Lemma delete_all_keys_try_exact (index : nat) (delete_exception : bool)
    (pkent : option (G1Element * bytes)) (k : keyring) :
  ∃ k',
    delete_all_keys_try index delete_exception pkent k
    = Some (match record_at k index with
            | Ok r => Ok (r, delete_exception || delete_raises && is_None (slot k index))
            | Err _ => Ok (pkent, true)
            end, k')
    ∧ ∀ j, slot k' j = match record_at k index with
                       | Ok _ => if decide (j = index) then None else slot k j
                       | Err _ => slot k j
                       end.
Proof.
  unfold delete_all_keys_try, try_except. rewrite run_bind, run_read.
  destruct (record_at k index) as [r|e] eqn:Hrec.
  - rewrite run_bind. unfold delete_password.
    fold (slot (log (read_call index) k) index). rewrite slot_log.
    destruct (slot k index) as [v|] eqn:Hslot.
    + eexists. split; [cbn [is_None]; by rewrite andb_false_r, orb_false_r |]. intros j.
      rewrite slot_delete. by rewrite slot_log.
    + destruct delete_raises; cbn [is_None andb]; (eexists; split;
        [by rewrite ?orb_true_r, ?orb_false_r |]); intros j; rewrite !slot_log;
        by destruct (decide (j = index)) as [->|].
  - eexists. split; [done |]. intros j. by rewrite slot_log.
Qed.

(** Either loop ends, at the latest at the first slot beyond [MAX_KEYS] that
    is not occupied; it empties slots that decode and leaves the others. *)
Lemma delete_all_keys_loop_any (t fuel index : nat) (delete_exception : bool)
    (pkent : option (G1Element * bytes)) (k : keyring) :
  index ≤ t → MAX_KEYS < t → t - index < fuel → ¬ occupied k t →
  ∃ k', delete_all_keys_loop fuel index delete_exception pkent k = Some (Ok (), k')
        ∧ (∀ i, index ≤ i ≤ MAX_KEYS + 1 → readable k i → slot k' i = None)
        ∧ (∀ i, ¬ readable k i → slot k' i = slot k i)
        ∧ (∀ i, slot k' i = None ∨ slot k' i = slot k i).
Proof.
  revert index delete_exception pkent k.
  induction fuel as [|fuel IH]; intros index de pkent k Hit Ht Hfuel Hfree; [lia |].
  cbn [delete_all_keys_loop]. rewrite run_bind.
  destruct (delete_all_keys_try_exact index de pkent k) as (k1 & Htry & Hk1). rewrite Htry.
  assert (Hhere : readable k index → slot k1 index = None).
  { intros [r Hr]. rewrite Hk1, Hr. by rewrite decide_True. }
  assert (Hother : ∀ j, j ≠ index → slot k1 j = slot k j).
  { intros j Hj. rewrite Hk1. destruct (record_at k index); [by rewrite decide_False | done]. }
  assert (Hbad : ∀ j, ¬ readable k j → slot k1 j = slot k j).
  { intros j Hj. rewrite Hk1. destruct (record_at k index) as [r|e] eqn:Hrec; [|done].
    rewrite decide_False; [done |]. intros ->. apply Hj. by exists r. }
  assert (Heither : ∀ j, slot k1 j = None ∨ slot k1 j = slot k j).
  { intros j. rewrite Hk1. destruct (record_at k index); [|by right].
    destruct (decide (j = index)); [by left | by right]. }
  set (res := match record_at k index with
              | Ok r => Ok (r, de || delete_raises && is_None (slot k index))
              | Err _ => Ok (pkent, true)
              end) in *.
  assert (∃ pkent1 de1, res = Ok (pkent1, de1)
                        ∧ (index = t → is_None pkent1 || de1 = true)) as (pkent1 & de1 & -> & Hstop).
  { unfold res. destruct (record_at k index) as [[rec|]|e] eqn:Hrec.
    - eexists _, _. split; [done |]. intros ->. destruct Hfree. by exists rec.
    - eexists _, _. split; [done |]. done.
    - eexists _, _. split; [done |]. intros _. apply orb_true_r. }
  destruct ((is_None pkent1 || de1) && bool_decide (MAX_KEYS < index)) eqn:Hbreak.
  - apply andb_prop in Hbreak as [_ Hlt%bool_decide_eq_true].
    exists k1. split; [done |]. split; [|done].
    intros i Hi. assert (i = index) as -> by lia. exact Hhere.
  - assert (Hne : index ≠ t).
    { intros ->. rewrite (Hstop eq_refl), bool_decide_true in Hbreak by done. done. }
    destruct (IH (index + 1) de1 pkent1 k1) as (k' & Hrun & Hnone & Hkeep & Hor); [lia.. | |].
    { intros [r Hr]. apply Hfree. exists r. rewrite <- Hr. symmetry.
      apply record_at_slot, Hother. lia. }
    exists k'. split; [exact Hrun |]. split; [|split].
    + intros i Hi Hri. destruct (decide (i = index)) as [->|Hni].
      * destruct (Hor index) as [H0|H0]; [done |]. by rewrite H0, Hhere.
      * apply Hnone; [lia |]. destruct Hri as [r Hr]. exists r. rewrite <- Hr.
        by apply record_at_slot, Hother.
    + intros i Hi. rewrite Hkeep; [by apply Hbad |].
      intros [r Hr]. apply Hi. exists r. rewrite <- Hr. symmetry.
      by apply record_at_slot, Hbad.
    + intros i. destruct (Hor i) as [H0|H0]; [by left |]. rewrite H0. apply Heither.
Qed.

(** X11.  [delete_all_keys] ends without an exception on every keyring,
    whatever it holds and whether or not it raises on deleting a missing
    entry.  It empties each of the slots 0..[MAX_KEYS + 1] whose string
    decodes and leaves in place every entry whose string does not decode, so
    that such an entry survives it; no slot gets a new value. *)
Theorem X11_delete_all_keys_total (k : keyring) :
  ∃ fuel0, ∀ fuel, fuel0 ≤ fuel →
    ∃ k', delete_all_keys fuel k = Some (Ok (), k')
          ∧ (∀ i, i ≤ MAX_KEYS + 1 → readable k i → slot k' i = None)
          ∧ (∀ i e, record_at k i = Err e → record_at k' i = Err e)
          ∧ (∀ i, slot k' i = None ∨ slot k' i = slot k i).
Proof.
  pose proof MAX_KEYS_value as HMAX.
  destruct (first_unoccupied k (MAX_KEYS + 1)) as (t & Ht & Hfree & _).
  exists (t + 1). intros fuel Hfuel. unfold delete_all_keys. rewrite run_bind.
  destruct (delete_all_keys_loop_any t fuel 0 false None k)
    as (k1 & -> & Hnone1 & Hkeep1 & Hor1); [lia.. | done |].
  destruct (delete_all_keys_loop_any (MAX_KEYS + 1) fuel 0 true None k1)
    as (k2 & -> & Hnone2 & Hkeep2 & Hor2); [lia.. | |].
  { intros [rec Hrec]. destruct (record_at k (MAX_KEYS + 1)) as [r|e] eqn:Hk.
    - rewrite record_at_None in Hrec; [done |]. apply Hnone1; [lia | by exists r].
    - rewrite (record_at_slot k k1) in Hrec; [congruence |].
      apply Hkeep1. intros [r Hr]. congruence. }
  assert (Hbad : ∀ i e, record_at k i = Err e → slot k2 i = slot k i).
  { intros i e Hi.
    assert (Hk1 : slot k1 i = slot k i) by (apply Hkeep1; intros [r Hr]; congruence).
    rewrite Hkeep2; [done |]. intros [r Hr]. rewrite (record_at_slot k k1 i Hk1) in Hr.
    congruence. }
  exists k2. split; [done |]. split; [|split].
  - intros i Hi Hri. apply Hnone2; [lia |]. exists None. apply record_at_None.
    apply Hnone1; [lia | done].
  - intros i e Hi. rewrite <- Hi. apply record_at_slot. by eapply Hbad.
  - intros i. destruct (Hor2 i) as [H2|H2]; [by left |]. rewrite H2. apply Hor1.
Qed.

Lemma delete_all_keys_loop_quiet (t fuel index : nat) (pkent : option (G1Element * bytes))
    (k : keyring) :
  delete_raises = false → index ≤ t → MAX_KEYS < t → t - index < fuel →
  (∀ j, index ≤ j ≤ t → readable k j) →
  (∀ j, index ≤ j < t → MAX_KEYS < j → occupied k j) → ¬ occupied k t →
  ∃ k', delete_all_keys_loop fuel index false pkent k = Some (Ok (), k')
        ∧ (∀ i, index ≤ i ≤ t → slot k' i = None)
        ∧ (∀ i, i < index ∨ t < i → slot k' i = slot k i).
Proof.
  intros Hquiet. revert index pkent k.
  induction fuel as [|fuel IH]; intros index pkent k Hit Ht Hfuel Hreadable Hocc Hfree; [lia |].
  cbn [delete_all_keys_loop]. rewrite run_bind.
  destruct (delete_all_keys_try_exact index false pkent k) as (k1 & -> & Hk1).
  destruct (Hreadable index) as [r Hr]; [lia |]. rewrite Hr in Hk1 |- *.
  rewrite Hquiet. cbn [orb andb].
  assert (Hother : ∀ j, j ≠ index → slot k1 j = slot k j).
  { intros j Hj. by rewrite Hk1, decide_False. }
  destruct (decide (index = t)) as [->|Hne].
  - rewrite bool_decide_true by done.
    assert (r = None) as ->.
    { destruct r as [rec|]; [|done]. destruct Hfree. by exists rec. }
    exists k1. split; [done |]. split.
    + intros i Hi. assert (i = t) as -> by lia. by rewrite Hk1, decide_True.
    + intros i Hi. apply Hother. lia.
  - assert (Hgo : (is_None r || false) && bool_decide (MAX_KEYS < index) = false).
    { case_bool_decide as Hlt; [|by rewrite andb_false_r].
      destruct (Hocc index) as [rec Hrec]; [lia | done |].
      assert (r = Some rec) as -> by congruence. done. }
    rewrite Hgo.
    destruct (IH (index + 1) r k1) as (k' & Hrun & Hnone & Hframe); [lia.. | | | |].
    { intros j Hj. destruct (Hreadable j) as [r' Hr']; [lia |]. exists r'.
      rewrite <- Hr'. apply record_at_slot, Hother. lia. }
    { intros j Hj Hlt. destruct (Hocc j) as [r' Hr']; [lia | done |]. exists r'.
      rewrite <- Hr'. apply record_at_slot, Hother. lia. }
    { intros [r' Hr']. apply Hfree. exists r'. rewrite <- Hr'. symmetry.
      apply record_at_slot, Hother. lia. }
    exists k'. split; [exact Hrun |]. split.
    + intros i Hi. destruct (decide (i = index)) as [->|Hni].
      * rewrite Hframe by lia. by rewrite Hk1, decide_True.
      * apply Hnone. lia.
    + intros i Hi. rewrite Hframe by lia. apply Hother. lia.
Qed.

Lemma delete_all_keys_loop_raised (fuel index : nat) (delete_exception : bool)
    (pkent : option (G1Element * bytes)) (k : keyring) :
  index ≤ MAX_KEYS + 1 → MAX_KEYS + 1 - index < fuel →
  delete_exception = true
  ∨ (∃ j, index ≤ j ≤ MAX_KEYS + 1
          ∧ (¬ readable k j ∨ (delete_raises = true ∧ slot k j = None))) →
  ∃ k', delete_all_keys_loop fuel index delete_exception pkent k = Some (Ok (), k')
        ∧ ∀ i, MAX_KEYS + 1 < i → slot k' i = slot k i.
Proof.
  revert index delete_exception pkent k.
  induction fuel as [|fuel IH]; intros index de pkent k Hindex Hfuel Hde; [lia |].
  cbn [delete_all_keys_loop]. rewrite run_bind.
  destruct (delete_all_keys_try_exact index de pkent k) as (k1 & -> & Hk1).
  assert (Hother : ∀ j, j ≠ index → slot k1 j = slot k j).
  { intros j Hj. rewrite Hk1. destruct (record_at k index); [by rewrite decide_False | done]. }
  set (res := match record_at k index with
              | Ok r => Ok (r, de || delete_raises && is_None (slot k index))
              | Err _ => Ok (pkent, true)
              end).
  assert (∃ pkent1 de1,
            res = Ok (pkent1, de1)
            ∧ (de = true ∨ ¬ readable k index ∨ (delete_raises = true ∧ slot k index = None) →
               de1 = true)) as (pkent1 & de1 & -> & Hde1).
  { unfold res. destruct (record_at k index) as [r|e] eqn:Hrec.
    - eexists _, _. split; [done |]. intros [->|[Hbad|[-> ->]]]; [done | | ].
      + destruct Hbad. by exists r.
      + apply orb_true_r.
    - eexists _, _. split; [done |]. done. }
  destruct (decide (index = MAX_KEYS + 1)) as [->|Hne].
  - rewrite Hde1, orb_true_r, bool_decide_true by
      (lia || (destruct Hde as [?|(j & Hj & Hbad)]; [by left |];
               assert (j = MAX_KEYS + 1) as -> by lia; by right)).
    exists k1. split; [done |]. intros i Hi. apply Hother. lia.
  - rewrite (bool_decide_false (MAX_KEYS < index)), andb_false_r by lia.
    destruct (IH (index + 1) de1 pkent1 k1) as (k' & Hrun & Hframe); [lia.. | |].
    { destruct Hde as [Htrue|(j & Hj & Hbad)]; [left; apply Hde1; by left |].
      destruct (decide (j = index)) as [->|Hnj]; [left; apply Hde1; by right |].
      right. exists j. split; [lia |]. destruct Hbad as [Hbad|[Hr Hs]].
      - left. intros [r Hr]. apply Hbad. exists r. rewrite <- Hr. symmetry.
        by apply record_at_slot, Hother.
      - right. split; [done |]. by rewrite Hother. }
    exists k'. split; [exact Hrun |]. intros i Hi. rewrite Hframe by done. apply Hother. lia.
Qed.

(** X12.  What [delete_all_keys] does beyond [MAX_KEYS] depends on the
    keyring.  On one that deletes a missing entry silently, the keys stored
    in consecutive slots beyond [MAX_KEYS] are deleted too, up to the first
    empty slot.  On one that raises, as soon as one of the slots
    0..[MAX_KEYS + 1] has no entry the deletion stops at [MAX_KEYS + 1] and
    keeps every later slot. *)
Theorem X12_delete_all_keys_beyond_bound (fuel : nat) (k : keyring) :
  (delete_raises = false →
   ∀ t, MAX_KEYS < t → t < fuel → (∀ j, j ≤ t → readable k j) →
        (∀ j, MAX_KEYS < j < t → occupied k j) → ¬ occupied k t →
        ∃ k', delete_all_keys fuel k = Some (Ok (), k')
              ∧ (∀ i, i ≤ t → slot k' i = None)
              ∧ (∀ i, t < i → slot k' i = slot k i))
  ∧ (delete_raises = true →
     ∀ j, j ≤ MAX_KEYS + 1 → slot k j = None → MAX_KEYS + 1 < fuel →
          ∃ k', delete_all_keys fuel k = Some (Ok (), k')
                ∧ ∀ i, MAX_KEYS + 1 < i → slot k' i = slot k i).
Proof.
  pose proof MAX_KEYS_value as HMAX. split.
  - intros Hquiet t Ht Hfuel Hreadable Hocc Hfree. unfold delete_all_keys. rewrite run_bind.
    destruct (delete_all_keys_loop_quiet t fuel 0 None k) as (k1 & -> & Hnone1 & Hframe1);
      [done | lia.. | | | done |].
    { intros j Hj. apply Hreadable. lia. }
    { intros j Hj Hlt. apply Hocc. lia. }
    destruct (delete_all_keys_loop_any (MAX_KEYS + 1) fuel 0 true None k1)
      as (k2 & Hrun2 & _ & _ & Hor2); [lia.. | |].
    { intros [rec Hrec]. rewrite record_at_None in Hrec; [done |]. apply Hnone1. lia. }
    destruct (delete_all_keys_loop_raised fuel 0 true None k1) as (k2' & Hrun2' & Hframe2);
      [lia | lia | by left |].
    rewrite Hrun2 in Hrun2' |- *. injection Hrun2' as <-.
    exists k2. split; [done |]. split.
    + intros i Hi. destruct (Hor2 i) as [H2|H2]; [done |]. rewrite H2. apply Hnone1. lia.
    + intros i Hi. rewrite Hframe2 by lia. apply Hframe1. lia.
  - intros Hraises j Hj Hslot Hfuel. unfold delete_all_keys. rewrite run_bind.
    destruct (delete_all_keys_loop_raised fuel 0 false None k) as (k1 & -> & Hframe1);
      [lia | lia | |].
    { right. exists j. split; [lia |]. by right. }
    destruct (delete_all_keys_loop_raised fuel 0 true None k1) as (k2 & -> & Hframe2);
      [lia | lia | by left |].
    exists k2. split; [done |]. intros i Hi. rewrite Hframe2 by done. by apply Hframe1.
Qed.

(** *** Nothing outside the slots changes *)

Lemma untouched_refl (k : keyring) : untouched k k.
Proof. by intros key _. Qed.

Lemma untouched_trans (k1 k2 k3 : keyring) :
  untouched k1 k2 → untouched k2 k3 → untouched k1 k3.
Proof. intros H12 H23 key Hkey. by rewrite H23, H12. Qed.

Lemma preserves_ret {A : Type} (a : A) : preserves (mret a).
Proof. intros k r k' [= _ <-]. apply untouched_refl. Qed.

Lemma preserves_lift {A : Type} (r : result A) : preserves (lift r).
Proof. intros k r' k' [= _ <-]. apply untouched_refl. Qed.

Lemma preserves_out_of_fuel {A : Type} : preserves (@out_of_fuel A).
Proof. by intros k r k'. Qed.

Lemma preserves_bind {A B : Type} (m : M A) (f : A → M B) :
  preserves m → (∀ a, preserves (f a)) → preserves (m ≫= f).
Proof.
  intros Hm Hf k r k'. rewrite run_bind.
  destruct (m k) as [[[a|e] k1]|] eqn:Hrun; [| |done].
  - intros Hfa. eapply untouched_trans; [by eapply Hm | by eapply Hf].
  - intros [= _ <-]. by eapply Hm.
Qed.

Lemma preserves_try_except {A : Type} (body : M A) (handler : exn → M A) :
  preserves body → (∀ e, preserves (handler e)) → preserves (try_except body handler).
Proof.
  intros Hbody Hhandler k r k'. unfold try_except.
  destruct (body k) as [[[a|e] k1]|] eqn:Hrun; [| |done].
  - intros [= _ <-]. by eapply Hbody.
  - intros Hrun'. eapply untouched_trans; [by eapply Hbody | by eapply Hhandler].
Qed.

Lemma preserves_get_password (service user : string) : preserves (get_password service user).
Proof. by intros k r k' [= _ <-] key _. Qed.

Lemma preserves_set_password (i : nat) (value : string) :
  preserves (set_password _get_service (_get_private_key_user i) value).
Proof.
  intros k r k' [= _ <-] key Hkey. cbn [entries]. apply lookup_insert_ne. by intros <-; destruct (Hkey i).
Qed.

Lemma preserves_delete_password (i : nat) :
  preserves (delete_password _get_service (_get_private_key_user i)).
Proof.
  intros k r k'. unfold delete_password.
  destruct (entries k !! (_get_service, _get_private_key_user i)).
  - intros [= _ <-] key Hkey. cbn [entries]. apply lookup_delete_ne.
    by intros <-; destruct (Hkey i).
  - by destruct delete_raises; intros [= _ <-] key _.
Qed.

Lemma preserves_get_pk_and_entropy (user : string) : preserves (_get_pk_and_entropy user).
Proof.
  unfold _get_pk_and_entropy. apply preserves_bind; [apply preserves_get_password |].
  intros [read_str|]; [|apply preserves_ret].
  case_bool_decide; [apply preserves_ret |].
  apply preserves_bind; [apply preserves_lift |]. intros str_bytes.
  apply preserves_bind; [apply preserves_lift |]. intros pk. apply preserves_ret.
Qed.

Lemma preserves_free_index (fuel index : nat) :
  preserves (_get_free_private_key_index_from fuel index).
Proof.
  revert index. induction fuel as [|fuel IH]; intros index; [apply preserves_out_of_fuel |].
  cbn [_get_free_private_key_index_from].
  apply preserves_bind; [apply preserves_get_pk_and_entropy |].
  intros [rec|]; [apply IH | apply preserves_ret].
Qed.

Lemma preserves_get_all_public_keys_loop (fuel index : nat)
    (pkent : option (G1Element * bytes)) (all_keys : list G1Element) :
  preserves (get_all_public_keys_loop fuel index pkent all_keys).
Proof.
  revert index pkent all_keys. induction fuel as [|fuel IH]; intros index pkent all_keys;
    cbn [get_all_public_keys_loop]; case_bool_decide;
    [apply preserves_out_of_fuel | apply preserves_ret | | apply preserves_ret].
  apply preserves_bind; [apply preserves_get_pk_and_entropy |]. intros pkent'. apply IH.
Qed.

Lemma preserves_add_private_key (fuel : nat) (mnemonic passphrase : string) :
  preserves (add_private_key fuel mnemonic passphrase).
Proof.
  unfold add_private_key.
  apply preserves_bind; [apply preserves_lift |]. intros seed.
  apply preserves_bind; [apply preserves_lift |]. intros entropy.
  apply preserves_bind; [apply preserves_free_index |]. intros index.
  apply preserves_bind.
  { apply preserves_bind; [apply preserves_get_pk_and_entropy |]. intros pkent.
    apply preserves_get_all_public_keys_loop. }
  intros pks. case_bool_decide; [apply preserves_ret |].
  apply preserves_bind; [apply preserves_set_password |]. intros _. apply preserves_ret.
Qed.

Lemma preserves_delete_key_by_fingerprint_loop (fuel index : nat)
    (pkent : option (G1Element * bytes)) (fingerprint : N) :
  preserves (delete_key_by_fingerprint_loop fuel index pkent fingerprint).
Proof.
  revert index pkent. induction fuel as [|fuel IH]; intros index pkent;
    cbn [delete_key_by_fingerprint_loop]; case_bool_decide;
    [apply preserves_out_of_fuel | apply preserves_ret | | apply preserves_ret].
  apply preserves_bind.
  { destruct pkent as [[pk ent]|]; [|apply preserves_ret].
    case_bool_decide; [apply preserves_delete_password | apply preserves_ret]. }
  intros _. apply preserves_bind; [apply preserves_get_pk_and_entropy |]. intros pkent'.
  apply IH.
Qed.

Lemma preserves_delete_all_keys_loop (fuel index : nat) (delete_exception : bool)
    (pkent : option (G1Element * bytes)) :
  preserves (delete_all_keys_loop fuel index delete_exception pkent).
Proof.
  revert index delete_exception pkent.
  induction fuel as [|fuel IH]; intros index de pkent; [apply preserves_out_of_fuel |].
  cbn [delete_all_keys_loop]. apply preserves_bind.
  { unfold delete_all_keys_try. apply preserves_try_except; [|intros; apply preserves_ret].
    apply preserves_bind; [apply preserves_get_pk_and_entropy |]. intros pkent'.
    apply preserves_try_except; [|intros; apply preserves_ret].
    apply preserves_bind; [apply preserves_delete_password |]. intros _. apply preserves_ret. }
  intros [pkent1 de1]. destruct (_ && _); [apply preserves_ret | apply IH].
Qed.

(** X13.  The operations that write, [add_private_key],
    [delete_key_by_fingerprint] and [delete_all_keys], change no entry of
    the keyring other than slots of this keychain (entries of its service
    named by [_get_private_key_user]), however they end. *)
Theorem X13_other_entries_untouched (fuel : nat) (k k' : keyring) :
  (∀ mnemonic passphrase r,
     add_private_key fuel mnemonic passphrase k = Some (r, k') → untouched k k')
  ∧ (∀ fingerprint r,
       delete_key_by_fingerprint fingerprint k = Some (r, k') → untouched k k')
  ∧ (∀ r, delete_all_keys fuel k = Some (r, k') → untouched k k').
Proof.
  split; [|split].
  - intros mnemonic passphrase r. apply preserves_add_private_key.
  - intros fingerprint r. unfold delete_key_by_fingerprint.
    apply preserves_bind; [apply preserves_get_pk_and_entropy |]. intros pkent.
    apply preserves_delete_key_by_fingerprint_loop.
  - intros r. unfold delete_all_keys.
    apply preserves_bind; [apply preserves_delete_all_keys_loop |]. intros _.
    apply preserves_delete_all_keys_loop.
Qed.

(** *** Slots that do not decode, and the free-slot scan *)

Lemma free_index_from_err (fuel index i : nat) (e : exn) (k : keyring) :
  index ≤ i → i - index < fuel →
  (∀ j, index ≤ j < i → occupied k j) → record_at k i = Err e →
  ∃ k', _get_free_private_key_index_from fuel index k = Some (Err e, k')
        ∧ reads k index (i - index + 1) k'.
Proof.
  revert index k. induction fuel as [|fuel IH]; intros index k Hle Hfuel Hocc Herr; [lia |].
  cbn [_get_free_private_key_index_from]. rewrite run_bind, run_read.
  destruct (decide (index = i)) as [->|Hne].
  - rewrite Herr. eexists. split; [done |].
    replace (i - i + 1) with 1 by lia. apply reads_step, reads_refl.
  - destruct (Hocc index) as [r Hr]; [lia |]. rewrite Hr.
    destruct (IH (index + 1) (log (read_call index) k)) as (k' & Hrun & Hreads);
      [lia | lia | | done |].
    { intros j Hj. destruct (Hocc j) as [r' Hr']; [lia |]. by exists r'. }
    exists k'. split; [done |].
    replace (i - index + 1) with (S (i - (index + 1) + 1)) by lia.
    by apply reads_step.
Qed.

Lemma get_all_public_keys_loop_err (fuel index i : nat) (e : exn)
    (pkent : option (G1Element * bytes)) (acc : list G1Element) (k : keyring) :
  index + fuel = MAX_KEYS + 1 → index < i ≤ MAX_KEYS + 1 →
  (∀ j, index < j < i → readable k j) → record_at k i = Err e →
  ∃ k', get_all_public_keys_loop fuel index pkent acc k = Some (Err e, k')
        ∧ reads k (index + 1) (i - index) k'.
Proof.
  revert index pkent acc k.
  induction fuel as [|fuel IH]; intros index pkent acc k Hfuel Hi Hreadable Herr; [lia |].
  cbn [get_all_public_keys_loop]. rewrite bool_decide_true by lia. rewrite run_bind, run_read.
  destruct (decide (i = index + 1)) as [->|Hne].
  - rewrite Herr. eexists. split; [done |].
    replace (index + 1 - index) with 1 by lia. apply reads_step, reads_refl.
  - destruct (Hreadable (index + 1)) as [r Hr]; [lia |]. rewrite Hr.
    destruct (IH (index + 1) r (match pkent with
                                | Some (pk, _) => acc ++ [pk]
                                | None => acc
                                end) (log (read_call (index + 1)) k))
      as (k' & Hrun & Hreads); [lia | lia | | done |].
    { intros j Hj. destruct (Hreadable j) as [r' Hr']; [lia |]. by exists r'. }
    exists k'. split; [exact Hrun |].
    replace (i - index) with (S (i - (index + 1))) by lia. by apply reads_step.
Qed.

Lemma get_all_public_keys_err (i : nat) (e : exn) (k : keyring) :
  i ≤ MAX_KEYS + 1 → (∀ j, j < i → readable k j) → record_at k i = Err e →
  ∃ k', get_all_public_keys k = Some (Err e, k') ∧ reads k 0 (i + 1) k'.
Proof.
  intros Hi Hreadable Herr. unfold get_all_public_keys. rewrite run_bind, run_read.
  destruct (decide (i = 0)) as [->|Hne].
  - rewrite Herr. eexists. split; [done |]. apply reads_step, reads_refl.
  - destruct (Hreadable 0) as [r Hr]; [lia |]. rewrite Hr.
    destruct (get_all_public_keys_loop_err (MAX_KEYS + 1) 0 i e r [] (log (read_call 0) k))
      as (k' & Hrun & Hreads); [lia | lia | | done |].
    { intros j Hj. destruct (Hreadable j) as [r' Hr']; [lia |]. by exists r'. }
    exists k'. split; [exact Hrun |].
    replace (i + 1) with (S (i - 0)) by lia. by apply reads_step.
Qed.

(** X15.  One slot whose string does not decode blocks the keychain: when
    slot [i], of index at most [MAX_KEYS + 1], is the first that raises on
    reading, [get_all_public_keys] raises its error after reading the slots
    0..[i], and [add_private_key] of a valid mnemonic raises it too and
    writes nothing.  This holds for the slot [MAX_KEYS + 1] as well, whose
    record no enumeration returns. *)
Theorem X15_undecodable_slot (i : nat) (e : exn) (k : keyring) :
  i ≤ MAX_KEYS + 1 → record_at k i = Err e → (∀ j, j < i → readable k j) →
  (∃ k', get_all_public_keys k = Some (Err e, k') ∧ reads k 0 (i + 1) k')
  ∧ ∀ fuel mnemonic passphrase entropy,
      pbkdf2_ok → bytes_from_mnemonic mnemonic = Ok entropy → i < fuel →
      ∃ k', add_private_key fuel mnemonic passphrase k = Some (Err e, k')
            ∧ entries k' = entries k.
Proof.
  intros Hi Herr Hreadable. split; [by apply get_all_public_keys_err |].
  intros fuel mnemonic passphrase entropy Hkdf Hentropy Hfuel.
  unfold add_private_key. rewrite run_bind. unfold lift at 1.
  rewrite (mnemonic_to_seed_derive _ _ Hkdf). rewrite run_bind. unfold lift at 1.
  rewrite Hentropy. rewrite run_bind. unfold _get_free_private_key_index.
  destruct (least_index (λ j, ¬ occupied k j) i) as (i0 & Hi0 & Hfree & Hleast).
  { intros [r Hr]. congruence. }
  assert (Hocc : ∀ j, 0 ≤ j < i0 → occupied k j).
  { intros j Hj. destruct (decide (occupied k j)) as [|Hno]; [done |].
    destruct (Hleast j); [lia | done]. }
  destruct (decide (i0 = i)) as [->|Hne].
  - destruct (free_index_from_err fuel 0 i e k) as (k1 & -> & [He1 _]); [lia | lia | done.. |].
    by exists k1.
  - destruct (free_index_from_run fuel 0 i0 k) as (k1 & -> & [He1 _]); [lia | lia | done | |].
    { apply not_occupied_readable; [apply Hreadable; lia | done]. }
    rewrite run_bind.
    destruct (get_all_public_keys_err i e k1) as (k2 & -> & [He2 _]); [done | | |].
    + intros j Hj. destruct (Hreadable j Hj) as [r Hr]. exists r.
      by rewrite (record_at_entries k k1).
    + by rewrite (record_at_entries k k1).
    + exists k2. split; [done | congruence].
Qed.

(** X16.  [_get_free_private_key_index] looks at the slots in order and
    stops at the first that holds no record: with the slots before [i]
    occupied, it needs [i + 1] steps, reads the slots 0..[i] and nothing
    else, and returns [i] when slot [i] has no entry or an empty string, or
    raises the error that reading slot [i] gives. *)
Theorem X16_free_index (fuel i : nat) (k : keyring) :
  (∀ j, j < i → occupied k j) →
  (fuel ≤ i → _get_free_private_key_index fuel k = None)
  ∧ (i < fuel → slot k i = None ∨ slot k i = Some "" →
     ∃ k', _get_free_private_key_index fuel k = Some (Ok i, k') ∧ reads k 0 (i + 1) k')
  ∧ (i < fuel → ∀ e, record_at k i = Err e →
     ∃ k', _get_free_private_key_index fuel k = Some (Err e, k') ∧ reads k 0 (i + 1) k').
Proof.
  intros Hocc. unfold _get_free_private_key_index. split; [|split].
  - intros Hfuel. apply free_index_from_out_of_fuel. intros j Hj. apply Hocc. lia.
  - intros Hfuel Hslot.
    destruct (free_index_from_run fuel 0 i k) as (k' & Hrun & Hreads);
      [lia | lia | intros; apply Hocc; lia | |].
    { unfold record_at. by destruct Hslot as [->| ->]. }
    exists k'. split; [done |]. by rewrite Nat.sub_0_r in Hreads.
  - intros Hfuel e Herr.
    destruct (free_index_from_err fuel 0 i e k) as (k' & Hrun & Hreads);
      [lia | lia | intros; apply Hocc; lia | done |].
    exists k'. split; [done |]. by rewrite Nat.sub_0_r in Hreads.
Qed.

(** *** The passphrase gate *)

Lemma concat_replicate_comm {A : Type} (n : nat) (l : list A) :
  concat (replicate n l) ++ l = l ++ concat (replicate n l).
Proof.
  induction n as [|n IH]; cbn [replicate concat]; [by rewrite app_nil_r |].
  by rewrite <- app_assoc, IH.
Qed.

Lemma first_valid_Some (retries from i : nat) :
  first_valid retries from = Some i ↔
  i < retries ∧ master_passphrase_is_valid (getpass (from + i)) = true
  ∧ ∀ j, j < i → master_passphrase_is_valid (getpass (from + j)) = false.
Proof.
  revert from i. induction retries as [|retries IH]; intros from i; cbn [first_valid].
  - split; [done | lia].
  - destruct (master_passphrase_is_valid (getpass from)) eqn:Hvalid.
    + split.
      * intros [= <-]. rewrite Nat.add_0_r. split; [lia |]. split; [done | lia].
      * intros (_ & _ & Hbefore). destruct i as [|i]; [done |].
        specialize (Hbefore 0). rewrite Nat.add_0_r in Hbefore. rewrite Hbefore in Hvalid by lia.
        done.
    + rewrite fmap_Some. split.
      * intros (i' & (Hi' & Hv & Hbefore)%IH & ->). split; [lia |].
        replace (from + S i') with (S from + i') by lia. split; [done |].
        intros [|j] Hj; [by rewrite Nat.add_0_r |].
        replace (from + S j) with (S from + j) by lia. apply Hbefore. lia.
      * intros (Hi & Hv & Hbefore). destruct i as [|i].
        { rewrite Nat.add_0_r in Hv. congruence. }
        exists i. split; [|done]. apply IH. split; [lia |].
        replace (S from + i) with (from + S i) by lia. split; [done |].
        intros j Hj. replace (S from + j) with (from + S j) by lia. apply Hbefore. lia.
Qed.

Lemma first_valid_None (retries from : nat) :
  first_valid retries from = None ↔
  ∀ j, j < retries → master_passphrase_is_valid (getpass (from + j)) = false.
Proof.
  revert from. induction retries as [|retries IH]; intros from; cbn [first_valid].
  - split; [intros; lia | done].
  - destruct (master_passphrase_is_valid (getpass from)) eqn:Hvalid.
    + split; [done |]. intros Hall. specialize (Hall 0). rewrite Nat.add_0_r in Hall.
      rewrite Hall in Hvalid by lia. done.
    + rewrite fmap_None, IH. split.
      * intros Hall [|j] Hj; [by rewrite Nat.add_0_r |].
        replace (from + S j) with (S from + j) by lia. apply Hall. lia.
      * intros Hall j Hj. replace (S from + j) with (from + S j) by lia. apply Hall. lia.
Qed.

(** The loop, in closed form. *)
Lemma obtain_current_passphrase_loop_run (retries : nat) (prompt : string)
    (use_passphrase_cache : bool) (s : session) :
  obtain_current_passphrase_loop retries prompt use_passphrase_cache s
  = match first_valid retries (prompts s) with
    | Some i =>
        (Ok (getpass (prompts s + i)),
         Session (if use_passphrase_cache then (Some (getpass (prompts s + i)), true)
                  else cached s)
                 (prompts s + i + 1)
                 (Prompt prompt :: concat (replicate i (failed_attempt prompt)) ++ events s))
    | None =>
        (Err (ValueError "maximum passphrase attempts reached"),
         Session (cached s) (prompts s + retries)
                 (concat (replicate retries (failed_attempt prompt)) ++ events s))
    end.
Proof.
  revert s. induction retries as [|retries IH]; intros s;
    cbn [obtain_current_passphrase_loop first_valid].
  - destruct s as [c n ev]. cbn [cached prompts events replicate concat app].
    by rewrite Nat.add_0_r.
  - destruct (master_passphrase_is_valid (getpass (prompts s))) eqn:Hvalid.
    + destruct s as [c n ev]. cbn [cached prompts events replicate concat app].
      rewrite Nat.add_0_r. replace (n + 1) with (S n) by lia.
      by destruct use_passphrase_cache.
    + rewrite IH. destruct s as [c n ev]. cbn [tell cached prompts events].
      destruct (first_valid retries (S n)) as [i|]; cbn [fmap option_fmap option_map].
      * replace (S n + i) with (n + S i) by lia. do 3 f_equal.
        cbn [replicate concat]. rewrite <- concat_replicate_comm. by rewrite <- app_assoc.
      * replace (S n + retries) with (n + S retries) by lia. do 2 f_equal.
        cbn [replicate concat]. rewrite <- concat_replicate_comm. by rewrite <- app_assoc.
Qed.

Lemma obtain_current_passphrase_loop_facts (retries : nat) (prompt : string)
    (use_passphrase_cache : bool) (s s' : session) (r : result string) :
  obtain_current_passphrase_loop retries prompt use_passphrase_cache s = (r, s') →
  prompts s < prompts s' + (if bool_decide (retries = 0) then 1 else 0)
  ∧ prompts s' ≤ prompts s + retries
  ∧ (∀ p, r = Ok p → master_passphrase_is_valid p = true
                     ∧ cached s' = if use_passphrase_cache then (Some p, true) else cached s)
  ∧ (∀ e, r = Err e →
       e = ValueError "maximum passphrase attempts reached"
       ∧ prompts s' = prompts s + retries ∧ cached s' = cached s
       ∧ ∀ j, j < retries → master_passphrase_is_valid (getpass (prompts s + j)) = false).
Proof.
  rewrite obtain_current_passphrase_loop_run.
  destruct (first_valid retries (prompts s)) as [i|] eqn:Hfirst.
  - apply first_valid_Some in Hfirst as (Hi & Hvalid & _). intros [= <- <-].
    cbn [prompts cached]. rewrite bool_decide_false by lia.
    split; [lia |]. split; [lia |]. split; [|done]. by intros p [= <-].
  - pose proof (proj1 (first_valid_None _ _) Hfirst) as Hall. intros [= <- <-].
    cbn [prompts cached].
    split; [case_bool_decide; lia |]. split; [lia |]. split; [done |]. by intros e [= <-].
Qed.

(** An exception of [obtain_current_passphrase] is the one of its loop,
    raised after [MAX_RETRIES] prompts. *)
Lemma obtain_current_passphrase_raises (prompt : string) (use_passphrase_cache : bool)
    (s s' : session) (e : exn) :
  obtain_current_passphrase prompt use_passphrase_cache s = (Err e, s') →
  e = ValueError "maximum passphrase attempts reached"
  ∧ prompts s' = prompts s + MAX_RETRIES.
Proof.
  assert (Hloop : ∀ s0, prompts s0 = prompts s →
            obtain_current_passphrase_loop MAX_RETRIES prompt use_passphrase_cache s0
            = (Err e, s') →
            e = ValueError "maximum passphrase attempts reached"
            ∧ prompts s' = prompts s + MAX_RETRIES).
  { intros s0 Hs0 (_ & _ & _ & Herr)%obtain_current_passphrase_loop_facts.
    destruct (Herr e eq_refl) as (-> & Hn & _). by rewrite <- Hs0. }
  unfold obtain_current_passphrase, get_cached_master_passphrase.
  destruct use_passphrase_cache; [|by apply Hloop].
  destruct (cached s) as [[p0|] validated] eqn:Hcached; [|by apply Hloop].
  destruct (truthy (Some p0)); [|by apply Hloop].
  destruct validated; [done |].
  destruct (master_passphrase_is_valid p0); [done | by apply Hloop].
Qed.


(** X18.  Without the cache, the answers decide: when, among the next
    [MAX_RETRIES] answers, the one of index [i] is the first that the
    validator accepts, it is returned after [i + 1] prompts, each refused
    answer being followed by the delay and the line "Incorrect passphrase";
    when none is accepted, [ValueError] is raised after [MAX_RETRIES] prompts.
    The cache is not changed. *)
Theorem X18_obtain_current_passphrase_attempts (prompt : string) (s : session) :
  (∀ i, i < MAX_RETRIES →
     (∀ j, j < i → master_passphrase_is_valid (getpass (prompts s + j)) = false) →
     master_passphrase_is_valid (getpass (prompts s + i)) = true →
     obtain_current_passphrase prompt false s
     = (Ok (getpass (prompts s + i)),
        Session (cached s) (prompts s + i + 1)
                (Prompt prompt :: concat (replicate i (failed_attempt prompt)) ++ events s)))
  ∧ ((∀ j, j < MAX_RETRIES → master_passphrase_is_valid (getpass (prompts s + j)) = false) →
     obtain_current_passphrase prompt false s
     = (Err (ValueError "maximum passphrase attempts reached"),
        Session (cached s) (prompts s + MAX_RETRIES)
                (concat (replicate MAX_RETRIES (failed_attempt prompt)) ++ events s))).
Proof.
  unfold obtain_current_passphrase. rewrite obtain_current_passphrase_loop_run. split.
  - intros i Hi Hbefore Hvalid.
    by rewrite (proj2 (first_valid_Some MAX_RETRIES (prompts s) i)).
  - intros Hall. by rewrite (proj2 (first_valid_None MAX_RETRIES (prompts s))).
Qed.

(** X19.  The cache of the master passphrase.  A call that does not use the
    cache leaves it as it is.  A call that uses it and returns a passphrase
    that is not empty leaves that passphrase cached as validated, and the
    next call that uses the cache returns it without a prompt and changes
    nothing.  A cached passphrase that the validator refuses is dropped from
    the cache.  An empty cached passphrase counts as none: the user is asked
    even when it is cached as validated. *)
Theorem X19_passphrase_cache (prompt : string) (s s' : session) (r : result string) :
  (obtain_current_passphrase prompt false s = (r, s') → cached s' = cached s)
  ∧ (obtain_current_passphrase prompt true s = (r, s') →
     (∀ p, r = Ok p → p ≠ "" →
        cached s' = (Some p, true)
        ∧ ∀ prompt', obtain_current_passphrase prompt' true s' = (Ok p, s'))
     ∧ (∀ p, cached s = (Some p, false) → p ≠ "" → master_passphrase_is_valid p = false →
          cached s' = match r with
                      | Ok q => (Some q, true)
                      | Err _ => (None, default_validated)
                      end)
     ∧ (∀ validated, cached s = (Some "", validated) → prompts s < prompts s')).
Proof.
  split.
  - unfold obtain_current_passphrase.
    intros (_ & _ & Hok & Herr)%obtain_current_passphrase_loop_facts.
    destruct r as [p|e]; [by apply (Hok p) | by apply (Herr e)].
  - intros Hrun.
    assert (Hagain : ∀ p, p ≠ "" → cached s' = (Some p, true) →
              ∀ prompt', obtain_current_passphrase prompt' true s' = (Ok p, s')).
    { intros p Hp Hc prompt'. unfold obtain_current_passphrase, get_cached_master_passphrase.
      rewrite Hc. by destruct p. }
    assert (Hloop : ∀ s0, obtain_current_passphrase_loop MAX_RETRIES prompt true s0 = (r, s') →
              (∀ p, r = Ok p → cached s' = (Some p, true))
              ∧ (∀ e, r = Err e → cached s' = cached s0)
              ∧ prompts s0 < prompts s').
    { intros s0 (Hlow & _ & Hok & Herr)%obtain_current_passphrase_loop_facts.
      rewrite bool_decide_false in Hlow by (unfold MAX_RETRIES; lia). split; [|split; [|lia]].
      - intros p Hp. by apply (Hok p).
      - intros e He. by apply (Herr e). }
    unfold obtain_current_passphrase, get_cached_master_passphrase in Hrun.
    destruct (cached s) as [[p0|] validated0] eqn:Hcached.
    2:{ apply Hloop in Hrun as (Hok & _ & _). split; [|done].
        intros p Hp Hne. split; [by apply Hok |]. apply Hagain; [done | by apply Hok]. }
    destruct p0 as [|c p0]; cbn [truthy] in Hrun.
    { apply Hloop in Hrun as (Hok & _ & Hlt). split; [|split; [by intros p [= <- _] |done]].
      intros p Hp Hne. split; [by apply Hok |]. apply Hagain; [done | by apply Hok]. }
    destruct validated0.
    { injection Hrun as <- <-. split; [|split; [done | done]].
      intros p [= <-] Hne. split; [done |]. by apply Hagain. }
    destruct (master_passphrase_is_valid (String c p0)) eqn:Hvalid.
    { injection Hrun as <- <-. split; [|split; [|done]].
      - intros p [= <-] Hne. split; [done |]. by apply Hagain.
      - intros p [= <-] _ Hbad. congruence. }
    apply Hloop in Hrun as (Hok & Herr & _). split; [|split; [|done]].
    + intros p Hp Hne. split; [by apply Hok |]. apply Hagain; [done | by apply Hok].
    + intros p _ _ _. destruct r as [q|e]; [by apply Hok | by rewrite (Herr e)].
Qed.


(** *** The lookup by fingerprint, exactly *)

Lemma key_by_fingerprint_for_slot_exact (fingerprint : N) (pp : string) (rest : list string)
    (rec : G1Element * bytes) :
  (∀ pp', pp' ∈ pp :: rest → ∃ key, regenerate rec.2 pp' = Ok key) →
  key_by_fingerprint_for_slot rec.1 rec.2 fingerprint (pp :: rest)
  = Ok (key_for_fingerprint fingerprint pp rec).
Proof.
  intros Hall. unfold key_for_fingerprint. case_bool_decide as Hfp.
  - cbn [key_by_fingerprint_for_slot].
    destruct (Hall pp) as [key ->]; [apply list_elem_of_here |]. cbn [mbind result_bind].
    by rewrite bool_decide_true.
  - by apply key_by_fingerprint_for_slot_other.
Qed.


End Keychain.

(** ** Two keychains *)

Lemma append_assoc (a b c : string) : (a +:+ b) +:+ c = a +:+ b +:+ c.
Proof. induction a as [|x a IH]; [reflexivity | exact (f_equal (String x) IH)]. Qed.

(** X14.  The names of the slots.  Within one keychain, slots of different
    indices have different names.  Across keychains the names can coincide:
    the testing keychain of a user [u] has the service and the slot names of
    the keychain, not for testing, of the user [u] followed by [-test], so
    that the two share their keys. *)
Theorem X14_slot_names (u : string) :
  (∀ self i j, _get_private_key_user self i = _get_private_key_user self j → i = j)
  ∧ _get_service {| testing := true; user := u |}
    = _get_service {| testing := false; user := u +:+ "-test" |}
  ∧ ∀ i, _get_private_key_user {| testing := true; user := u |} i
         = _get_private_key_user {| testing := false; user := u +:+ "-test" |} i.
Proof.
  split; [intros self i j; apply _get_private_key_user_inj |]. split; [done |].
  intros i. unfold _get_private_key_user. cbn [testing user]. f_equal.
  by rewrite append_assoc.
Qed.

(** ** Concrete runs *)

(** The stand-ins have the properties assumed of the real libraries. *)

Lemma index_words_ok : vocabulary_ok index_words.
Proof.
  split; [by vm_compute |]. split.
  - apply NoDup_fmap_2; [|apply NoDup_seq]. intros i j H%append_inj_r.
    by apply (inj pretty) in H.
  - apply (bool_decide_unpack _). by vm_compute.
Qed.

Lemma sha256_ok : hash_ok Sha256.sha256.
Proof. intros b. reflexivity. Qed.

Lemma standin_pbkdf2_ok : pbkdf2_ok Standin.pbkdf2_hmac.
Proof.
  split; [done |]. intros name password salt iterations dklen.
  unfold Standin.pbkdf2_hmac. cbn [default]. rewrite length_take.
  assert (Hlen : ∀ l : list nat,
            length (concat (map (λ i : nat,
                      Sha256.sha256 (password ++ [x00] ++ salt
                                     ++ [Sha256.byte_of_N (N.of_nat i)])) l))
            = 32 * length l).
  { induction l as [|i l IH]; [done |]. cbn [map concat]. rewrite length_app, IH.
    rewrite sha256_ok. simpl. lia. }
  rewrite Hlen, length_seq. pose proof (Nat.div_mod_eq dklen 32).
  pose proof (Nat.mod_upper_bound dklen 32). unfold id. lia.
Qed.

Lemma standin_bls_ok :
  bls_ok Standin.G1Element Standin.G1Element_to_bytes Standin.G1Element_from_bytes
         Standin.G1Element_SIZE.
Proof. split; intros [[[a b] c] d]; reflexivity. Qed.

(** The model instantiated with the stand-ins: the codec, and the operations
    on the default keychain over a keyring that raises on deleting what is
    not there. *)
Abbreviation encode := (bytes_to_mnemonic index_words Sha256.sha256).
Abbreviation decode := (bytes_from_mnemonic index_words Sha256.sha256).
Abbreviation add :=
  (add_private_key index_words Sha256.sha256 Standin.normalize Standin.encode_utf8
     Standin.pbkdf2_hmac Standin.PrivateKey Standin.G1Element Standin.key_gen Standin.get_g1
     Standin.get_fingerprint Standin.G1Element_to_bytes Standin.G1Element_from_bytes
     Standin.G1Element_SIZE Standin.keychain).
Abbreviation all_public_keys :=
  (get_all_public_keys Standin.G1Element Standin.G1Element_from_bytes Standin.G1Element_SIZE
     Standin.keychain).
Abbreviation first_private_key :=
  (get_first_private_key index_words Sha256.sha256 Standin.normalize Standin.encode_utf8
     Standin.pbkdf2_hmac Standin.PrivateKey Standin.G1Element Standin.key_gen Standin.get_g1
     Standin.G1Element_from_bytes Standin.G1Element_SIZE Standin.keychain).
Abbreviation all_private_keys :=
  (get_all_private_keys index_words Sha256.sha256 Standin.normalize Standin.encode_utf8
     Standin.pbkdf2_hmac Standin.PrivateKey Standin.G1Element Standin.key_gen Standin.get_g1
     Standin.G1Element_from_bytes Standin.G1Element_SIZE Standin.keychain).
Abbreviation key_by_fingerprint :=
  (get_private_key_by_fingerprint index_words Sha256.sha256 Standin.normalize
     Standin.encode_utf8 Standin.pbkdf2_hmac Standin.PrivateKey Standin.G1Element
     Standin.key_gen Standin.get_fingerprint Standin.G1Element_from_bytes
     Standin.G1Element_SIZE Standin.keychain).
Abbreviation delete_by_fingerprint :=
  (delete_key_by_fingerprint Standin.G1Element Standin.get_fingerprint
     Standin.G1Element_from_bytes Standin.G1Element_SIZE true Standin.keychain).
Abbreviation delete_all :=
  (delete_all_keys Standin.G1Element Standin.G1Element_from_bytes Standin.G1Element_SIZE true
     Standin.keychain).
Abbreviation record :=
  (record_at Standin.G1Element Standin.G1Element_from_bytes Standin.G1Element_SIZE
     Standin.keychain).
Abbreviation key :=
  (key_of Standin.normalize Standin.encode_utf8 Standin.pbkdf2_hmac Standin.PrivateKey
     Standin.key_gen).
Abbreviation public_key mnemonic passphrase := (Standin.get_g1 (key mnemonic passphrase)).
Abbreviation fingerprint mnemonic passphrase :=
  (Standin.get_fingerprint (public_key mnemonic passphrase)).
Abbreviation stored :=
  (record_string Standin.normalize Standin.encode_utf8 Standin.pbkdf2_hmac
     Standin.PrivateKey Standin.G1Element Standin.key_gen Standin.get_g1
     Standin.G1Element_to_bytes).
Abbreviation keyring_with := (keyring_of Standin.keychain).

(** The mnemonic of an entropy, over the stand-in vocabulary. *)
Definition mnemonic_of (entropy : bytes) : string :=
  match encode entropy with Ok m => m | Err _ => "" end.

(** What [add_private_key] stores for the 101 mnemonics of the entropies
    00..00, 01..01, ..., 64..64 (sixteen bytes each) under the empty
    passphrase, and the keyring whose slots 0..[MAX_KEYS] hold them. *)
Definition full_records : list (option string) :=
  Eval vm_compute in
    map (λ i, let entropy := replicate 16 (Sha256.byte_of_N (N.of_nat i)) in
              Some (stored (mnemonic_of entropy) "" entropy))
        (seq 0 101).

Definition full_keyring : keyring := keyring_with full_records.

Lemma full_keyring_occupied (j : nat) :
  j < 101 →
  occupied Standin.G1Element Standin.G1Element_from_bytes Standin.G1Element_SIZE
    Standin.keychain full_keyring j.
Proof.
  intros Hj.
  assert (Hall : Forall (occupied Standin.G1Element Standin.G1Element_from_bytes
                           Standin.G1Element_SIZE Standin.keychain full_keyring) (seq 0 101)).
  { apply (bool_decide_unpack _). by vm_compute. }
  rewrite Forall_seq in Hall. apply Hall. lia.
Qed.

Lemma full_keyring_readable (j : nat) :
  readable Standin.G1Element Standin.G1Element_from_bytes Standin.G1Element_SIZE
    Standin.keychain full_keyring j.
Proof.
  destruct (decide (j < 101)) as [Hj|Hj].
  - destruct (full_keyring_occupied j Hj) as [r Hr]. by exists (Some r).
  - exists None. apply record_at_None. unfold full_keyring. rewrite slot_keyring_of.
    rewrite lookup_ge_None_2; [done |]. assert (Hlen : length full_records = 101) by done. lia.
Qed.

Lemma full_keyring_new :
  ¬ enumerable Standin.G1Element Standin.get_fingerprint Standin.G1Element_from_bytes
      Standin.G1Element_SIZE Standin.keychain full_keyring (fingerprint Standin.mnemonic_ff "").
Proof.
  rewrite <- enumerable_occupants. apply (bool_decide_unpack _). by vm_compute.
Qed.

(** *** The claims at concrete inputs *)

(** C1 at the entropy of sixteen zero bytes. *)
Lemma C1_witness :
  vocabulary_ok index_words ∧ hash_ok Sha256.sha256
  ∧ (∃ m, encode (replicate 16 x00) = Ok m ∧ decode m = Ok (replicate 16 x00))
  ∧ encode (replicate 16 x00) = Ok Standin.mnemonic_00.
Proof.
  split; [exact index_words_ok |]. split; [exact sha256_ok |].
  destruct (C1_mnemonic_round_trip index_words Sha256.sha256 index_words_ok sha256_ok)
    as [Hde Hed].
  split.
  - apply Hde. apply list_elem_of_here.
  - apply Hed. vm_compute. reflexivity.
Defined.

(** C2 at a keyring whose slot 0 holds the key of the second mnemonic under
    the passphrase abc, asked for with the empty passphrase as only candidate:
    the key of the empty passphrase is returned, whose public key is not the
    stored one.  The same happens when the key is first added to the empty
    keyring. *)
Lemma C2_witness :
  record (keyring_with [Some (stored Standin.mnemonic_80 "abc" (replicate 16 x80))]) 0
  = Ok (Some (public_key Standin.mnemonic_80 "abc", replicate 16 x80))
  ∧ regenerate index_words Sha256.sha256 Standin.normalize Standin.encode_utf8
      Standin.pbkdf2_hmac Standin.PrivateKey Standin.key_gen (replicate 16 x80) ""
    = Ok (key Standin.mnemonic_80 "")
  ∧ (∃ k', key_by_fingerprint (fingerprint Standin.mnemonic_80 "abc") [""]
             (keyring_with [Some (stored Standin.mnemonic_80 "abc" (replicate 16 x80))])
           = Some (Ok (Some (key Standin.mnemonic_80 "", replicate 16 x80)), k'))
  ∧ public_key Standin.mnemonic_80 "" ≠ public_key Standin.mnemonic_80 "abc"
  ∧ fst <$> (_ ← add 1 Standin.mnemonic_80 "abc";
             key_by_fingerprint (fingerprint Standin.mnemonic_80 "abc") [""])
              Standin.empty_keyring
    = Some (Ok (Some (key Standin.mnemonic_80 "", replicate 16 x80))).
Proof.
  assert (Hrec : record (keyring_with [Some (stored Standin.mnemonic_80 "abc"
                                               (replicate 16 x80))]) 0
                 = Ok (Some (public_key Standin.mnemonic_80 "abc", replicate 16 x80)))
    by (by vm_compute).
  assert (Hkey : regenerate index_words Sha256.sha256 Standin.normalize Standin.encode_utf8
                   Standin.pbkdf2_hmac Standin.PrivateKey Standin.key_gen (replicate 16 x80)
                   ""
                 = Ok (key Standin.mnemonic_80 "")) by (by vm_compute).
  split; [exact Hrec |]. split; [exact Hkey |]. split.
  - exact (C2_fingerprint_lookup_returns_first_candidate index_words Sha256.sha256
             Standin.normalize Standin.encode_utf8 Standin.pbkdf2_hmac Standin.PrivateKey
             Standin.G1Element Standin.key_gen Standin.get_fingerprint
             Standin.G1Element_from_bytes Standin.G1Element_SIZE Standin.keychain
             _ _ _ _ [] _ Hrec Hkey).
  - split; [vm_compute; discriminate | by vm_compute].
Defined.

(** C3 fails as stated: on the empty keyring [get_all_public_keys] makes
    [MAX_KEYS + 2] = 102 calls to the keyring, the last of them for the slot
    of index 101. *)
Lemma C3_counterexample :
  ∃ k', all_public_keys Standin.empty_keyring = Some (Ok [], k')
        ∧ length (calls k') = 102
        ∧ MAX_KEYS + 1 < length (calls k')
        ∧ calls k' !! 0 = Some (GetPassword "chia-user-chia-1.8" "wallet-user-chia-1.8-101").
Proof.
  eexists. split; [vm_compute; reflexivity |].
  split; [by vm_compute |]. split; [vm_compute; lia | by vm_compute].
Qed.




(** C6 at a keyring with the slots 0 and 2 occupied and a hole at slot 1,
    which raises when the entry of slot 1 is deleted. *)
Lemma C6_witness :
  (∀ i, i ≤ MAX_KEYS + 1 →
     readable Standin.G1Element Standin.G1Element_from_bytes Standin.G1Element_SIZE
       Standin.keychain
       (keyring_with [Some (stored Standin.mnemonic_00 "" (replicate 16 x00)); None;
                      Some (stored Standin.mnemonic_80 "abc" (replicate 16 x80))]) i)
  ∧ ∃ fuel0, ∀ fuel, fuel0 ≤ fuel →
      ∃ k', delete_all fuel
              (keyring_with [Some (stored Standin.mnemonic_00 "" (replicate 16 x00)); None;
                             Some (stored Standin.mnemonic_80 "abc" (replicate 16 x80))])
            = Some (Ok (), k')
            ∧ (∀ i, i ≤ MAX_KEYS → slot Standin.keychain k' i = None)
            ∧ ∃ k'', all_public_keys k' = Some (Ok [], k'').
Proof.
  assert (Hread : ∀ i, i ≤ MAX_KEYS + 1 →
            readable Standin.G1Element Standin.G1Element_from_bytes Standin.G1Element_SIZE
              Standin.keychain
              (keyring_with [Some (stored Standin.mnemonic_00 "" (replicate 16 x00)); None;
                             Some (stored Standin.mnemonic_80 "abc" (replicate 16 x80))]) i).
  { intros i _. apply keyring_of_readable.
    repeat constructor; eexists; vm_compute; reflexivity. }
  split; [exact Hread |].
  exact (C6_delete_all_wipes Standin.G1Element Standin.G1Element_from_bytes
           Standin.G1Element_SIZE true Standin.keychain _ Hread).
Defined.

(** C6 fails as stated: on a keyring whose slot 1 holds a string that is
    not hexadecimal, between the keys of the first two mnemonics,
    [delete_all_keys] returns and has emptied the slots 0 and 2, but slot 1
    still holds its string, and [get_all_public_keys] then raises instead of
    returning the empty list. *)
Lemma C6_counterexample :
  ∃ k',
    delete_all 103
      (keyring_with [Some (stored Standin.mnemonic_00 "" (replicate 16 x00)); Some "zz";
                     Some (stored Standin.mnemonic_80 "abc" (replicate 16 x80))])
    = Some (Ok (), k')
    ∧ slot Standin.keychain k' 0 = None
    ∧ slot Standin.keychain k' 1 = Some "zz"
    ∧ slot Standin.keychain k' 2 = None
    ∧ 1 ≤ MAX_KEYS
    ∧ (∃ msg k'', all_public_keys k' = Some (Err (ValueError msg), k''))
    ∧ ∀ k'', all_public_keys k' ≠ Some (Ok [], k'').
Proof.
  eexists. split; [vm_compute; reflexivity |].
  split; [by vm_compute |]. split; [by vm_compute |]. split; [by vm_compute |].
  split; [vm_compute; lia |].
  split; [eexists _, _; vm_compute; reflexivity |].
  intros k''. vm_compute. discriminate.
Qed.

(** C7 at the four mnemonics, each with the empty passphrase, from the empty
    keyring. *)
Lemma C7_witness :
  ∃ k3 k3' k4,
    (_ ← add 3 Standin.mnemonic_00 ""; _ ← add 3 Standin.mnemonic_80 "";
     add 3 Standin.mnemonic_ff "") Standin.empty_keyring
    = Some (Ok (key Standin.mnemonic_ff ""), k3)
    ∧ slot Standin.keychain k3 1 = Some (stored Standin.mnemonic_80 "" (replicate 16 x80))
    ∧ delete_by_fingerprint (fingerprint Standin.mnemonic_80 "") k3 = Some (Ok (), k3')
    ∧ slot Standin.keychain k3' 1 = None
    ∧ add 3 Standin.mnemonic_7f "" k3' = Some (Ok (key Standin.mnemonic_7f ""), k4)
    ∧ slot Standin.keychain k4 0 = Some (stored Standin.mnemonic_00 "" (replicate 16 x00))
    ∧ slot Standin.keychain k4 1 = Some (stored Standin.mnemonic_7f "" (replicate 16 x7f))
    ∧ slot Standin.keychain k4 2 = Some (stored Standin.mnemonic_ff "" (replicate 16 xff)).
Proof.
  destruct (C7_lowest_free_slot index_words Sha256.sha256 Standin.normalize
              Standin.encode_utf8 Standin.pbkdf2_hmac Standin.PrivateKey Standin.G1Element
              Standin.key_gen Standin.get_g1 Standin.get_fingerprint
              Standin.G1Element_to_bytes Standin.G1Element_from_bytes Standin.G1Element_SIZE
              true Standin.keychain standin_pbkdf2_ok standin_bls_ok) as [_ Hscenario].
  destruct (Hscenario Standin.empty_keyring
              Standin.mnemonic_00 "" (replicate 16 x00)
              Standin.mnemonic_80 "" (replicate 16 x80)
              Standin.mnemonic_ff "" (replicate 16 xff)
              Standin.mnemonic_7f "" (replicate 16 x7f) 3)
    as (k3 & k3' & k4 & Hadd3 & _ & H31 & _ & Hdel & _ & H31' & _ & Hadd4 & H40 & H41 & H42).
  - intros i. apply lookup_empty.
  - by vm_compute.
  - by vm_compute.
  - by vm_compute.
  - by vm_compute.
  - by vm_compute.
  - by vm_compute.
  - by vm_compute.
  - by vm_compute.
  - by vm_compute.
  - lia.
  - exists k3, k3', k4. repeat (split; [assumption |]). assumption.
Defined.

(** C8 at the first mnemonic with its last word changed to the word of
    index 4: decoding fails on the checksum. *)
Lemma C8_witness :
  decode Standin.mnemonic_00 = Ok (replicate 16 x00)
  ∧ (decode (join " " (<[11 := "w4"]> (split " " Standin.mnemonic_00)))
       = Err (ValueError "Invalid order of mnemonic words")
     ∨ ∃ e', decode (join " " (<[11 := "w4"]> (split " " Standin.mnemonic_00))) = Ok e'
             ∧ e' ≠ replicate 16 x00).
Proof.
  assert (Hm : decode Standin.mnemonic_00 = Ok (replicate 16 x00)) by (by vm_compute).
  split; [exact Hm |].
  apply (C8_single_word_change index_words Sha256.sha256 Standin.mnemonic_00
           (replicate 16 x00) 11 "w4").
  - by vm_compute.
  - apply index_words_ok.
  - exact Hm.
  - vm_compute. lia.
  - apply (bool_decide_unpack _). by vm_compute.
  - by vm_compute.
Defined.

(** C8 fails as stated: in the first mnemonic, whose last word has index 3,
    the last word is changed to the word of index 23, another word of the
    vocabulary; the result decodes, to the entropy 00..01, instead of failing
    on the checksum. *)
Lemma C8_counterexample :
  decode Standin.mnemonic_00 = Ok (replicate 16 x00)
  ∧ split " " Standin.mnemonic_00 !! 11 = Some "w3"
  ∧ index_words !! 23 = Some "w23"
  ∧ join " " (<[11 := "w23"]> (split " " Standin.mnemonic_00))
    = "w0 w0 w0 w0 w0 w0 w0 w0 w0 w0 w0 w23"
  ∧ decode "w0 w0 w0 w0 w0 w0 w0 w0 w0 w0 w0 w23" = Ok (replicate 15 x00 ++ [x01])
  ∧ decode "w0 w0 w0 w0 w0 w0 w0 w0 w0 w0 w0 w23"
    ≠ Err (ValueError "Invalid order of mnemonic words").
Proof.
  repeat split; by vm_compute.
Qed.



(** C10 at the keyring whose slots 0..[MAX_KEYS] are all occupied, for the
    third mnemonic: the record goes to slot 101, and the enumeration returns
    the same 101 public keys as before. *)
Lemma C10_witness :
  decode Standin.mnemonic_ff = Ok (replicate 16 xff)
  ∧ (∀ j, j < 101 →
       occupied Standin.G1Element Standin.G1Element_from_bytes Standin.G1Element_SIZE
         Standin.keychain full_keyring j)
  ∧ record full_keyring 101 = Ok None
  ∧ (∀ fuel, fuel ≤ 101 → add fuel Standin.mnemonic_ff "" full_keyring = None)
  ∧ ∃ k' k'',
      add 102 Standin.mnemonic_ff "" full_keyring = Some (Ok (key Standin.mnemonic_ff ""), k')
      ∧ slot Standin.keychain k' 101
        = Some (stored Standin.mnemonic_ff "" (replicate 16 xff))
      ∧ all_public_keys k'
        = Some (Ok (occupants Standin.G1Element Standin.G1Element_from_bytes
                      Standin.G1Element_SIZE Standin.keychain full_keyring 0
                      (MAX_KEYS + 1)).*1, k'')
      ∧ public_key Standin.mnemonic_ff ""
        ∉ (occupants Standin.G1Element Standin.G1Element_from_bytes Standin.G1Element_SIZE
             Standin.keychain full_keyring 0 (MAX_KEYS + 1)).*1.
Proof.
  assert (Hm : decode Standin.mnemonic_ff = Ok (replicate 16 xff)) by (by vm_compute).
  assert (Hfree : record full_keyring 101 = Ok None) by (by vm_compute).
  split; [exact Hm |]. split; [exact full_keyring_occupied |]. split; [exact Hfree |].
  destruct (C10_add_beyond_bound index_words Sha256.sha256 Standin.normalize
              Standin.encode_utf8 Standin.pbkdf2_hmac Standin.PrivateKey Standin.G1Element
              Standin.key_gen Standin.get_g1 Standin.get_fingerprint
              Standin.G1Element_to_bytes Standin.G1Element_from_bytes Standin.G1Element_SIZE
              Standin.keychain full_keyring Standin.mnemonic_ff "" (replicate 16 xff) 101
              standin_pbkdf2_ok standin_bls_ok Hm)
    as (Hshort & _ & Hlong).
  - vm_compute. lia.
  - exact full_keyring_occupied.
  - exact Hfree.
  - exact full_keyring_new.
  - split; [exact Hshort |].
    destruct (Hlong 102) as (k' & Hrun & Hslot & _ & [k'' Hall] & Hnotin & _); [lia |].
    exists k', k''. split; [exact Hrun |]. split; [exact Hslot |].
    split; [exact Hall | exact Hnotin].
Defined.

(** *** Further properties at concrete inputs *)

(** The remaining operations on the default keychain, and the passphrase
    gate of a user who types the master passphrase at the third prompt, with
    [False] as the default of [validated]. *)
Abbreviation first_public_key :=
  (get_first_public_key Standin.G1Element Standin.G1Element_from_bytes Standin.G1Element_SIZE
     Standin.keychain).
Abbreviation free_index :=
  (_get_free_private_key_index Standin.G1Element Standin.G1Element_from_bytes
     Standin.G1Element_SIZE Standin.keychain).
Abbreviation obtain :=
  (obtain_current_passphrase Standin.master_passphrase_is_valid false Standin.getpass).
Abbreviation gated has_master_passphrase :=
  (unlocks_keyring has_master_passphrase Standin.master_passphrase_is_valid false
     Standin.getpass "Passphrase: ").

(** X1 at sixteen zero bytes, and at seventeen. *)
Lemma X1_witness :
  length index_words = 2048 ∧ hash_ok Sha256.sha256
  ∧ length (replicate 16 x00) ∈ [16; 20; 24; 28; 32]
  ∧ (∃ ws, encode (replicate 16 x00) = Ok (join " " ws)
           ∧ length ws * 4 = length (replicate 16 x00) * 3
           ∧ Forall (λ w, w ∈ index_words) ws)
  ∧ (length (replicate 17 x00) ∉ [16; 20; 24; 28; 32])
  ∧ encode (replicate 17 x00)
    = Err (ValueError ("Data length should be one of the following: [16, 20, 24, 28, 32], but it is "
                       +:+ pretty (length (replicate 17 x00)) +:+ ".")).
Proof.
  assert (Hlen : length index_words = 2048) by (by vm_compute).
  assert (Hin : length (replicate 16 x00) ∈ [16; 20; 24; 28; 32]) by apply list_elem_of_here.
  assert (Hout : length (replicate 17 x00) ∉ [16; 20; 24; 28; 32]).
  { apply (bool_decide_unpack _). by vm_compute. }
  split; [exact Hlen |]. split; [exact sha256_ok |]. split; [exact Hin |].
  split; [| split; [exact Hout |]].
  - exact (proj2 (X1_bytes_to_mnemonic_words index_words Sha256.sha256 (replicate 16 x00))
             Hlen sha256_ok Hin).
  - exact (proj1 (X1_bytes_to_mnemonic_words index_words Sha256.sha256 (replicate 17 x00))
             Hout).
Defined.

(** X2 at a mnemonic of two words, at one of twelve words whose fourth is
    not in the vocabulary, and at the first mnemonic with a space added. *)
Lemma X2_witness :
  decode "w0 w1" = Err (ValueError "Invalid mnemonic length")
  ∧ decode "w0 w0 w0 zebra w0 w0 w0 w0 w0 w0 w0 wrong"
    = Err (ValueError ("'" +:+ "zebra" +:+ "' is not in the mnemonic dictionary; may be misspelled"))
  ∧ decode Standin.mnemonic_00 = Ok (replicate 16 x00)
  ∧ decode (Standin.mnemonic_00 +:+ " ") = Err (ValueError "Invalid mnemonic length")
  ∧ decode (" " +:+ Standin.mnemonic_00) = Err (ValueError "Invalid mnemonic length").
Proof.
  assert (Hm : decode Standin.mnemonic_00 = Ok (replicate 16 x00)) by (by vm_compute).
  split; [| split; [| split; [exact Hm |]]].
  - apply (proj1 (X2_bytes_from_mnemonic_errors index_words Sha256.sha256 "w0 w1")).
    apply (bool_decide_unpack _). by vm_compute.
  - apply (proj1 (proj2 (X2_bytes_from_mnemonic_errors index_words Sha256.sha256
                           "w0 w0 w0 zebra w0 w0 w0 w0 w0 w0 w0 wrong"))
             ["w0"; "w0"; "w0"] "zebra" ["w0"; "w0"; "w0"; "w0"; "w0"; "w0"; "w0"; "wrong"]).
    + vm_compute. lia.
    + apply list_elem_of_here.
    + by vm_compute.
    + apply (bool_decide_unpack _). by vm_compute.
    + apply (bool_decide_unpack _). by vm_compute.
  - exact (proj2 (proj2 (X2_bytes_from_mnemonic_errors index_words Sha256.sha256
                           Standin.mnemonic_00)) _ Hm).
Defined.

(** X3 at the first mnemonic. *)
Lemma X3_witness :
  decode Standin.mnemonic_00 = Ok (replicate 16 x00)
  ∧ length (replicate 16 x00) ∈ [16; 20; 24; 28; 32]
  ∧ length (replicate 16 x00) * 3 = length (split " " Standin.mnemonic_00) * 4
  ∧ Forall (λ w, w ∈ index_words) (split " " Standin.mnemonic_00)
  ∧ ∀ m', decode m' = Ok (replicate 16 x00) → m' = Standin.mnemonic_00.
Proof.
  assert (Hm : decode Standin.mnemonic_00 = Ok (replicate 16 x00)) by (by vm_compute).
  split; [exact Hm |].
  exact (X3_bytes_from_mnemonic_injective index_words Sha256.sha256 _ _ Hm).
Defined.

(** X4 at a draw of 32 bytes 2a. *)
Lemma X4_witness :
  vocabulary_ok index_words ∧ hash_ok Sha256.sha256 ∧ length (Standin.token_bytes 32) = 32
  ∧ ∃ m, generate_mnemonic index_words Sha256.sha256 Standin.token_bytes = Ok m
         ∧ length (split " " m) = 24
         ∧ decode m = Ok (Standin.token_bytes 32).
Proof.
  assert (Hlen : length (Standin.token_bytes 32) = 32) by reflexivity.
  split; [exact index_words_ok |]. split; [exact sha256_ok |]. split; [exact Hlen |].
  exact (X4_generate_mnemonic index_words Sha256.sha256 Standin.token_bytes
           index_words_ok sha256_ok Hlen).
Defined.



(** X7 at a keyring that holds the key of the first mnemonic in the slots 0
    and 2, and the key of the second mnemonic in slot 1, for the fingerprint
    of the first. *)
Lemma X7_witness :
  (∀ i, i ≤ MAX_KEYS + 1 →
     readable Standin.G1Element Standin.G1Element_from_bytes Standin.G1Element_SIZE
       Standin.keychain
       (keyring_with [Some (stored Standin.mnemonic_00 "" (replicate 16 x00));
                      Some (stored Standin.mnemonic_80 "abc" (replicate 16 x80));
                      Some (stored Standin.mnemonic_00 "" (replicate 16 x00))]) i)
  ∧ ∃ k' k'',
      delete_by_fingerprint (fingerprint Standin.mnemonic_00 "")
        (keyring_with [Some (stored Standin.mnemonic_00 "" (replicate 16 x00));
                       Some (stored Standin.mnemonic_80 "abc" (replicate 16 x80));
                       Some (stored Standin.mnemonic_00 "" (replicate 16 x00))])
      = Some (Ok (), k')
      ∧ ¬ enumerable Standin.G1Element Standin.get_fingerprint Standin.G1Element_from_bytes
            Standin.G1Element_SIZE Standin.keychain k' (fingerprint Standin.mnemonic_00 "")
      ∧ all_public_keys k' = Some (Ok [public_key Standin.mnemonic_80 "abc"], k'').
Proof.
  set (k := keyring_with [Some (stored Standin.mnemonic_00 "" (replicate 16 x00));
                          Some (stored Standin.mnemonic_80 "abc" (replicate 16 x80));
                          Some (stored Standin.mnemonic_00 "" (replicate 16 x00))]).
  assert (Hread : ∀ i, i ≤ MAX_KEYS + 1 →
            readable Standin.G1Element Standin.G1Element_from_bytes Standin.G1Element_SIZE
              Standin.keychain k i).
  { intros i _. apply keyring_of_readable.
    repeat constructor; eexists; vm_compute; reflexivity. }
  split; [exact Hread |].
  destruct (X7_delete_by_fingerprint Standin.G1Element Standin.get_fingerprint
              Standin.G1Element_from_bytes Standin.G1Element_SIZE true Standin.keychain
              (fingerprint Standin.mnemonic_00 "") k Hread)
    as (k' & k'' & Hrun & Hgone & _ & _ & Hall).
  assert (Hleft : (filter (λ rec, Standin.get_fingerprint rec.1
                                  ≠ fingerprint Standin.mnemonic_00 "")
                     (occupants Standin.G1Element Standin.G1Element_from_bytes
                        Standin.G1Element_SIZE Standin.keychain k 0 (MAX_KEYS + 1))).*1
                  = [public_key Standin.mnemonic_80 "abc"]) by (by vm_compute).
  rewrite Hleft in Hall.
  exists k', k''. split; [exact Hrun |]. split; [exact Hgone | exact Hall].
Defined.

(** X8 at a keyring with slot 0 free and the key of the second mnemonic in
    slot 1. *)
Lemma X8_witness :
  ∃ k1 k2,
    all_public_keys
      (keyring_with [None; Some (stored Standin.mnemonic_80 "abc" (replicate 16 x80))])
    = Some (Ok [public_key Standin.mnemonic_80 "abc"], k1)
    ∧ first_public_key
        (keyring_with [None; Some (stored Standin.mnemonic_80 "abc" (replicate 16 x80))])
      = Some (Ok (Some (public_key Standin.mnemonic_80 "abc")), k2).
Proof.
  assert (Hall : ∃ k1,
            all_public_keys
              (keyring_with [None; Some (stored Standin.mnemonic_80 "abc" (replicate 16 x80))])
            = Some (Ok [public_key Standin.mnemonic_80 "abc"], k1))
    by (eexists; vm_compute; reflexivity).
  destruct Hall as [k1 Hall].
  destruct (X8_first_public_key_is_head Sha256.sha256 Standin.PrivateKey Standin.G1Element
              Standin.key_gen Standin.get_g1 Standin.get_fingerprint
              Standin.G1Element_to_bytes Standin.G1Element_from_bytes Standin.G1Element_SIZE
              Standin.keychain _ k1 _ Hall) as [k2 Hfirst].
  exists k1, k2. split; [exact Hall | exact Hfirst].
Defined.

(** X9 at a keyring with the key of the first mnemonic under the empty
    passphrase in slot 0 and the key of the second under abc in slot 1, with
    the candidates abc and the empty passphrase. *)
Lemma X9_witness :
  ∃ k1 k2,
    all_private_keys ["abc"; ""]
      (keyring_with [Some (stored Standin.mnemonic_00 "" (replicate 16 x00));
                     Some (stored Standin.mnemonic_80 "abc" (replicate 16 x80))])
    = Some (Ok [(key Standin.mnemonic_00 "", replicate 16 x00);
                (key Standin.mnemonic_80 "abc", replicate 16 x80)], k1)
    ∧ first_private_key ["abc"; ""]
        (keyring_with [Some (stored Standin.mnemonic_00 "" (replicate 16 x00));
                       Some (stored Standin.mnemonic_80 "abc" (replicate 16 x80))])
      = Some (Ok (Some (key Standin.mnemonic_00 "", replicate 16 x00)), k2).
Proof.
  assert (Hall : ∃ k1,
            all_private_keys ["abc"; ""]
              (keyring_with [Some (stored Standin.mnemonic_00 "" (replicate 16 x00));
                             Some (stored Standin.mnemonic_80 "abc" (replicate 16 x80))])
            = Some (Ok [(key Standin.mnemonic_00 "", replicate 16 x00);
                        (key Standin.mnemonic_80 "abc", replicate 16 x80)], k1))
    by (eexists; vm_compute; reflexivity).
  destruct Hall as [k1 Hall].
  destruct (X9_private_keys_in_order index_words Sha256.sha256 Standin.normalize
              Standin.encode_utf8 Standin.pbkdf2_hmac Standin.PrivateKey Standin.G1Element
              Standin.key_gen Standin.get_g1 Standin.G1Element_from_bytes
              Standin.G1Element_SIZE Standin.keychain _ _ _ k1 Hall) as [_ [k2 Hfirst]].
  exists k1, k2. split; [exact Hall | exact Hfirst].
Defined.

(** X10 at a keyring with the key of the first mnemonic in slot 0. *)
Lemma X10_witness :
  (∀ i, i ≤ MAX_KEYS + 1 →
     readable Standin.G1Element Standin.G1Element_from_bytes Standin.G1Element_SIZE
       Standin.keychain
       (keyring_with [Some (stored Standin.mnemonic_00 "" (replicate 16 x00))]) i)
  ∧ (∃ k', first_private_key []
             (keyring_with [Some (stored Standin.mnemonic_00 "" (replicate 16 x00))])
           = Some (Ok None, k'))
  ∧ (∃ k', key_by_fingerprint (fingerprint Standin.mnemonic_00 "") []
             (keyring_with [Some (stored Standin.mnemonic_00 "" (replicate 16 x00))])
           = Some (Ok None, k'))
  ∧ (∃ k', all_private_keys []
             (keyring_with [Some (stored Standin.mnemonic_00 "" (replicate 16 x00))])
           = Some (Ok [], k')).
Proof.
  assert (Hread : ∀ i, i ≤ MAX_KEYS + 1 →
            readable Standin.G1Element Standin.G1Element_from_bytes Standin.G1Element_SIZE
              Standin.keychain
              (keyring_with [Some (stored Standin.mnemonic_00 "" (replicate 16 x00))]) i).
  { intros i _. apply keyring_of_readable.
    repeat constructor; eexists; vm_compute; reflexivity. }
  split; [exact Hread |].
  destruct (X10_no_candidate_passphrase index_words Sha256.sha256 Standin.normalize
              Standin.encode_utf8 Standin.pbkdf2_hmac Standin.PrivateKey Standin.G1Element
              Standin.key_gen Standin.get_g1 Standin.get_fingerprint
              Standin.G1Element_to_bytes Standin.G1Element_from_bytes Standin.G1Element_SIZE
              Standin.keychain _ Hread) as (Hfirst & Hfind & Hall).
  split; [exact Hfirst |]. split; [exact (Hfind _) | exact Hall].
Defined.

(** X12 at a keyring with nothing in the slots 0..[MAX_KEYS] and the keys of
    the first two mnemonics in the slots 101 and 102: a keyring that deletes
    silently loses both, one that raises keeps the second. *)
Lemma X12_witness :
  (∀ j, readable Standin.G1Element Standin.G1Element_from_bytes Standin.G1Element_SIZE
          Standin.keychain
          (keyring_with (replicate 101 None
                         ++ [Some (stored Standin.mnemonic_00 "" (replicate 16 x00));
                             Some (stored Standin.mnemonic_80 "" (replicate 16 x80))])) j)
  ∧ (∃ k', delete_all_keys Standin.G1Element Standin.G1Element_from_bytes
             Standin.G1Element_SIZE false Standin.keychain 104
             (keyring_with (replicate 101 None
                            ++ [Some (stored Standin.mnemonic_00 "" (replicate 16 x00));
                                Some (stored Standin.mnemonic_80 "" (replicate 16 x80))]))
           = Some (Ok (), k')
           ∧ (∀ i, i ≤ 103 → slot Standin.keychain k' i = None))
  ∧ (∃ k', delete_all 104
             (keyring_with (replicate 101 None
                            ++ [Some (stored Standin.mnemonic_00 "" (replicate 16 x00));
                                Some (stored Standin.mnemonic_80 "" (replicate 16 x80))]))
           = Some (Ok (), k')
           ∧ slot Standin.keychain k' 102
             = Some (stored Standin.mnemonic_80 "" (replicate 16 x80))).
Proof.
  set (k := keyring_with (replicate 101 None
                          ++ [Some (stored Standin.mnemonic_00 "" (replicate 16 x00));
                              Some (stored Standin.mnemonic_80 "" (replicate 16 x80))])).
  assert (Hread : ∀ j, readable Standin.G1Element Standin.G1Element_from_bytes
                         Standin.G1Element_SIZE Standin.keychain k j).
  { apply keyring_of_readable. apply Forall_app. split.
    - apply Forall_replicate. by exists None.
    - repeat constructor; eexists; vm_compute; reflexivity. }
  split; [exact Hread |]. split.
  - destruct (proj1 (X12_delete_all_keys_beyond_bound Standin.G1Element
                       Standin.G1Element_from_bytes Standin.G1Element_SIZE false
                       Standin.keychain 104 k) eq_refl 103)
      as (k' & Hrun & Hnone & _).
    + vm_compute. lia.
    + lia.
    + intros j _. apply Hread.
    + intros j Hj. assert (Hcases : j = 101 ∨ j = 102) by (vm_compute in Hj; lia).
      destruct Hcases as [-> | ->]; eexists; vm_compute; reflexivity.
    + intros [r Hr]. vm_compute in Hr. discriminate Hr.
    + exists k'. split; [exact Hrun | exact Hnone].
  - destruct (proj2 (X12_delete_all_keys_beyond_bound Standin.G1Element
                       Standin.G1Element_from_bytes Standin.G1Element_SIZE true
                       Standin.keychain 104 k) eq_refl 0)
      as (k' & Hrun & Hkept).
    + lia.
    + by vm_compute.
    + vm_compute. lia.
    + exists k'. split; [exact Hrun |]. rewrite Hkept by (vm_compute; lia). by vm_compute.
Defined.

(** X13 at the first key added to the empty keyring. *)
Lemma X13_witness :
  ∃ k', add 1 Standin.mnemonic_00 "" Standin.empty_keyring
        = Some (Ok (key Standin.mnemonic_00 ""), k')
        ∧ untouched Standin.keychain Standin.empty_keyring k'.
Proof.
  assert (Hadd : ∃ k', add 1 Standin.mnemonic_00 "" Standin.empty_keyring
                       = Some (Ok (key Standin.mnemonic_00 ""), k'))
    by (eexists; vm_compute; reflexivity).
  destruct Hadd as [k' Hadd]. exists k'. split; [exact Hadd |].
  exact (proj1 (X13_other_entries_untouched index_words Sha256.sha256 Standin.normalize
                  Standin.encode_utf8 Standin.pbkdf2_hmac Standin.PrivateKey
                  Standin.G1Element Standin.key_gen Standin.get_g1 Standin.get_fingerprint
                  Standin.G1Element_to_bytes Standin.G1Element_from_bytes
                  Standin.G1Element_SIZE true Standin.keychain 1 Standin.empty_keyring k')
           _ _ _ Hadd).
Defined.

(** X15 at a keyring whose slot 0 holds the key of the first mnemonic and
    whose slot 1 holds a string that is not hexadecimal. *)
Lemma X15_witness :
  record (keyring_with [Some (stored Standin.mnemonic_00 "" (replicate 16 x00)); Some "zz"]) 1
  = Err (ValueError "non-hexadecimal number found in fromhex() arg")
  ∧ (∃ k', all_public_keys
             (keyring_with [Some (stored Standin.mnemonic_00 "" (replicate 16 x00));
                            Some "zz"])
           = Some (Err (ValueError "non-hexadecimal number found in fromhex() arg"), k')
           ∧ length (calls k') = 2)
  ∧ decode Standin.mnemonic_80 = Ok (replicate 16 x80)
  ∧ ∃ k', add 2 Standin.mnemonic_80 ""
            (keyring_with [Some (stored Standin.mnemonic_00 "" (replicate 16 x00)); Some "zz"])
          = Some (Err (ValueError "non-hexadecimal number found in fromhex() arg"), k')
          ∧ entries k'
            = entries (keyring_with [Some (stored Standin.mnemonic_00 "" (replicate 16 x00));
                                     Some "zz"]).
Proof.
  set (k := keyring_with [Some (stored Standin.mnemonic_00 "" (replicate 16 x00));
                          Some "zz"]).
  assert (Hbad : record k 1
                 = Err (ValueError "non-hexadecimal number found in fromhex() arg"))
    by (by vm_compute).
  assert (Hm : decode Standin.mnemonic_80 = Ok (replicate 16 x80)) by (by vm_compute).
  destruct (X15_undecodable_slot index_words Sha256.sha256 Standin.normalize
              Standin.encode_utf8 Standin.pbkdf2_hmac Standin.PrivateKey Standin.G1Element
              Standin.key_gen Standin.get_g1 Standin.get_fingerprint
              Standin.G1Element_to_bytes Standin.G1Element_from_bytes Standin.G1Element_SIZE
              Standin.keychain 1 (ValueError "non-hexadecimal number found in fromhex() arg")
              k) as [(k' & Hall & _ & Hcalls) Hadd].
  - vm_compute. lia.
  - exact Hbad.
  - intros [|j] Hj; [| lia]. eexists. vm_compute. reflexivity.
  - split; [exact Hbad |]. split.
    + exists k'. split; [exact Hall |]. rewrite Hcalls. reflexivity.
    + split; [exact Hm |].
      apply (Hadd 2 Standin.mnemonic_80 "" (replicate 16 x80) standin_pbkdf2_ok Hm). lia.
Defined.

(** X16 at a keyring whose slot 0 holds the key of the first mnemonic and
    whose slot 1 holds the empty string. *)
Lemma X16_witness :
  free_index 1 (keyring_with [Some (stored Standin.mnemonic_00 "" (replicate 16 x00));
                              Some ""])
  = None
  ∧ ∃ k', free_index 2 (keyring_with [Some (stored Standin.mnemonic_00 "" (replicate 16 x00));
                                      Some ""])
          = Some (Ok 1, k')
          ∧ length (calls k') = 2.
Proof.
  set (k := keyring_with [Some (stored Standin.mnemonic_00 "" (replicate 16 x00)); Some ""]).
  assert (Hocc : ∀ j, j < 1 →
            occupied Standin.G1Element Standin.G1Element_from_bytes Standin.G1Element_SIZE
              Standin.keychain k j).
  { intros [|j] Hj; [| lia]. eexists. vm_compute. reflexivity. }
  split.
  - exact (proj1 (X16_free_index Standin.G1Element Standin.G1Element_from_bytes
                    Standin.G1Element_SIZE Standin.keychain 1 1 k Hocc) (le_n 1)).
  - destruct (proj1 (proj2 (X16_free_index Standin.G1Element Standin.G1Element_from_bytes
                              Standin.G1Element_SIZE Standin.keychain 2 1 k Hocc)))
      as (k' & Hrun & _ & Hcalls).
    + lia.
    + right. by vm_compute.
    + exists k'. split; [exact Hrun |]. rewrite Hcalls. reflexivity.
Defined.


(** X18 at a fresh session, where the answer of index 2 is the first that is
    accepted, and at a session three prompts later. *)
Lemma X18_witness :
  obtain "Passphrase: " false (Session (None, false) 0 [])
  = (Ok "correct horse",
     Session (None, false) 3
       (Prompt "Passphrase: " :: concat (replicate 2 (failed_attempt "Passphrase: ")) ++ []))
  ∧ obtain "Passphrase: " false (Session (None, false) 3 [])
    = (Err (ValueError "maximum passphrase attempts reached"),
       Session (None, false) (3 + MAX_RETRIES)
         (concat (replicate MAX_RETRIES (failed_attempt "Passphrase: ")) ++ [])).
Proof.
  split.
  - apply (proj1 (X18_obtain_current_passphrase_attempts Standin.master_passphrase_is_valid
                    false Standin.getpass "Passphrase: " (Session (None, false) 0 [])) 2).
    + unfold MAX_RETRIES. lia.
    + intros [|[|j]] Hj; [reflexivity | reflexivity | lia].
    + reflexivity.
  - apply (proj2 (X18_obtain_current_passphrase_attempts Standin.master_passphrase_is_valid
                    false Standin.getpass "Passphrase: " (Session (None, false) 3 []))).
    intros j _. reflexivity.
Defined.

(** X19 at a fresh session, at a session whose cache holds a passphrase that
    is refused, and at one whose cache holds the empty passphrase as
    validated. *)
Lemma X19_witness :
  (obtain "Passphrase: " true (Session (None, false) 0 [])).1 = Ok "correct horse"
  ∧ cached (obtain "Passphrase: " true (Session (None, false) 0 [])).2
    = (Some "correct horse", true)
  ∧ (∀ prompt', obtain prompt' true (obtain "Passphrase: " true (Session (None, false) 0 [])).2
                = (Ok "correct horse",
                   (obtain "Passphrase: " true (Session (None, false) 0 [])).2))
  ∧ cached (obtain "Passphrase: " true (Session (Some "horse", false) 3 [])).2 = (None, false)
  ∧ prompts (Session (Some "", true) 0 [])
    < prompts (obtain "Passphrase: " true (Session (Some "", true) 0 [])).2.
Proof.
  assert (Hok : (obtain "Passphrase: " true (Session (None, false) 0 [])).1
                = Ok "correct horse") by reflexivity.
  split; [exact Hok |].
  destruct (proj2 (X19_passphrase_cache Standin.master_passphrase_is_valid false
                     Standin.getpass "Passphrase: " (Session (None, false) 0 []) _ _)
              (surjective_pairing _)) as (Hcached & _ & _).
  destruct (Hcached "correct horse" Hok) as [Hc Hnext]; [discriminate |].
  split; [exact Hc |]. split; [exact Hnext |].
  destruct (proj2 (X19_passphrase_cache Standin.master_passphrase_is_valid false
                     Standin.getpass "Passphrase: " (Session (Some "horse", false) 3 []) _ _)
              (surjective_pairing _)) as (_ & Hdropped & _).
  destruct (proj2 (X19_passphrase_cache Standin.master_passphrase_is_valid false
                     Standin.getpass "Passphrase: " (Session (Some "", true) 0 []) _ _)
              (surjective_pairing _)) as (_ & _ & Hempty).
  split.
  - apply (Hdropped "horse"); [reflexivity | discriminate | reflexivity].
  - exact (Hempty true eq_refl).
Defined.


